(** * A shallow embedding of satsolver.py

    The solver keeps three kinds of Python dictionaries: the literals of a
    clause (variable -> polarity), the occurrence index of a formula
    (variable -> (negative count, positive count)) and the assignment maps
    (queue, assumptions, results).  Python dictionaries remember insertion
    order, [popitem] removes the entry inserted last, and the branching
    heuristic depends on the iteration order, so dictionaries are modelled
    as association lists in insertion order. *)

From stdpp Require Import base tactics option list sorting strings pretty.
From Stdlib Require Import ZArith Lia.

Local Open Scope Z_scope.

(** ** Python values that end up in assignment maps *)

Inductive pyval : Type :=
  | VNone
  | VBool (b : bool)
  | VInt (z : Z).

#[global] Instance pyval_eq_dec : EqDecision pyval.
Proof. solve_decision. Defined.

(** Keys of assignment maps: a variable number, or [None] when the
    heuristic found nothing to branch on. *)
Abbreviation pykey := (option Z).

(** [bool] is a subclass of [int] in Python: [True == 1], [False == 0],
    and [None] equals only itself. *)
Definition as_int (v : pyval) : option Z :=
  match v with
  | VNone => None
  | VBool b => Some (if b then 1 else 0)
  | VInt z => Some z
  end.

Definition py_eq (a b : pyval) : bool := bool_decide (as_int a = as_int b).

Definition truthy (v : pyval) : bool :=
  match v with
  | VNone => false
  | VBool b => b
  | VInt z => negb (Z.eqb z 0)
  end.

(** [not v] *)
Definition py_not (v : pyval) : pyval := VBool (negb (truthy v)).

(** ** Exceptions and outcomes *)

Inductive exn : Type :=
  | UnsatisfiedException
  | KeyError.

#[global] Instance exn_eq_dec : EqDecision exn.
Proof. solve_decision. Defined.

(** The outcome of a call: a returned value, a raised exception, or
    [Diverge] when the loop or the recursion of the source does not end
    (the fuel of the model ran out). *)
Inductive result (A : Type) : Type :=
  | Return (a : A)
  | Raise (e : exn)
  | Diverge.
Arguments Return {A} a.
Arguments Raise {A} e.
Arguments Diverge {A}.

(** ** Insertion-ordered dictionaries *)

Module Dict.
Section Dict.
Context {K V : Type} `{EqDecision K}.

Definition t : Type := list (K * V).

(** [d.get(k, None)] *)
Fixpoint get (k : K) (d : list (K * V)) : option V :=
  match d with
  | [] => None
  | (k', v) :: d' => if decide (k = k') then Some v else get k d'
  end.

(** [d[k] = v]: an existing key keeps its position, a new key goes last. *)
Fixpoint setitem (k : K) (v : V) (d : list (K * V)) : list (K * V) :=
  match d with
  | [] => [(k, v)]
  | (k', v') :: d' =>
      if decide (k = k') then (k, v) :: d' else (k', v') :: setitem k v d'
  end.

Fixpoint remove (k : K) (d : list (K * V)) : list (K * V) :=
  match d with
  | [] => []
  | (k', v) :: d' => if decide (k = k') then remove k d' else (k', v) :: remove k d'
  end.

(** [del d[k]]; [None] stands for the [KeyError] of a missing key. *)
Definition delitem (k : K) (d : list (K * V)) : option (list (K * V)) :=
  match get k d with
  | None => None
  | Some _ => Some (remove k d)
  end.

(** [d.popitem()]: the entry inserted last, and what is left. *)
Fixpoint popitem (d : list (K * V)) : option ((K * V) * list (K * V)) :=
  match d with
  | [] => None
  | kv :: d' =>
      match popitem d' with
      | None => Some (kv, [])
      | Some (last, rest) => Some (last, kv :: rest)
      end
  end.

(** [{**a, **b}], also the loop [for k, v in b.items(): a[k] = v]. *)
Definition merge (a b : list (K * V)) : list (K * V) :=
  fold_left (fun acc kv => setitem kv.1 kv.2 acc) b a.

Definition keys (d : list (K * V)) : list K := map fst d.
End Dict.
End Dict.

Abbreviation dict K V := (list (K * V)).

(** ** Clauses *)

Module Clause.
(** [Clause.variables]: variable number -> polarity. *)
Record t : Type := mk { variables : dict Z bool }.

(** [Clause.from_list]: [set_iter lst] is the order in which Python
    iterates over [set(lst)]. *)
Definition from_list (set_iter : list Z → list Z) (lst : list Z) : t :=
  mk (fold_left (fun d j => Dict.setitem (Z.abs j) (bool_decide (j > 0)) d)
                (set_iter lst) []).

Definition __copy__ (self : t) : t := mk (map (fun kv => kv) (variables self)).
End Clause.

#[global] Instance clause_eq_dec : EqDecision Clause.t.
Proof. solve_decision. Defined.

(** ** Formulas *)

Module Cnf.
(** [Cnf.variables]: variable number -> (negative, positive) occurrence
    counts; [Cnf.clauses]: the live clauses. *)
Record t : Type := mk {
  variables : dict Z (Z * Z);
  clauses : list Clause.t
}.

(** lines 59-61: [variables[var][par] += 1]; a variable outside
    [1..N] has no counter and raises [KeyError]. *)
Definition bump (par : bool) (c : Z * Z) : Z * Z :=
  if par then (c.1, c.2 + 1) else (c.1 + 1, c.2).

Fixpoint count_clause (items : list (Z * bool)) (variables : dict Z (Z * Z))
  : option (dict Z (Z * Z)) :=
  match items with
  | [] => Some variables
  | (var, par) :: items' =>
      match Dict.get var variables with
      | None => None
      | Some c => count_clause items' (Dict.setitem var (bump par c) variables)
      end
  end.

Fixpoint count_clauses (cls : list Clause.t) (variables : dict Z (Z * Z))
  : option (dict Z (Z * Z)) :=
  match cls with
  | [] => Some variables
  | c :: cls' =>
      match count_clause (Clause.variables c) variables with
      | None => None
      | Some variables' => count_clauses cls' variables'
      end
  end.

(** [Cnf.from_list]: [set_iter clause_list] is the order of
    [list(set(clause_list))]; [Raise KeyError] when a clause mentions a
    variable outside [1..N]. *)
Definition from_list (set_iter : list Clause.t → list Clause.t)
    (clause_list : list Clause.t) (N : Z) : result t :=
  let variables := map (fun j => (j, (0, 0))) (seqZ 1 N) in
  let clauses := set_iter clause_list in
  match count_clauses clauses variables with
  | None => Raise KeyError
  | Some variables =>
      let variables_counters :=
        filter (fun e => e.2.1 ≠ 0 ∨ e.2.2 ≠ 0) variables in
      Return (mk variables_counters clauses)
  end.

(** [Cnf.__copy__]: a fresh index and fresh clause objects with the same
    contents. *)
Definition __copy__ (self : t) : t :=
  mk (map (fun kv => kv) (variables self)) (map Clause.__copy__ (clauses self)).

(** *** Cnf.propagate *)

(** lines 133-182: the clause holds the assumed variable with the assumed
    polarity and is dropped; the counters of its other variables go
    down.  A variable whose counters are both zero leaves the index, a
    variable left with one polarity only is queued with that polarity. *)
Fixpoint drop_literals (assume_var : pykey) (items : list (Z * bool))
    (variables : dict Z (Z * Z)) (var_queue : dict pykey pyval)
  : dict Z (Z * Z) * dict pykey pyval * option exn :=
  match items with
  | [] => (variables, var_queue, None)
  | (var, par) :: items' =>
      if decide (Some var = assume_var) then
        drop_literals assume_var items' variables var_queue
      else
        match Dict.get var variables with
        | None => (variables, var_queue, Some KeyError)
        | Some (var_neg, var_pos) =>
            if par then
              let var_pos := var_pos - 1 in
              if decide (var_pos = 0) then
                if decide (var_neg = 0) then
                  match Dict.delitem var variables with
                  | None => (variables, var_queue, Some KeyError)
                  | Some variables' =>
                      drop_literals assume_var items' variables' var_queue
                  end
                else
                  match Dict.get (Some var) var_queue with
                  | None | Some VNone =>
                      drop_literals assume_var items'
                        (Dict.setitem var (var_neg, var_pos) variables)
                        (Dict.setitem (Some var) (VBool false) var_queue)
                  | Some queued =>
                      if py_eq queued (VBool true) then
                        (variables, var_queue, Some UnsatisfiedException)
                      else
                        drop_literals assume_var items'
                          (Dict.setitem var (var_neg, var_pos) variables)
                          var_queue
                  end
              else
                drop_literals assume_var items'
                  (Dict.setitem var (var_neg, var_pos) variables) var_queue
            else
              let var_neg := var_neg - 1 in
              if decide (var_neg = 0) then
                if decide (var_pos = 0) then
                  match Dict.delitem var variables with
                  | None => (variables, var_queue, Some KeyError)
                  | Some variables' =>
                      drop_literals assume_var items' variables' var_queue
                  end
                else
                  match Dict.get (Some var) var_queue with
                  | None | Some VNone =>
                      drop_literals assume_var items'
                        (Dict.setitem var (var_neg, var_pos) variables)
                        (Dict.setitem (Some var) (VBool true) var_queue)
                  | Some queued =>
                      if py_eq queued (VBool false) then
                        (variables, var_queue, Some UnsatisfiedException)
                      else
                        drop_literals assume_var items'
                          (Dict.setitem var (var_neg, var_pos) variables)
                          var_queue
                  end
              else
                drop_literals assume_var items'
                  (Dict.setitem var (var_neg, var_pos) variables) var_queue
        end
  end.

(** What one pass over the clauses leaves behind: [old] is the list
    [self.clauses] that was iterated, with the literals deleted in place
    so far; [kept] is [new_clauses]. *)
Record pass : Type := mk_pass {
  old : list Clause.t;
  kept : list Clause.t;
  index : dict Z (Z * Z);
  queue : dict pykey pyval;
  raised : option exn
}.

(** [clause.variables.get(assume_var, None)] *)
Definition clause_get (assume_var : pykey) (clause : Clause.t) : option bool :=
  match assume_var with
  | None => None
  | Some v => Dict.get v (Clause.variables clause)
  end.

(** [del clause.variables[assume_var]], for a key that [get] just found. *)
Definition clause_del (assume_var : pykey) (items : dict Z bool) : dict Z bool :=
  match assume_var with
  | None => items
  | Some v => Dict.remove v items
  end.

(** lines 120-209: the loop over [self.clauses]. *)
Fixpoint scan (assume_var : pykey) (assume_val : pyval) (cls : list Clause.t)
    (variables : dict Z (Z * Z)) (var_queue : dict pykey pyval) : pass :=
  match cls with
  | [] => mk_pass [] [] variables var_queue None
  | clause :: cls' =>
      match clause_get assume_var clause with
      | None =>
          let r := scan assume_var assume_val cls' variables var_queue in
          mk_pass (clause :: old r) (clause :: kept r) (index r) (queue r) (raised r)
      | Some clause_var =>
          if py_eq (VBool clause_var) assume_val then
            match drop_literals assume_var (Clause.variables clause)
                    variables var_queue with
            | (variables', var_queue', Some e) =>
                mk_pass (clause :: cls') [] variables' var_queue' (Some e)
            | (variables', var_queue', None) =>
                let r := scan assume_var assume_val cls' variables' var_queue' in
                mk_pass (clause :: old r) (kept r) (index r) (queue r) (raised r)
            end
          else
            let shrunk :=
              Clause.mk (clause_del assume_var (Clause.variables clause)) in
            match Clause.variables shrunk with
            | [] =>
                mk_pass (shrunk :: cls') [] variables var_queue
                  (Some UnsatisfiedException)
            | [(var, par)] =>
                match Dict.get (Some var) var_queue with
                | None | Some VNone =>
                    let r := scan assume_var assume_val cls' variables
                               (Dict.setitem (Some var) (VBool par) var_queue) in
                    mk_pass (shrunk :: old r) (kept r) (index r) (queue r) (raised r)
                | Some queued =>
                    if negb (py_eq (VBool par) queued) then
                      mk_pass (shrunk :: cls') [] variables var_queue
                        (Some UnsatisfiedException)
                    else
                      let r := scan assume_var assume_val cls' variables var_queue in
                      mk_pass (shrunk :: old r) (kept r) (index r) (queue r) (raised r)
                end
            | _ =>
                let r := scan assume_var assume_val cls' variables var_queue in
                mk_pass (shrunk :: old r) (shrunk :: kept r) (index r) (queue r) (raised r)
            end
      end
  end.

(** [del self.variables[assume_var]] inside [try]: [None] is the
    [KeyError] that makes the loop [continue]. *)
Definition del_assumed (assume_var : pykey) (variables : dict Z (Z * Z))
  : option (dict Z (Z * Z)) :=
  match assume_var with
  | None => None
  | Some v => Dict.delitem v variables
  end.

(** lines 105-219: the [while var_queue] loop. *)
Fixpoint propagate_loop (fuel : nat) (self : t) (var_queue : dict pykey pyval)
    (assumptions : dict pykey pyval) : t * result (dict pykey pyval) :=
  match fuel with
  | O => (self, Diverge)
  | S fuel' =>
      match Dict.popitem var_queue with
      | None => (self, Return assumptions)
      | Some ((assume_var, assume_val), var_queue) =>
          let assumptions := Dict.setitem assume_var assume_val assumptions in
          match del_assumed assume_var (variables self) with
          | None => propagate_loop fuel' self var_queue assumptions
          | Some variables' =>
              let r := scan assume_var assume_val (clauses self) variables' var_queue in
              match raised r with
              | Some e => (mk (index r) (old r), Raise e)
              | None =>
                  let self := mk (index r) (kept r) in
                  if decide (length (kept r) = 0%nat) then
                    (self, Return (Dict.merge assumptions (queue r)))
                  else propagate_loop fuel' self (queue r) assumptions
              end
          end
      end
  end.

(** Number of literal occurrences in the live clauses. *)
Definition literals (cls : list Clause.t) : nat :=
  sum_list (map (fun c => length (Clause.variables c)) cls).

(** Every iteration of the loop either skips a queued variable or removes
    a variable from the index and queues at most one variable per literal
    visited, so this many iterations are enough. *)
Definition propagate_fuel (self : t) (var_queue : dict pykey pyval) : nat :=
  S (length var_queue + length (variables self) * S (literals (clauses self))).

Definition propagate (self : t) (var_queue : dict pykey pyval)
  : t * result (dict pykey pyval) :=
  propagate_loop (propagate_fuel self var_queue) self var_queue [].

(** *** Cnf.unit_propagate *)

(** lines 81-96: what the [for] loop over the clauses meets first. *)
Inductive found : Type :=
  | EmptyClause
  | UnitClause (var : Z) (par : bool)
  | NoUnit.

Fixpoint first_unit (cls : list Clause.t) : found :=
  match cls with
  | [] => NoUnit
  | clause :: cls' =>
      match Clause.variables clause with
      | [] => EmptyClause
      | [(var, par)] => UnitClause var par
      | _ => first_unit cls'
      end
  end.

Fixpoint unit_propagate_loop (fuel : nat) (self : t)
    (assigned : dict pykey pyval) : t * result (dict pykey pyval) :=
  match fuel with
  | O => (self, Diverge)
  | S fuel' =>
      if decide (length (clauses self) = 0%nat) then (self, Return assigned)
      else
        match first_unit (clauses self) with
        | EmptyClause => (self, Raise UnsatisfiedException)
        | NoUnit => (self, Return assigned)
        | UnitClause var par =>
            match propagate self [(Some var, VBool par)] with
            | (self', Return prop) =>
                unit_propagate_loop fuel' self' (Dict.merge assigned prop)
            | (self', Raise e) => (self', Raise e)
            | (self', Diverge) => (self', Diverge)
            end
        end
  end.

(** A unit clause whose variable is still in the index removes it, so the
    loop runs at most once per indexed variable and once more to leave;
    it runs forever exactly when the unit variable is not in the index. *)
Definition unit_propagate (self : t) : t * result (dict pykey pyval) :=
  unit_propagate_loop (S (length (variables self))) self [].
End Cnf.

(** ** The solver *)

Module Solver.
(** [Solver.dynamic_largest]: [M] is set to 0 and never updated. *)
Definition dynamic_largest (variables : dict Z (Z * Z)) : pykey * pyval :=
  let M := 0 in
  fold_left
    (fun Mvar e =>
       let '(var, (neg, pos)) := e in
       if decide (pos + neg > M) then (Some var, VBool (bool_decide (pos > neg)))
       else Mvar)
    variables (None, VNone).

(** One branch of [Solver.dpll] (lines 269-278 and 285-295): propagate the
    guess on a copy, return at once when no clause is left, recurse
    otherwise.  [rec] is the recursive call. *)
Definition branch (rec : Cnf.t → result (dict pykey pyval)) (formula : Cnf.t)
    (variables : dict pykey pyval) (var : pykey) (assume : pyval)
  : result (dict pykey pyval) :=
  let new := Cnf.__copy__ formula in
  match Cnf.propagate new [(var, assume)] with
  | (new, Return propagated) =>
      if decide (length (Cnf.clauses new) = 0%nat) then
        Return (Dict.merge propagated variables)
      else
        match rec new with
        | Return d =>
            let new_vars := Dict.merge d propagated in
            Return (Dict.merge variables new_vars)
        | Raise e => Raise e
        | Diverge => Diverge
        end
  | (_, Raise e) => Raise e
  | (_, Diverge) => Diverge
  end.

(** [Solver.dpll]; the fuel bounds the depth of the recursion. *)
Fixpoint dpll_rec (fuel : nat) (formula : Cnf.t) : result (dict pykey pyval) :=
  match fuel with
  | O => Diverge
  | S fuel' =>
      match Cnf.unit_propagate formula with
      | (formula, Return variables) =>
          let '(var, assume) := dynamic_largest (Cnf.variables formula) in
          match branch (dpll_rec fuel') formula variables var assume with
          | Raise UnsatisfiedException =>
              branch (dpll_rec fuel') formula variables var (py_not assume)
          | r => r
          end
      | (_, Raise e) => Raise e
      | (_, Diverge) => Diverge
      end
  end.

(** Each recursive call works on a formula whose index lost the branching
    variable; when the heuristic returns [None] and clauses are left the
    recursion of the source does not end. *)
Definition dpll (formula : Cnf.t) : result (dict pykey pyval) :=
  dpll_rec (S (length (Cnf.variables formula))) formula.

(** lines 239-244 of [Solver.solve]: the scan for pure variables. *)
Definition pure_variables (variables : dict Z (Z * Z)) : dict pykey pyval :=
  fold_left
    (fun pure e =>
       let '(var, (n, p)) := e in
       if decide (p = 0) then Dict.setitem (Some var) (VBool false) pure
       else if decide (n = 0) then Dict.setitem (Some var) (VBool true) pure
       else pure)
    variables [].

(** The answer for an unsatisfiable formula, [{0: 1}]. *)
Definition unsat : dict pykey pyval := [(Some 0, VInt 1)].

(** [Solver.solve] *)
Definition solve (formula : Cnf.t) : result (dict pykey pyval) :=
  match Cnf.propagate formula (pure_variables (Cnf.variables formula)) with
  | (formula, Return variables) =>
      match dpll formula with
      | Return d => Return (Dict.merge d variables)
      | Raise UnsatisfiedException => Return unsat
      | r => r
      end
  | (_, Raise UnsatisfiedException) => Return unsat
  | (_, Raise e) => Raise e
  | (_, Diverge) => Diverge
  end.
End Solver.


(** * Vocabulary of the properties *)

(** The counter of one polarity, the counter of the other one, and the
    pair after one occurrence of polarity [par] went away. *)
Definition mine (par : bool) (c : Z * Z) : Z := if par then c.2 else c.1.
Definition other (par : bool) (c : Z * Z) : Z := if par then c.1 else c.2.
Definition lower (par : bool) (c : Z * Z) : Z * Z :=
  if par then (c.1, c.2 - 1) else (c.1 - 1, c.2).

(** Number of occurrences of the literal [(w, pol)] in a list of literals,
    and the literals of a list of clauses. *)
Definition cnt (w : Z) (pol : bool) (L : list (Z * bool)) : Z :=
  Z.of_nat (length (filter (λ e, e = (w, pol)) L)).

Fixpoint lits (cls : list Clause.t) : list (Z * bool) :=
  match cls with
  | [] => []
  | c :: cls' => Clause.variables c ++ lits cls'
  end.

(** The counters of the index agree with the literals [L]; the variable
    [skip] (the one being assigned) is left out. *)
Definition counted (skip : pykey) (index : dict Z (Z * Z))
    (L : list (Z * bool)) : Prop :=
  ∀ w, Some w ≠ skip →
    match Dict.get w index with
    | Some c => c = (cnt w false L, cnt w true L)
    | None => cnt w false L = 0 ∧ cnt w true L = 0
    end.

(** Number of live clauses that hold variable [w] with polarity [pol]. *)
Definition occurrences (w : Z) (pol : bool) (cls : list Clause.t) : Z :=
  Z.of_nat (length (filter (λ c, Dict.get w (Clause.variables c) = Some pol) cls)).

(** The invariant of the occurrence index. *)
Record index_invariant (formula : Cnf.t) : Prop := {
  index_counts : ∀ w n p,
    Dict.get w (Cnf.variables formula) = Some (n, p) →
    n = occurrences w false (Cnf.clauses formula) ∧
    p = occurrences w true (Cnf.clauses formula);
  index_absent : ∀ w c,
    Dict.get w (Cnf.variables formula) = None →
    c ∈ Cnf.clauses formula →
    Dict.get w (Clause.variables c) = None
}.

(** Python dictionaries hold a key once. *)
Record well_formed (formula : Cnf.t) : Prop := {
  wf_index : NoDup (Dict.keys (Cnf.variables formula));
  wf_clauses : ∀ c, c ∈ Cnf.clauses formula →
    NoDup (Dict.keys (Clause.variables c))
}.

(** *** Invariants of the loops of propagate

    [v] is the variable being assigned.  [L] are the literals that the
    counters still have to account for once the current clause is gone;
    [ks] are keys that have to stay in the queue. *)
Definition drop_inv (v : Z) (L : list (Z * bool)) (ks : list pykey)
    (items : list (Z * bool)) (idx : dict Z (Z * Z)) (q : dict pykey pyval)
  : Prop :=
  counted (Some v) idx (items ++ L) ∧
  Dict.get v idx = None ∧
  NoDup (Dict.keys idx) ∧
  (∀ k, k ∈ ks → k ∈ Dict.keys q).

(** A unit clause that appears when a literal is deleted leaves the clause
    list, but its literal is not taken off the counters: [pending] holds the
    literals of these clauses; their variables are in the queue. *)
Definition scan_inv (v : Z) (pending : list (Z * bool))
    (done todo : list Clause.t) (idx : dict Z (Z * Z)) (q : dict pykey pyval)
  : Prop :=
  counted (Some v) idx (lits (done ++ todo) ++ pending) ∧
  Dict.get v idx = None ∧
  NoDup (Dict.keys idx) ∧
  (∀ w b, (w, b) ∈ pending → w ≠ v ∧ Some w ∈ Dict.keys q) ∧
  (∀ c, c ∈ done → Dict.get v (Clause.variables c) = None) ∧
  (∀ c, c ∈ done ++ todo → NoDup (Dict.keys (Clause.variables c))).

Definition loop_inv (pending : list (Z * bool)) (formula : Cnf.t)
    (q : dict pykey pyval) : Prop :=
  counted None (Cnf.variables formula) (lits (Cnf.clauses formula) ++ pending) ∧
  well_formed formula ∧
  (∀ w b, (w, b) ∈ pending → Some w ∈ Dict.keys q).

(** A sequence of [propagate] calls on one formula, each of which returns. *)
Fixpoint propagate_all (formula : Cnf.t) (queues : list (dict pykey pyval))
  : option Cnf.t :=
  match queues with
  | [] => Some formula
  | q :: queues' =>
      match Cnf.propagate formula q with
      | (formula', Return _) => propagate_all formula' queues'
      | _ => None
      end
  end.

(** *** Assignments and their meaning *)

(** Every entry of an assignment map binds a variable to a boolean. *)
Definition typed (d : dict pykey pyval) : Prop :=
  ∀ k x, (k, x) ∈ d → ∃ w b, k = Some w ∧ x = VBool b.

(** The value that a key of the assumptions [A] or of the queue [q] has in
    the map that [propagate] returns: queued entries are moved to the
    assumptions one by one, or merged over them at the early exit. *)
Definition final (A q : dict pykey pyval) (k : pykey) : option pyval :=
  match Dict.get k q with
  | Some x => Some x
  | None => Dict.get k A
  end.

(** A clause is true under a (partial) assignment map when the map gives one
    of its literals the polarity it has in the clause. *)
Definition satisfied_by (m : pykey → option pyval) (c : Clause.t) : Prop :=
  ∃ w pol, (w, pol) ∈ Clause.variables c ∧ m (Some w) = Some (VBool pol).

Definition subclause (c' c : Clause.t) : Prop :=
  ∀ e, e ∈ Clause.variables c' → e ∈ Clause.variables c.

(** Every clause of [C0] is true under [m] or still has a live clause made
    of some of its literals. *)
Definition track (C0 live : list Clause.t) (m : pykey → option pyval) : Prop :=
  ∀ c0, c0 ∈ C0 → satisfied_by m c0 ∨ ∃ c, c ∈ live ∧ subclause c c0.

(** Total assignments. *)
Definition models (σ : Z → bool) (cls : list Clause.t) : Prop :=
  ∀ c, c ∈ cls → ∃ w pol, (w, pol) ∈ Clause.variables c ∧ σ w = pol.

Definition satisfiable (cls : list Clause.t) : Prop := ∃ σ, models σ cls.

Definition agrees (σ : Z → bool) (q : dict pykey pyval) : Prop :=
  ∀ w b, Dict.get (Some w) q = Some (VBool b) → σ w = b.

(** Why a queued value cannot be wrong: the variable has no occurrence of
    the other polarity left, or a unit clause that was dropped asks for it. *)
Definition justified (idx : dict Z (Z * Z)) (pending : list (Z * bool))
    (w : Z) (b : bool) : Prop :=
  ∀ c, Dict.get w idx = Some c → mine (negb b) c = 0 ∨ (w, b) ∈ pending.

(** The part of the invariant that speaks about assignments, while the
    variable [v] is being given the value [b]: [A] are the assumptions so
    far, [C0] the clauses at the entry of [propagate], [dom] the keys that
    may be assigned, [Sat0] the assumption that the formula and the queue at
    entry had a model. *)
Record sem_inv (v : Z) (b : bool) (A : dict pykey pyval)
    (C0 : list Clause.t) (dom : pykey → Prop) (Sat0 : Prop)
    (live : list Clause.t) (pending : list (Z * bool))
    (idx : dict Z (Z * Z)) (q : dict pykey pyval) : Prop := {
  sem_typed : typed q;
  sem_nodup : NoDup (Dict.keys q);
  sem_fresh : Some v ∉ Dict.keys q;
  sem_assigned : ∀ w, Some w ∈ Dict.keys A → Dict.get w idx = None;
  sem_keys : ∀ k, k ∈ Dict.keys q → dom k;
  sem_index : ∀ w, is_Some (Dict.get w idx) → dom (Some w);
  sem_track : track C0 live (final A q);
  sem_pending : ∀ w b', (w, b') ∈ pending →
    Dict.get (Some w) q = Some (VBool b');
  sem_sat : Sat0 →
    (∀ w b', Dict.get (Some w) q = Some (VBool b') → justified idx pending w b') ∧
    ∃ σ, σ v = b ∧ models σ live ∧ agrees σ q
}.

(** The same at the head of the [while] loop: [pending] are the literals of
    the dropped unit clauses whose variables are still queued.  The entry
    that [popitem] takes next needs no justification. *)
Record sem_loop (C0 : list Clause.t) (dom : pykey → Prop) (Sat0 : Prop)
    (pending : list (Z * bool)) (formula : Cnf.t)
    (q A : dict pykey pyval) : Prop := {
  sl_typed : typed q;
  sl_nodup : NoDup (Dict.keys q);
  sl_typed_A : typed A;
  sl_nodup_A : NoDup (Dict.keys A);
  sl_assigned : ∀ w, Some w ∈ Dict.keys A →
    Dict.get w (Cnf.variables formula) = None;
  sl_keys : ∀ k, k ∈ Dict.keys q → dom k;
  sl_keys_A : ∀ k, k ∈ Dict.keys A → dom k;
  sl_index : ∀ w, is_Some (Dict.get w (Cnf.variables formula)) → dom (Some w);
  sl_track : track C0 (Cnf.clauses formula) (final A q);
  sl_pending : ∀ w b, (w, b) ∈ pending →
    Dict.get (Some w) q = Some (VBool b);
  sl_sat : Sat0 →
    (∀ q' kv w b, q = q' ++ [kv] →
       Dict.get (Some w) q' = Some (VBool b) →
       justified (Cnf.variables formula) pending w b) ∧
    ∃ σ, models σ (Cnf.clauses formula) ∧ agrees σ q
}.

(** What a call of [propagate] establishes. *)
Definition propagate_post (C0 : list Clause.t) (dom : pykey → Prop)
    (Sat0 : Prop) (formula' : Cnf.t) (r : result (dict pykey pyval)) : Prop :=
  match r with
  | Return M =>
      typed M ∧ NoDup (Dict.keys M) ∧ (∀ k, k ∈ Dict.keys M → dom k) ∧
      track C0 (Cnf.clauses formula') (λ k, Dict.get k M) ∧
      well_formed formula' ∧
      (Cnf.clauses formula' = [] ∨
       (counted None (Cnf.variables formula') (lits (Cnf.clauses formula')) ∧
        ∀ w, Some w ∈ Dict.keys M →
             Dict.get w (Cnf.variables formula') = None)) ∧
      (∀ w, is_Some (Dict.get w (Cnf.variables formula')) → dom (Some w)) ∧
      (Sat0 → satisfiable (Cnf.clauses formula'))
  | Raise e => e = UnsatisfiedException ∧ ¬ Sat0
  | Diverge => True
  end.

(** No entry of the map holds an integer (the marker of [{0: 1}]). *)
Definition no_int (d : dict pykey pyval) : Prop := ∀ k z, (k, VInt z) ∉ d.

(** What a call of [dpll] establishes. *)
Definition dpll_post (formula : Cnf.t) (r : result (dict pykey pyval)) : Prop :=
  match r with
  | Return d =>
      NoDup (Dict.keys d) ∧ no_int d ∧
      (∀ w, Some w ∈ Dict.keys d →
            is_Some (Dict.get w (Cnf.variables formula))) ∧
      (∀ c, c ∈ Cnf.clauses formula → satisfied_by (λ k, Dict.get k d) c)
  | Raise e => e = UnsatisfiedException ∧ ¬ satisfiable (Cnf.clauses formula)
  | Diverge => False
  end.

(** [dpll_calls formula inner]: running [dpll] on [formula] calls [dpll] on
    [inner] (possibly [formula] itself): in the first branch whenever the
    copy still has clauses after propagation, in the second branch when the
    first one raised. *)
Inductive dpll_calls : Cnf.t → Cnf.t → Prop :=
  | calls_here formula : dpll_calls formula formula
  | calls_first formula reduced vars var assume new propagated inner :
      Cnf.unit_propagate formula = (reduced, Return vars) →
      Solver.dynamic_largest (Cnf.variables reduced) = (var, assume) →
      Cnf.propagate (Cnf.__copy__ reduced) [(var, assume)]
        = (new, Return propagated) →
      Cnf.clauses new ≠ [] →
      dpll_calls new inner →
      dpll_calls formula inner
  | calls_second formula reduced vars var assume new propagated inner :
      Cnf.unit_propagate formula = (reduced, Return vars) →
      Solver.dynamic_largest (Cnf.variables reduced) = (var, assume) →
      Solver.branch Solver.dpll reduced vars var assume
        = Raise UnsatisfiedException →
      Cnf.propagate (Cnf.__copy__ reduced) [(var, py_not assume)]
        = (new, Return propagated) →
      Cnf.clauses new ≠ [] →
      dpll_calls new inner →
      dpll_calls formula inner.

(** * Objects and references

    The functions above pass formulas by value.  In Python a [Cnf] and its
    [Clause]s are objects: [propagate] deletes literals from the dictionary
    of a clause in place, updates the index dictionary in place and rebinds
    [self.clauses].  [Store] keeps the four kinds of objects in four
    arrays, a reference being a position; [__copy__] allocates new objects
    at the end.  The Python lists held in [self.clauses] are passed by
    value: each one is built by [append] or by a comprehension before it is
    bound and is never changed afterwards. *)

Module Store.
Definition loc := nat.

Record t : Type := mk {
  dicts : list (dict Z bool);          (* the dictionaries of clauses *)
  indexes : list (dict Z (Z * Z));     (* the occurrence indexes *)
  clause_objs : list loc;              (* Clause objects: [variables] *)
  cnfs : list (loc * list loc)         (* Cnf objects: [variables], [clauses] *)
}.

(** Reading a reference. *)
Definition cnf_at (h : t) (f : loc) : loc * list loc := cnfs h !!! f.
Definition index_at (h : t) (idx : loc) : dict Z (Z * Z) := indexes h !!! idx.
Definition dict_of (h : t) (c : loc) : loc := clause_objs h !!! c.

(** [clause.variables], read through both references. *)
Definition clause_items (h : t) (c : loc) : dict Z bool :=
  dicts h !!! dict_of h c.

(** The value of the formula that the reference [f] stands for. *)
Definition load (h : t) (f : loc) : Cnf.t :=
  let '(idx, cls) := cnf_at h f in
  Cnf.mk (index_at h idx) (map (λ c, Clause.mk (clause_items h c)) cls).

Definition set_dict (h : t) (d : loc) (items : dict Z bool) : t :=
  mk (<[d := items]> (dicts h)) (indexes h) (clause_objs h) (cnfs h).

Definition set_index (h : t) (idx : loc) (items : dict Z (Z * Z)) : t :=
  mk (dicts h) (<[idx := items]> (indexes h)) (clause_objs h) (cnfs h).

(** [self.clauses = cls] *)
Definition set_clauses (h : t) (self : loc) (cls : list loc) : t :=
  mk (dicts h) (indexes h) (clause_objs h)
     (<[self := ((cnf_at h self).1, cls)]> (cnfs h)).

(** [Clause.__copy__]: [Clause(self.variables.copy())] *)
Definition clause_copy (h : t) (c : loc) : t * loc :=
  let d := length (dicts h) in
  let c' := length (clause_objs h) in
  (mk (dicts h ++ [clause_items h c]) (indexes h) (clause_objs h ++ [d]) (cnfs h),
   c').

(** [[j.__copy__() for j in self.clauses]] *)
Fixpoint clauses_copy (h : t) (cls : list loc) : t * list loc :=
  match cls with
  | [] => (h, [])
  | c :: cls' =>
      let '(h1, c') := clause_copy h c in
      let '(h2, r) := clauses_copy h1 cls' in
      (h2, c' :: r)
  end.

(** [Cnf.__copy__]; the values of the index are tuples, so [deepcopy]
    allocates one new dictionary. *)
Definition cnf_copy (h : t) (f : loc) : t * loc :=
  let '(idx, cls) := cnf_at h f in
  let idx' := length (indexes h) in
  let h1 := mk (dicts h) (indexes h ++ [index_at h idx]) (clause_objs h) (cnfs h) in
  let '(h2, cls') := clauses_copy h1 cls in
  let f' := length (cnfs h2) in
  (mk (dicts h2) (indexes h2) (clause_objs h2) (cnfs h2 ++ [(idx', cls')]), f').

(** lines 133-182 read and write one object, the index of [self]. *)
Definition drop_literals (h : t) (idx : loc) (assume_var : pykey)
    (items : list (Z * bool)) (var_queue : dict pykey pyval)
  : t * dict pykey pyval * option exn :=
  let '(variables', var_queue', e) :=
    Cnf.drop_literals assume_var items (index_at h idx) var_queue in
  (set_index h idx variables', var_queue', e).

Record pass : Type := mk_pass {
  heap : t;
  kept : list loc;
  queue : dict pykey pyval;
  raised : option exn
}.

(** lines 120-209 *)
Fixpoint scan (h : t) (idx : loc) (assume_var : pykey) (assume_val : pyval)
    (cls : list loc) (var_queue : dict pykey pyval) : pass :=
  match cls with
  | [] => mk_pass h [] var_queue None
  | clause :: cls' =>
      let items := clause_items h clause in
      match Cnf.clause_get assume_var (Clause.mk items) with
      | None =>
          let r := scan h idx assume_var assume_val cls' var_queue in
          mk_pass (heap r) (clause :: kept r) (queue r) (raised r)
      | Some clause_var =>
          if py_eq (VBool clause_var) assume_val then
            match drop_literals h idx assume_var items var_queue with
            | (h', var_queue', Some e) => mk_pass h' [] var_queue' (Some e)
            | (h', var_queue', None) =>
                scan h' idx assume_var assume_val cls' var_queue'
            end
          else
            let shrunk := Cnf.clause_del assume_var items in
            let h := set_dict h (dict_of h clause) shrunk in
            match shrunk with
            | [] => mk_pass h [] var_queue (Some UnsatisfiedException)
            | [(var, par)] =>
                match Dict.get (Some var) var_queue with
                | None | Some VNone =>
                    scan h idx assume_var assume_val cls'
                      (Dict.setitem (Some var) (VBool par) var_queue)
                | Some queued =>
                    if negb (py_eq (VBool par) queued) then
                      mk_pass h [] var_queue (Some UnsatisfiedException)
                    else scan h idx assume_var assume_val cls' var_queue
                end
            | _ =>
                let r := scan h idx assume_var assume_val cls' var_queue in
                mk_pass (heap r) (clause :: kept r) (queue r) (raised r)
            end
      end
  end.

(** lines 105-219 *)
Fixpoint propagate_loop (fuel : nat) (h : t) (self : loc)
    (var_queue assumptions : dict pykey pyval)
  : t * result (dict pykey pyval) :=
  match fuel with
  | O => (h, Diverge)
  | S fuel' =>
      match Dict.popitem var_queue with
      | None => (h, Return assumptions)
      | Some ((assume_var, assume_val), var_queue) =>
          let assumptions := Dict.setitem assume_var assume_val assumptions in
          let '(idx, cls) := cnf_at h self in
          match Cnf.del_assumed assume_var (index_at h idx) with
          | None => propagate_loop fuel' h self var_queue assumptions
          | Some variables' =>
              let h := set_index h idx variables' in
              let r := scan h idx assume_var assume_val cls var_queue in
              match raised r with
              | Some e => (heap r, Raise e)
              | None =>
                  let h := set_clauses (heap r) self (kept r) in
                  if decide (length (kept r) = 0%nat) then
                    (h, Return (Dict.merge assumptions (queue r)))
                  else propagate_loop fuel' h self (queue r) assumptions
              end
          end
      end
  end.

(** [Cnf.propagate] on the object [self] *)
Definition propagate (h : t) (self : loc) (var_queue : dict pykey pyval)
  : t * result (dict pykey pyval) :=
  propagate_loop (Cnf.propagate_fuel (load h self) var_queue) h self var_queue [].

Fixpoint unit_propagate_loop (fuel : nat) (h : t) (self : loc)
    (assigned : dict pykey pyval) : t * result (dict pykey pyval) :=
  match fuel with
  | O => (h, Diverge)
  | S fuel' =>
      let formula := load h self in
      if decide (length (Cnf.clauses formula) = 0%nat) then (h, Return assigned)
      else
        match Cnf.first_unit (Cnf.clauses formula) with
        | Cnf.EmptyClause => (h, Raise UnsatisfiedException)
        | Cnf.NoUnit => (h, Return assigned)
        | Cnf.UnitClause var par =>
            match propagate h self [(Some var, VBool par)] with
            | (h', Return prop) =>
                unit_propagate_loop fuel' h' self (Dict.merge assigned prop)
            | (h', Raise e) => (h', Raise e)
            | (h', Diverge) => (h', Diverge)
            end
        end
  end.

(** [Cnf.unit_propagate] on the object [self] *)
Definition unit_propagate (h : t) (self : loc) : t * result (dict pykey pyval) :=
  unit_propagate_loop (S (length (Cnf.variables (load h self)))) h self [].

(** A call on the object; its outcome is dropped, the store is kept. *)
Inductive call : Type :=
  | CallPropagate (var_queue : dict pykey pyval)
  | CallUnitPropagate.

Definition run (h : t) (self : loc) (c : call) : t :=
  match c with
  | CallPropagate var_queue => (propagate h self var_queue).1
  | CallUnitPropagate => (unit_propagate h self).1
  end.

Definition runs (h : t) (self : loc) (l : list call) : t :=
  fold_left (λ h c, run h self c) l h.

(** Every object of [h0] is in [h], unchanged. *)
Definition extends (h0 h : t) : Prop :=
  dicts h0 `prefix_of` dicts h ∧
  indexes h0 `prefix_of` indexes h ∧
  clause_objs h0 `prefix_of` clause_objs h ∧
  cnfs h0 `prefix_of` cnfs h.

(** The objects that [self] reaches in [h] were allocated after [h0]. *)
Definition fresh (h0 h : t) (self : loc) : Prop :=
  (length (cnfs h0) ≤ self)%nat ∧
  (length (indexes h0) ≤ (cnf_at h self).1)%nat ∧
  ∀ c, c ∈ (cnf_at h self).2 →
       (length (dicts h0) ≤ dict_of h c)%nat.

(** The references of the formula [f] point to objects of [h]. *)
Definition valid (h : t) (f : loc) : Prop :=
  ∃ idx cls,
    cnfs h !! f = Some (idx, cls) ∧
    is_Some (indexes h !! idx) ∧
    ∀ c, c ∈ cls → ∃ d, clause_objs h !! c = Some d ∧ is_Some (dicts h !! d).

(** The clauses behind a list of references. *)
Definition view (h : t) (cls : list loc) : list Clause.t :=
  map (λ c, Clause.mk (clause_items h c)) cls.

(** [h'] is [h] up to its indexes and the dictionaries [ds]. *)
Definition writes (h h' : t) (ds : list loc) : Prop :=
  clause_objs h' = clause_objs h ∧
  cnfs h' = cnfs h ∧
  length (indexes h') = length (indexes h) ∧
  length (dicts h') = length (dicts h) ∧
  ∀ d, d ∉ ds → dicts h' !!! d = dicts h !!! d.

(** The pass [r] over the objects [cls] of [h] is the pass [rv] over their
    values. *)
Definition scan_refines (h : t) (idx : loc) (cls : list loc)
    (r : pass) (rv : Cnf.pass) : Prop :=
  raised r = Cnf.raised rv ∧
  queue r = Cnf.queue rv ∧
  index_at (heap r) idx = Cnf.index rv ∧
  view (heap r) (kept r) = Cnf.kept rv ∧
  view (heap r) cls = Cnf.old rv ∧
  kept r `sublist_of` cls ∧
  writes h (heap r) (map (dict_of h) cls).

(** The formula [self] reaches objects of [h], and no two of its clauses
    share a dictionary. *)
Definition separated (h : t) (self : loc) : Prop :=
  ∃ idx cls,
    cnfs h !! self = Some (idx, cls) ∧
    (idx < length (indexes h))%nat ∧
    (∀ c, c ∈ cls →
       (c < length (clause_objs h))%nat ∧
       (dict_of h c < length (dicts h))%nat) ∧
    NoDup (map (dict_of h) cls).
End Store.

(** * Reading and writing files

    [Solver.from_file], [Solver.to_file] and the script at the end of the
    source.  A Python string is the list of its code points.  The builtins
    [str.split()], [int()] and [str()] are parameters of the model, and so
    are the orders in which the two sets are iterated.  Opening, reading
    and writing are left out: [from_file] starts from the lines that the
    iteration over the open file yields, [to_file] gives the text that is
    written. *)

Abbreviation pystr := (list N).

(** The code points of a literal. *)
Fixpoint codes (s : string) : pystr :=
  match s with
  | EmptyString => []
  | String a s' => Ascii.N_of_ascii a :: codes s'
  end.

(** [s.startswith(prefix)] *)
Fixpoint startswith (prefix s : pystr) : bool :=
  match prefix, s with
  | [], _ => true
  | _ :: _, [] => false
  | a :: prefix', b :: s' => bool_decide (a = b) && startswith prefix' s'
  end.

(** [sep.join(l)] *)
Fixpoint join (sep : pystr) (l : list pystr) : pystr :=
  match l with
  | [] => []
  | [x] => x
  | x :: l' => x ++ sep ++ join sep l'
  end.

(** What [from_file] raises before it calls [Cnf.from_list]. *)
Inductive read_exn : Type :=
  | ValueError
  | IndexError.

(** What the script does: it writes a text to the output file, or an
    exception reaches [except Exception] and nothing is written, or it
    does not end. *)
Inductive run : Type :=
  | Written (text : pystr)
  | Refused
  | NoAnswer.

Module Files.
Section Builtins.
Variable split : pystr → list pystr.
Variable int : pystr → option Z.
Variable str : Z → pystr.
Variable set_iter : list Z → list Z.
Variable set_clauses : list Clause.t → list Clause.t.

(** [list(map(int, tokens))]; [None] is the [ValueError] of the first
    token that is no integer. *)
Fixpoint ints (tokens : list pystr) : option (list Z) :=
  match tokens with
  | [] => Some []
  | token :: tokens' =>
      match int token with
      | None => None
      | Some z =>
          match ints tokens' with
          | None => None
          | Some zs => Some (z :: zs)
          end
      end
  end.

(** lines 316-325: the loop over the lines. *)
Fixpoint read (lines : list pystr) (clauses : list Clause.t) (varnum : Z)
  : read_exn + list Clause.t * Z :=
  match lines with
  | [] => inr (clauses, varnum)
  | line :: lines' =>
      if startswith (codes "c") line then read lines' clauses varnum
      else if startswith (codes "p") line then
        let tmp := split line in
        match tmp !! 2%nat with
        | None => inl IndexError
        | Some token =>
            match int token with
            | None => inl ValueError
            | Some varnum => read lines' clauses varnum
            end
        end
      else
        match ints (split line) with
        | None => inl ValueError
        | Some variables =>
            read lines'
              (clauses ++ [Clause.from_list set_iter (removelast variables)])
              varnum
        end
  end.

(** [Solver.from_file] *)
Definition from_file (lines : list pystr) : read_exn + result Cnf.t :=
  match read lines [] 0 with
  | inl e => inl e
  | inr (clauses, varnum) => inr (Cnf.from_list set_clauses clauses varnum)
  end.

(** [Solver.to_file]: the text [string_sol]. *)
Definition to_file (solution : dict pykey pyval) : pystr :=
  join (codes " ")
    (omap (λ '(var, val),
             match var with
             | None => None
             | Some var => Some (if truthy val then str var else str (- var))
             end)
          solution).

(** The script. *)
Definition main (lines : list pystr) : run :=
  match from_file lines with
  | inl _ => Refused
  | inr (Return cnf) =>
      match Solver.solve cnf with
      | Return solution => Written (to_file solution)
      | Raise _ => Refused
      | Diverge => NoAnswer
      end
  | inr (Raise _) => Refused
  | inr Diverge => NoAnswer
  end.
End Builtins.

(** An instance on which the model runs: splitting at ASCII white space,
    integers written as an optional [-] and decimal digits, and sets that
    are iterated in the order of the list.  Python's [int] accepts more
    than that; the theorems do not depend on the instance. *)
Definition is_space (c : N) : bool :=
  bool_decide (9 ≤ c ≤ 13 ∨ 28 ≤ c ≤ 32)%N.

Fixpoint split_from (word : pystr) (s : pystr) : list pystr :=
  match s with
  | [] => match word with [] => [] | _ => [rev word] end
  | c :: s' =>
      if is_space c then
        match word with
        | [] => split_from [] s'
        | _ => rev word :: split_from [] s'
        end
      else split_from (c :: word) s'
  end.

Definition plain_split (s : pystr) : list pystr := split_from [] s.

Fixpoint digits (acc : Z) (s : pystr) : option Z :=
  match s with
  | [] => Some acc
  | c :: s' =>
      if bool_decide (48 ≤ c ≤ 57)%N then
        digits (10 * acc + (Z.of_N c - 48)) s'
      else None
  end.

Definition plain_int (s : pystr) : option Z :=
  match s with
  | [] => None
  | 45%N :: (_ :: _) as s' => Z.opp <$> digits 0 s'
  | 45%N :: [] => None
  | _ => digits 0 s
  end.

Definition plain_str (z : Z) : pystr := codes (pretty z).

Definition plain_main : list pystr → run :=
  main plain_split plain_int plain_str (λ l, l) (λ l, l).
End Files.

(** Lines of a file: comments, problem lines, and lines that give a
    clause. *)
Definition is_comment (line : pystr) : bool := startswith (codes "c") line.
Definition is_problem (line : pystr) : bool :=
  negb (is_comment line) && startswith (codes "p") line.
Definition is_clause (line : pystr) : bool :=
  negb (is_comment line) && negb (startswith (codes "p") line).

(** The clause that a line gives, the variable count that a problem line
    gives, and the variable count that is in force at the end of the file. *)
Definition line_clause (split : pystr → list pystr) (int : pystr → option Z)
    (set_iter : list Z → list Z) (line : pystr) : Clause.t :=
  Clause.from_list set_iter (removelast (default [] (Files.ints int (split line)))).

Definition line_header (split : pystr → list pystr) (int : pystr → option Z)
    (line : pystr) : Z :=
  default 0 (split line !! 2%nat ≫= int).

Definition declared (split : pystr → list pystr) (int : pystr → option Z)
    (lines : list pystr) : Z :=
  List.last (map (line_header split int) (filter (λ l, is_problem l) lines)) 0.

(** The signed integer that [to_file] prints for a literal. *)
Definition signed (w : Z) (pol : bool) : Z := if pol then w else - w.

(** No entry of the index has both counts zero. *)
Definition tidy (idx : dict Z (Z * Z)) : Prop := ∀ w c, (w, c) ∈ idx → c ≠ (0, 0).

(** [idx'] is what is left of [idx] after deleting keys and replacing
    values: its keys are keys of [idx], in the order of [idx]. *)
Definition thinned (idx idx' : dict Z (Z * Z)) : Prop :=
  Dict.keys idx' `sublist_of` Dict.keys idx ∧ (tidy idx → tidy idx').

(** The state of the index along the search: it counts the occurrences
    in the clauses (unless no clause is left), its variables are in
    increasing order and none has both counts zero. *)
Definition in_order (formula : Cnf.t) : Prop :=
  well_formed formula ∧
  (Cnf.clauses formula = [] ∨
   counted None (Cnf.variables formula) (lits (Cnf.clauses formula))) ∧
  StronglySorted Z.lt (Dict.keys (Cnf.variables formula)) ∧
  tidy (Cnf.variables formula).

(** * Properties *)

(** ** Dictionaries *)

Section DictFacts.
Context {K V : Type} `{EqDecision K}.
Implicit Types (k : K) (v : V) (d : dict K V).

Lemma get_setitem k k' v d :
  Dict.get k' (Dict.setitem k v d) = if decide (k' = k) then Some v else Dict.get k' d.
Proof.
  induction d as [|[k0 v0] d IH]; simpl.
  - repeat case_decide; congruence.
  - repeat (case_decide; simpl); try congruence.
Qed.

Lemma get_setitem_eq k v d : Dict.get k (Dict.setitem k v d) = Some v.
Proof. rewrite get_setitem. case_decide; congruence. Qed.

Lemma get_setitem_ne k k' v d :
  k' ≠ k → Dict.get k' (Dict.setitem k v d) = Dict.get k' d.
Proof. intros. rewrite get_setitem. case_decide; congruence. Qed.

Lemma get_remove k k' d :
  Dict.get k' (Dict.remove k d) = if decide (k' = k) then None else Dict.get k' d.
Proof.
  induction d as [|[k0 v0] d IH]; simpl.
  - by case_decide.
  - repeat (case_decide; simpl); try congruence.
Qed.

Lemma get_remove_eq k d : Dict.get k (Dict.remove k d) = None.
Proof. rewrite get_remove. case_decide; congruence. Qed.

Lemma get_remove_ne k k' d : k' ≠ k → Dict.get k' (Dict.remove k d) = Dict.get k' d.
Proof. intros. rewrite get_remove. case_decide; congruence. Qed.

Lemma get_None k d : Dict.get k d = None ↔ k ∉ Dict.keys d.
Proof.
  induction d as [|[k0 v0] d IH]; simpl.
  - split; [intros _; apply not_elem_of_nil | done].
  - rewrite not_elem_of_cons. case_decide; subst; simpl.
    + split; [done | intros [? _]; done].
    + rewrite IH. tauto.
Qed.

Lemma get_Some_elem_of k v d : Dict.get k d = Some v → (k, v) ∈ d.
Proof.
  induction d as [|[k0 v0] d IH]; simpl; [done|].
  case_decide; subst.
  - intros [= ->]. left.
  - intros. right. auto.
Qed.

Lemma elem_of_get k v d : NoDup (Dict.keys d) → (k, v) ∈ d → Dict.get k d = Some v.
Proof.
  induction d as [|[k0 v0] d IH]; simpl.
  - intros _ Hin. by apply elem_of_nil in Hin.
  - intros [Hk Hd]%NoDup_cons [Heq | Hin]%elem_of_cons.
    + injection Heq as -> ->. by rewrite decide_True.
    + rewrite decide_False; [auto|].
      intros ->. apply Hk. apply (list_elem_of_fmap_2 fst) in Hin. done.
Qed.

Lemma get_is_Some_keys k d : is_Some (Dict.get k d) ↔ k ∈ Dict.keys d.
Proof.
  rewrite <- not_eq_None_Some, get_None.
  destruct (decide (k ∈ Dict.keys d)); tauto.
Qed.

Lemma keys_setitem k v d x :
  x ∈ Dict.keys (Dict.setitem k v d) ↔ x = k ∨ x ∈ Dict.keys d.
Proof.
  rewrite <- !get_is_Some_keys, get_setitem.
  case_decide; subst; split; eauto; intros [?|?]; done.
Qed.

Lemma keys_remove k d x :
  x ∈ Dict.keys (Dict.remove k d) ↔ x ≠ k ∧ x ∈ Dict.keys d.
Proof.
  rewrite <- !get_is_Some_keys, get_remove.
  case_decide; subst; split; try tauto.
  intros []%is_Some_None.
Qed.

Lemma NoDup_keys_setitem k v d :
  NoDup (Dict.keys d) → NoDup (Dict.keys (Dict.setitem k v d)).
Proof.
  induction d as [|[k0 v0] d IH]; simpl.
  - intros _. apply NoDup_singleton.
  - intros [Hk Hd]%NoDup_cons. case_decide; subst; simpl.
    + by apply NoDup_cons.
    + apply NoDup_cons. split; [|auto].
      fold (Dict.keys (Dict.setitem k v d)). rewrite keys_setitem.
      intros [?|?]; done.
Qed.

Lemma NoDup_keys_remove k d :
  NoDup (Dict.keys d) → NoDup (Dict.keys (Dict.remove k d)).
Proof.
  induction d as [|[k0 v0] d IH]; simpl; [done|].
  intros [Hk Hd]%NoDup_cons. case_decide; subst; simpl; [auto|].
  apply NoDup_cons. split; [|auto].
  fold (Dict.keys (Dict.remove k d)). rewrite keys_remove. tauto.
Qed.

Lemma length_setitem k v d : (length (Dict.setitem k v d) ≤ S (length d))%nat.
Proof. induction d as [|[k0 v0] d IH]; simpl; [lia|]. case_decide; simpl; lia. Qed.

Lemma length_setitem_in k v d :
  is_Some (Dict.get k d) → length (Dict.setitem k v d) = length d.
Proof.
  induction d as [|[k0 v0] d IH]; simpl.
  - intros []%is_Some_None.
  - case_decide; simpl; [done|]. intros. f_equal. auto.
Qed.

Lemma length_remove k d : (length (Dict.remove k d) ≤ length d)%nat.
Proof. induction d as [|[k0 v0] d IH]; simpl; [lia|]. case_decide; simpl; lia. Qed.

Lemma length_remove_in k d :
  is_Some (Dict.get k d) → (length (Dict.remove k d) < length d)%nat.
Proof.
  induction d as [|[k0 v0] d IH]; simpl.
  - intros []%is_Some_None.
  - case_decide; simpl.
    + intros _. pose proof (length_remove k d). lia.
    + intros Hs. apply IH in Hs. lia.
Qed.

Lemma delitem_Some k d d' :
  Dict.delitem k d = Some d' ↔ is_Some (Dict.get k d) ∧ d' = Dict.remove k d.
Proof.
  unfold Dict.delitem. destruct (Dict.get k d); split.
  - intros [= <-]. eauto.
  - intros [_ ->]. done.
  - done.
  - intros [[]%is_Some_None _].
Qed.

Lemma delitem_None k d : Dict.delitem k d = None ↔ Dict.get k d = None.
Proof. unfold Dict.delitem. destruct (Dict.get k d); split; done. Qed.

Lemma popitem_None d : Dict.popitem d = None ↔ d = [].
Proof.
  destruct d as [|kv d]; simpl; [done|].
  destruct (Dict.popitem d) as [[? ?]|]; done.
Qed.

Lemma popitem_Some d kv d' : Dict.popitem d = Some (kv, d') ↔ d = d' ++ [kv].
Proof.
  revert d'. induction d as [|kv0 d IH]; intros d'; simpl.
  - split; [done|]. intros Heq. by destruct d'.
  - destruct (Dict.popitem d) as [[last rest]|] eqn:Hp.
    + split.
      * intros [= -> <-]. simpl. f_equal. by apply IH.
      * destruct d' as [|kv1 d']; simpl.
        -- intros [= -> ->]. done.
        -- intros [= -> Hd]. apply IH in Hd. congruence.
    + apply popitem_None in Hp as ->. split.
      * by intros [= -> <-].
      * destruct d' as [|kv1 d']; simpl; [by intros [= ->]|].
        intros [= _ Hd]. by destruct d'.
Qed.

Lemma merge_snoc (a b : dict K V) kv :
  Dict.merge a (b ++ [kv]) = Dict.setitem kv.1 kv.2 (Dict.merge a b).
Proof. unfold Dict.merge. by rewrite fold_left_app. Qed.

Lemma get_merge_notin k (a b : dict K V) :
  k ∉ Dict.keys b → Dict.get k (Dict.merge a b) = Dict.get k a.
Proof.
  induction b as [|[k0 v0] b IH] using rev_ind; [done|].
  unfold Dict.keys. rewrite fmap_app, not_elem_of_app. simpl.
  rewrite not_elem_of_cons. intros [Hb [Hk _]].
  rewrite merge_snoc, get_setitem_ne by done. auto.
Qed.

Lemma get_merge k (a b : dict K V) :
  NoDup (Dict.keys b) →
  Dict.get k (Dict.merge a b) =
    match Dict.get k b with Some v => Some v | None => Dict.get k a end.
Proof.
  induction b as [|[k0 v0] b IH] using rev_ind; [done|].
  unfold Dict.keys. rewrite fmap_app. simpl.
  intros (Hb & Hk & _)%NoDup_app.
  rewrite merge_snoc, get_setitem. simpl. case_decide; subst.
  - destruct (Dict.get k0 (b ++ [(k0, v0)])) eqn:Hg.
    + apply get_Some_elem_of in Hg. apply elem_of_app in Hg as [Hg|Hg].
      * exfalso. apply (Hk k0); [|left].
        by apply (list_elem_of_fmap_2 fst) in Hg.
      * apply list_elem_of_singleton in Hg. congruence.
    + apply get_None in Hg. exfalso. apply Hg.
      unfold Dict.keys. rewrite fmap_app. apply elem_of_app. right. left.
  - rewrite IH by done.
    assert (Dict.get k (b ++ [(k0, v0)]) = Dict.get k b) as ->; [|done].
    rename select (k ≠ k0) into Hne. clear -Hne.
    induction b as [|[k1 v1] b IH]; simpl.
    + by rewrite decide_False.
    + case_decide; auto.
Qed.

Lemma keys_merge x (a b : dict K V) :
  x ∈ Dict.keys (Dict.merge a b) ↔ x ∈ Dict.keys a ∨ x ∈ Dict.keys b.
Proof.
  induction b as [|[k0 v0] b IH] using rev_ind.
  - simpl. split; [auto|]. intros [?|Hx]; [done|]. by apply elem_of_nil in Hx.
  - rewrite merge_snoc, keys_setitem, IH. unfold Dict.keys at 4.
    rewrite fmap_app, elem_of_app. simpl. rewrite list_elem_of_singleton.
    fold (Dict.keys b). tauto.
Qed.

Lemma NoDup_keys_merge (a b : dict K V) :
  NoDup (Dict.keys a) → NoDup (Dict.keys (Dict.merge a b)).
Proof.
  intros Ha. induction b as [|[k0 v0] b IH] using rev_ind; [done|].
  rewrite merge_snoc. by apply NoDup_keys_setitem.
Qed.
End DictFacts.

(** ** One literal of a dropped clause

    Both polarities of lines 145-182 do the same with the roles of the two
    counters exchanged. *)

Lemma drop_literals_cons assume_var var par items variables var_queue :
  Cnf.drop_literals assume_var ((var, par) :: items) variables var_queue =
    if decide (Some var = assume_var) then
      Cnf.drop_literals assume_var items variables var_queue
    else
      match Dict.get var variables with
      | None => (variables, var_queue, Some KeyError)
      | Some c =>
          let c' := lower par c in
          if decide (mine par c' = 0) then
            if decide (other par c' = 0) then
              Cnf.drop_literals assume_var items (Dict.remove var variables) var_queue
            else
              match Dict.get (Some var) var_queue with
              | None | Some VNone =>
                  Cnf.drop_literals assume_var items
                    (Dict.setitem var c' variables)
                    (Dict.setitem (Some var) (VBool (negb par)) var_queue)
              | Some queued =>
                  if py_eq queued (VBool par) then
                    (variables, var_queue, Some UnsatisfiedException)
                  else
                    Cnf.drop_literals assume_var items
                      (Dict.setitem var c' variables) var_queue
              end
          else
            Cnf.drop_literals assume_var items (Dict.setitem var c' variables) var_queue
      end.
Proof.
  simpl. case_decide; [done|].
  unfold Dict.delitem.
  destruct (Dict.get var variables) as [[n p]|] eqn:Hg; [|done].
  destruct par; simpl; repeat case_decide; try done; try lia.
Qed.

(** ** Shrinkage of the index and of the clause list *)

Lemma drop_literals_length assume_var items variables var_queue :
  let r := Cnf.drop_literals assume_var items variables var_queue in
  (length r.1.1 ≤ length variables)%nat ∧
  (length r.1.2 ≤ length var_queue + length items)%nat.
Proof.
  revert variables var_queue.
  induction items as [|[var par] items IH]; intros variables var_queue.
  { simpl. lia. }
  rewrite drop_literals_cons. cbv zeta.
  assert (∀ c, is_Some (Dict.get var variables) →
          length (Dict.setitem var c variables) = length variables) as Hset
    by (intros; by apply length_setitem_in).
  pose proof (length_remove var variables) as Hrem.
  pose proof (length_setitem (Some var) (VBool (negb par)) var_queue) as Hq.
  repeat first
    [ case_decide
    | match goal with
      | |- context [match Dict.get ?k ?d with _ => _ end] =>
          let E := fresh "E" in destruct (Dict.get k d) as [[]|] eqn:E
      | |- context [if py_eq ?a ?b then _ else _] => destruct (py_eq a b)
      | |- context [let '(_, _) := ?x in _] => destruct x
      end ];
    simpl length;
    try match goal with
    | |- context [Cnf.drop_literals ?a ?i ?v ?q] =>
        specialize (IH v q); simpl in IH;
        try rewrite Hset in IH by eauto
    end; simpl; try lia.
Qed.

Lemma length_clause_del assume_var items :
  (length (Cnf.clause_del assume_var items) ≤ length items)%nat.
Proof. destruct assume_var; simpl; [apply length_remove | lia]. Qed.

Lemma clause_del_shorter assume_var clause par :
  Cnf.clause_get assume_var clause = Some par →
  (length (Cnf.clause_del assume_var (Clause.variables clause))
     < length (Clause.variables clause))%nat.
Proof.
  destruct assume_var as [v|]; simpl; [|done].
  intros Hg. apply length_remove_in. eauto.
Qed.

Lemma literals_cons c cls :
  Cnf.literals (c :: cls) = (length (Clause.variables c) + Cnf.literals cls)%nat.
Proof. done. Qed.

Lemma literals_nil : Cnf.literals [] = 0%nat.
Proof. done. Qed.

#[local] Arguments Cnf.literals : simpl never.

Lemma scan_length assume_var assume_val cls variables var_queue :
  let r := Cnf.scan assume_var assume_val cls variables var_queue in
  (length (Cnf.index r) ≤ length variables)%nat ∧
  (length (Cnf.kept r) ≤ length cls)%nat ∧
  length (Cnf.old r) = length cls ∧
  (length (Cnf.queue r) ≤ length var_queue + Cnf.literals cls)%nat ∧
  (Cnf.literals (Cnf.kept r) ≤ Cnf.literals cls)%nat.
Proof.
  revert variables var_queue.
  induction cls as [|clause cls IH]; intros variables var_queue.
  { simpl. rewrite literals_nil. lia. }
  simpl. rewrite literals_cons.
  destruct (Cnf.clause_get assume_var clause) as [clause_var|] eqn:Hget.
  - destruct (py_eq (VBool clause_var) assume_val).
    + pose proof (drop_literals_length assume_var (Clause.variables clause)
                    variables var_queue) as Hd.
      destruct (Cnf.drop_literals _ _ _ _) as [[variables' var_queue'] [e|]];
        simpl in *.
      * rewrite literals_nil. lia.
      * specialize (IH variables' var_queue'). simpl in IH. lia.
    + pose proof (clause_del_shorter _ _ _ Hget) as Hlt.
      destruct (Cnf.clause_del assume_var (Clause.variables clause))
        as [|[var par] [|kv rest]] eqn:Hdel; simpl in *.
      * rewrite literals_nil. lia.
      * pose proof (length_setitem (Some var) (VBool par) var_queue) as Hq.
        destruct (Dict.get (Some var) var_queue) as [[]|];
          try destruct (negb _); simpl;
          try match goal with
          | |- context [Cnf.scan ?a ?b ?c ?v ?q] =>
              specialize (IH v q); simpl in IH
          end; rewrite ?literals_cons, ?literals_nil; simpl; lia.
      * specialize (IH variables var_queue). simpl in IH.
        rewrite ?literals_cons. simpl. lia.
  - specialize (IH variables var_queue). simpl in *.
    rewrite ?literals_cons. lia.
Qed.

Lemma del_assumed_Some assume_var variables variables' :
  Cnf.del_assumed assume_var variables = Some variables' →
  ∃ v, assume_var = Some v ∧ is_Some (Dict.get v variables) ∧
       variables' = Dict.remove v variables.
Proof.
  destruct assume_var as [v|]; simpl; [|done].
  intros [? ->]%delitem_Some. eauto.
Qed.

Lemma propagate_loop_shrinks fuel self var_queue assumptions :
  let r := Cnf.propagate_loop fuel self var_queue assumptions in
  (length (Cnf.clauses r.1) ≤ length (Cnf.clauses self))%nat ∧
  (length (Cnf.variables r.1) ≤ length (Cnf.variables self))%nat.
Proof.
  revert self var_queue assumptions.
  induction fuel as [|fuel IH]; intros self var_queue assumptions; simpl; [lia|].
  destruct (Dict.popitem var_queue) as [[[assume_var assume_val] rest]|];
    simpl; [|lia].
  destruct (Cnf.del_assumed assume_var (Cnf.variables self))
    as [variables'|] eqn:Hdel; [|apply IH].
  apply del_assumed_Some in Hdel as (v & -> & Hin & ->).
  pose proof (length_remove v (Cnf.variables self)) as Hrem.
  pose proof (scan_length (Some v) assume_val (Cnf.clauses self)
                (Dict.remove v (Cnf.variables self)) rest) as Hscan.
  simpl in Hscan. destruct Hscan as (Hi & Hk & Ho & _).
  destruct (Cnf.raised (Cnf.scan _ _ _ _ _)); simpl; [lia|].
  case_decide; simpl; [lia|].
  match goal with
  | |- context [Cnf.propagate_loop fuel ?s ?q ?a] => specialize (IH s q a)
  end.
  simpl in IH. lia.
Qed.

(** ** The loop of propagate ends *)

Lemma propagate_loop_ends fuel self var_queue assumptions :
  (length var_queue
     + length (Cnf.variables self) * S (Cnf.literals (Cnf.clauses self))
   < fuel)%nat →
  (Cnf.propagate_loop fuel self var_queue assumptions).2 ≠ Diverge.
Proof.
  revert self var_queue assumptions.
  induction fuel as [|fuel IH]; intros self var_queue assumptions Hfuel;
    [lia|].
  simpl.
  destruct (Dict.popitem var_queue) as [[[assume_var assume_val] rest]|] eqn:Hpop;
    [|done].
  apply popitem_Some in Hpop. subst var_queue.
  rewrite length_app in Hfuel. simpl in Hfuel.
  destruct (Cnf.del_assumed assume_var (Cnf.variables self))
    as [variables'|] eqn:Hdel.
  - apply del_assumed_Some in Hdel as (v & -> & Hin & ->).
    pose proof (length_remove_in v (Cnf.variables self) Hin) as Hrem.
    pose proof (scan_length (Some v) assume_val (Cnf.clauses self)
                  (Dict.remove v (Cnf.variables self)) rest) as Hscan.
    simpl in Hscan. destruct Hscan as (Hi & Hk & Ho & Hq & Hl).
    destruct (Cnf.raised (Cnf.scan _ _ _ _ _)); [done|].
    case_decide; [done|].
    apply IH. simpl.
    set (r := Cnf.scan _ _ _ _ _) in *.
    assert (length (Cnf.index r) * S (Cnf.literals (Cnf.kept r))
            ≤ (length (Cnf.variables self) - 1)
              * S (Cnf.literals (Cnf.clauses self)))%nat
      by (apply Nat.mul_le_mono; lia).
    nia.
  - apply IH. lia.
Qed.

Lemma propagate_ends self var_queue :
  (Cnf.propagate self var_queue).2 ≠ Diverge.
Proof. apply propagate_loop_ends. unfold Cnf.propagate_fuel. lia. Qed.

(** C7. Across one call of [propagate], whatever its outcome, neither the
    number of live clauses nor the number of variables in the occurrence
    index grows; and the call always ends. *)
Theorem propagate_shrinks self var_queue :
  let r := Cnf.propagate self var_queue in
  (length (Cnf.clauses r.1) ≤ length (Cnf.clauses self))%nat ∧
  (length (Cnf.variables r.1) ≤ length (Cnf.variables self))%nat ∧
  r.2 ≠ Diverge.
Proof.
  split_and!.
  - apply propagate_loop_shrinks.
  - apply propagate_loop_shrinks.
  - apply propagate_ends.
Qed.

(** ** Construction *)





Lemma keys_initial_index N var :
  var ∈ Dict.keys (map (λ j : Z, (j, (0, 0))) (seqZ 1 N)) ↔ 1 ≤ var ≤ N.
Proof.
  unfold Dict.keys. rewrite list_elem_of_fmap. split.
  - intros ([j c] & -> & Hin). apply list_elem_of_fmap in Hin as (i & [= -> _] & Hi).
    apply elem_of_seqZ in Hi. simpl. lia.
  - intros Hv. exists (var, (0, 0)). split; [done|].
    apply list_elem_of_fmap. exists var. split; [done|].
    apply elem_of_seqZ. lia.
Qed.



(** ** The heuristic *)

Lemma dynamic_largest_snoc variables var neg pos :
  Solver.dynamic_largest (variables ++ [(var, (neg, pos))]) =
    if decide (pos + neg > 0) then (Some var, VBool (bool_decide (pos > neg)))
    else Solver.dynamic_largest variables.
Proof. unfold Solver.dynamic_largest. by rewrite fold_left_app. Qed.

(** C5 fails on the code.  With clauses {1,2}, {1,3}, {-1,-2,-3} the index
    is 1:(1,2), 2:(1,1), 3:(1,1); variable 1 has the largest sum and more
    positive than negative occurrences, but [M] is never raised, so the
    last variable with a positive sum is returned: 3, guessed false. *)
Theorem dynamic_largest_returns_last :
  ∃ formula,
    Cnf.from_list (λ l, l)
      (map (Clause.from_list (λ l, l)) [[1; 2]; [1; 3]; [-1; -2; -3]]) 3
    = Return formula ∧
    Cnf.variables formula = [(1, (1, 2)); (2, (1, 1)); (3, (1, 1))] ∧
    Solver.dynamic_largest (Cnf.variables formula) = (Some 3, VBool false).
Proof. eexists. split_and!; reflexivity. Qed.

(** ** Pure literals *)

Lemma get_app {K V} `{EqDecision K} (k : K) (a b : dict K V) :
  Dict.get k (a ++ b) =
    match Dict.get k a with Some v => Some v | None => Dict.get k b end.
Proof.
  induction a as [|[k0 v0] a IH]; simpl; [done|]. by case_decide.
Qed.

Lemma pure_variables_snoc variables var n p :
  Solver.pure_variables (variables ++ [(var, (n, p))]) =
    if decide (p = 0) then
      Dict.setitem (Some var) (VBool false) (Solver.pure_variables variables)
    else if decide (n = 0) then
      Dict.setitem (Some var) (VBool true) (Solver.pure_variables variables)
    else Solver.pure_variables variables.
Proof. unfold Solver.pure_variables. by rewrite fold_left_app. Qed.

Lemma pure_variables_get variables var :
  NoDup (Dict.keys variables) →
  Dict.get (Some var) (Solver.pure_variables variables) =
    match Dict.get var variables with
    | Some (n, p) =>
        if decide (p = 0) then Some (VBool false)
        else if decide (n = 0) then Some (VBool true)
        else None
    | None => None
    end.
Proof.
  induction variables as [|[w [n p]] variables IH] using rev_ind; [done|].
  unfold Dict.keys. rewrite fmap_app. simpl.
  intros (Hnd & Hw & _)%NoDup_app.
  rewrite pure_variables_snoc, get_app. simpl.
  assert (w ∉ Dict.keys variables) as Hout by (intros ?; apply (Hw w); [done | left]).
  destruct (decide (var = w)) as [->|Hne].
  - apply get_None in Hout. rewrite Hout.
    repeat case_decide; rewrite ?get_setitem_eq; try done.
    rewrite IH, Hout; done.
  - assert (Some var ≠ Some w) by congruence.
    repeat case_decide; rewrite ?get_setitem_ne by done; rewrite IH by done;
      destruct (Dict.get var variables) as [[]|]; done.
Qed.

Lemma pure_variables_keys variables k :
  k ∈ Dict.keys (Solver.pure_variables variables) →
  ∃ var, k = Some var ∧ var ∈ Dict.keys variables.
Proof.
  induction variables as [|[w [n p]] variables IH] using rev_ind.
  { intros Hk. by apply elem_of_nil in Hk. }
  rewrite pure_variables_snoc. unfold Dict.keys at 2. rewrite fmap_app.
  setoid_rewrite elem_of_app. simpl.
  repeat case_decide; rewrite ?keys_setitem;
    try (intros [->|Hk]; [exists w; split; [done|]; right; left|]);
    try intros Hk; destruct (IH Hk) as (var & -> & ?); eauto.
Qed.

(** C6. The queue of pure variables is a function of the occurrence index
    at the entry of [solve] alone: a variable of the index is in it exactly
    when one of its counts is zero, with value false when it has no positive
    occurrence and true when it has no negative one; nothing else is in it.
    [solve] hands this queue to one call of [propagate] and only then enters
    [dpll], on the formula that call left. *)
Theorem pure_literal_pass formula :
  NoDup (Dict.keys (Cnf.variables formula)) →
  (∀ var,
     Dict.get (Some var) (Solver.pure_variables (Cnf.variables formula)) =
       match Dict.get var (Cnf.variables formula) with
       | Some (n, p) =>
           if decide (p = 0) then Some (VBool false)
           else if decide (n = 0) then Some (VBool true)
           else None
       | None => None
       end) ∧
  Dict.get None (Solver.pure_variables (Cnf.variables formula)) = None ∧
  Solver.solve formula =
    match Cnf.propagate formula
            (Solver.pure_variables (Cnf.variables formula)) with
    | (reduced, Return variables) =>
        match Solver.dpll reduced with
        | Return d => Return (Dict.merge d variables)
        | Raise UnsatisfiedException => Return Solver.unsat
        | r => r
        end
    | (_, Raise UnsatisfiedException) => Return Solver.unsat
    | (_, Raise e) => Raise e
    | (_, Diverge) => Diverge
    end.
Proof.
  intros Hnd. split_and!.
  - intros var. by apply pure_variables_get.
  - apply get_None. intros (var & [=] & _)%pure_variables_keys.
  - reflexivity.
Qed.

Lemma pure_literal_pass_witness :
  let formula := Cnf.mk [(1, (1, 2)); (2, (0, 1)); (3, (2, 0))] [] in
  Dict.get (Some 2) (Solver.pure_variables (Cnf.variables formula))
    = Some (VBool true) ∧
  Dict.get (Some 3) (Solver.pure_variables (Cnf.variables formula))
    = Some (VBool false) ∧
  Dict.get (Some 1) (Solver.pure_variables (Cnf.variables formula)) = None.
Proof.
  intros formula.
  assert (NoDup (Dict.keys (Cnf.variables formula))) as Hnd
    by (apply (bool_decide_unpack _); vm_compute; exact I).
  destruct (pure_literal_pass formula Hnd) as (Hget & _ & _).
  rewrite !Hget. done.
Defined.

(** ** Copies *)

Lemma clause_copy_eq (c : Clause.t) : Clause.__copy__ c = c.
Proof. destruct c as [items]. unfold Clause.__copy__. simpl. by rewrite map_id. Qed.

Lemma cnf_copy_eq (formula : Cnf.t) : Cnf.__copy__ formula = formula.
Proof.
  destruct formula as [variables clauses]. unfold Cnf.__copy__. simpl.
  rewrite map_id. f_equal. induction clauses as [|c cls IH]; simpl; [done|].
  by rewrite clause_copy_eq, IH.
Qed.

(** ** The search driver on a formula without live clauses *)

Lemma propagate_no_clauses formula k x :
  Cnf.clauses formula = [] →
  ∃ formula', Cnf.propagate formula [(k, x)] = (formula', Return [(k, x)]) ∧
              Cnf.clauses formula' = [].
Proof.
  intros Hcls. unfold Cnf.propagate, Cnf.propagate_fuel. simpl.
  destruct (Cnf.del_assumed k (Cnf.variables formula)) as [variables'|].
  - rewrite Hcls. simpl. eauto.
  - simpl. eauto.
Qed.

Lemma dpll_no_clauses formula reduced variables :
  Cnf.unit_propagate formula = (reduced, Return variables) →
  Cnf.clauses reduced = [] →
  Solver.dpll formula =
    Return (Dict.merge [Solver.dynamic_largest (Cnf.variables reduced)] variables).
Proof.
  intros Hunit Hcls. unfold Solver.dpll. simpl. rewrite Hunit.
  destruct (Solver.dynamic_largest (Cnf.variables reduced)) as [var assume].
  unfold Solver.branch. rewrite cnf_copy_eq.
  destruct (propagate_no_clauses reduced var assume Hcls) as (new & -> & Hnew).
  rewrite Hnew. simpl. done.
Qed.

(** C4, as the code has it.  When unit propagation leaves no live clause,
    [dpll] still asks the heuristic and propagates its answer on a copy; it
    returns the assignment of unit propagation merged over the single entry
    that the heuristic chose. *)
Theorem dpll_when_solved formula reduced variables :
  Cnf.unit_propagate formula = (reduced, Return variables) →
  Cnf.clauses reduced = [] →
  Solver.dpll formula =
    Return (Dict.merge [Solver.dynamic_largest (Cnf.variables reduced)] variables).
Proof. apply dpll_no_clauses. Qed.

Lemma dpll_when_solved_witness :
  Solver.dpll (Cnf.mk [(1, (0, 1))] [Clause.mk [(1, true)]]) =
    Return [(None, VNone); (Some 1, VBool true)].
Proof.
  apply (dpll_when_solved _ (Cnf.mk [] []) [(Some 1, VBool true)]);
    reflexivity.
Defined.

(** C4, as the claim has it, fails: on the empty formula unit propagation
    returns the empty assignment and [dpll] returns [{None: None}]. *)
Lemma dpll_adds_an_entry :
  ¬ (∀ formula reduced variables,
       Cnf.unit_propagate formula = (reduced, Return variables) →
       Cnf.clauses reduced = [] →
       Solver.dpll formula = Return variables).
Proof.
  intros Hall. by specialize (Hall (Cnf.mk [] []) (Cnf.mk [] []) [] eq_refl eq_refl).
Qed.

(** ** Counting literals *)

Lemma cnt_nil w pol : cnt w pol [] = 0.
Proof. done. Qed.

Lemma cnt_cons w pol e L :
  cnt w pol (e :: L) = (if decide (e = (w, pol)) then 1 else 0) + cnt w pol L.
Proof.
  unfold cnt. rewrite filter_cons. case_decide; simpl length; lia.
Qed.

Lemma cnt_app w pol L1 L2 : cnt w pol (L1 ++ L2) = cnt w pol L1 + cnt w pol L2.
Proof. unfold cnt. rewrite filter_app, length_app. lia. Qed.

Lemma cnt_nonneg w pol L : 0 ≤ cnt w pol L.
Proof. unfold cnt. lia. Qed.

Lemma cnt_pos w pol L : (w, pol) ∈ L ↔ 0 < cnt w pol L.
Proof.
  induction L as [|e L IH].
  - rewrite cnt_nil. split; [intros []%elem_of_nil | lia].
  - rewrite cnt_cons, elem_of_cons. pose proof (cnt_nonneg w pol L).
    case_decide; subst.
    + split; [lia | by left].
    + rewrite <- IH. split; [intros [?|?]; [congruence | done] | by right].
Qed.

Lemma cnt_zero w pol L : (w, pol) ∉ L ↔ cnt w pol L = 0.
Proof. rewrite cnt_pos. pose proof (cnt_nonneg w pol L). lia. Qed.

Lemma lits_app cls1 cls2 : lits (cls1 ++ cls2) = lits cls1 ++ lits cls2.
Proof.
  induction cls1 as [|c cls1 IH]; simpl; [done|]. by rewrite IH, app_assoc.
Qed.

Lemma elem_of_lits e cls :
  e ∈ lits cls ↔ ∃ c, c ∈ cls ∧ e ∈ Clause.variables c.
Proof.
  induction cls as [|c cls IH]; simpl.
  - split; [intros []%elem_of_nil | intros (c & []%elem_of_nil & _)].
  - rewrite elem_of_app, IH. split.
    + intros [?|(c' & ? & ?)]; [exists c | exists c']; split; auto; by constructor.
    + intros (c' & [->|?]%elem_of_cons & ?); eauto.
Qed.

Lemma cnt_items w pol items :
  NoDup (Dict.keys items) →
  cnt w pol items = if decide (Dict.get w items = Some pol) then 1 else 0.
Proof.
  intros Hnd. case_decide as Hg.
  - apply get_Some_elem_of in Hg.
    induction items as [|[k b] items IH]; [by apply elem_of_nil in Hg|].
    simpl in Hnd. apply NoDup_cons in Hnd as [Hk Hnd].
    rewrite cnt_cons. apply elem_of_cons in Hg as [Heq|Hin].
    + rewrite decide_True by done. injection Heq as <- <-.
      assert (cnt w pol items = 0) as ->; [|done].
      apply cnt_zero. intros Hin. apply Hk.
      by apply (list_elem_of_fmap_2 fst) in Hin.
    + rewrite decide_False, IH by
        (try done; intros [= -> ->]; apply Hk;
         by apply (list_elem_of_fmap_2 fst) in Hin).
      done.
  - apply cnt_zero. intros Hin. by apply elem_of_get in Hin.
Qed.

Lemma cnt_lits w pol cls :
  (∀ c, c ∈ cls → NoDup (Dict.keys (Clause.variables c))) →
  cnt w pol (lits cls) = occurrences w pol cls.
Proof.
  unfold occurrences. induction cls as [|c cls IH]; intros Hnd; [done|].
  simpl. rewrite cnt_app, IH, filter_cons, cnt_items
    by (try apply Hnd; try intros; try apply Hnd; by constructor).
  case_decide; simpl length; lia.
Qed.

(** ** Loop rules

    An invariant of the loop over the literals of a dropped clause, and of
    the loop over the clauses, is established case by case; [R] is what
    holds when the loop raises. *)

Section DropRule.
Context (assume_var : pykey).
Context (P : list (Z * bool) → dict Z (Z * Z) → dict pykey pyval → Prop).
Context (R : exn → Prop).

Hypothesis rule_skip : ∀ var par items idx q,
  Some var = assume_var → P ((var, par) :: items) idx q → P items idx q.
Hypothesis rule_missing : ∀ var par items idx q,
  Some var ≠ assume_var → P ((var, par) :: items) idx q →
  Dict.get var idx = None → R KeyError.
Hypothesis rule_remove : ∀ var par items idx q c,
  Some var ≠ assume_var → P ((var, par) :: items) idx q →
  Dict.get var idx = Some c →
  mine par (lower par c) = 0 → other par (lower par c) = 0 →
  P items (Dict.remove var idx) q.
Hypothesis rule_pure : ∀ var par items idx q c,
  Some var ≠ assume_var → P ((var, par) :: items) idx q →
  Dict.get var idx = Some c →
  mine par (lower par c) = 0 → other par (lower par c) ≠ 0 →
  Dict.get (Some var) q = None ∨ Dict.get (Some var) q = Some VNone →
  P items (Dict.setitem var (lower par c) idx)
    (Dict.setitem (Some var) (VBool (negb par)) q).
Hypothesis rule_clash : ∀ var par items idx q c queued,
  Some var ≠ assume_var → P ((var, par) :: items) idx q →
  Dict.get var idx = Some c →
  mine par (lower par c) = 0 → other par (lower par c) ≠ 0 →
  Dict.get (Some var) q = Some queued → py_eq queued (VBool par) = true →
  R UnsatisfiedException.
Hypothesis rule_lower : ∀ var par items idx q c,
  Some var ≠ assume_var → P ((var, par) :: items) idx q →
  Dict.get var idx = Some c →
  mine par (lower par c) ≠ 0
  ∨ (other par (lower par c) ≠ 0
     ∧ ∃ queued, Dict.get (Some var) q = Some queued
                 ∧ py_eq queued (VBool par) = false) →
  P items (Dict.setitem var (lower par c) idx) q.

Lemma drop_literals_rule items idx q :
  P items idx q →
  match Cnf.drop_literals assume_var items idx q with
  | (idx', q', None) => P [] idx' q'
  | (_, _, Some e) => R e
  end.
Proof using All.
  revert idx q. induction items as [|[var par] items IH]; intros idx q HP.
  { done. }
  rewrite drop_literals_cons. cbv zeta.
  case_decide as Hvar; [apply IH; by eauto|].
  destruct (Dict.get var idx) as [c|] eqn:Hidx; [|by eauto].
  case_decide as Hmine; [|apply IH; by eauto 10].
  case_decide as Hother; [apply IH; by eauto|].
  destruct (Dict.get (Some var) q) as [queued|] eqn:Hq; [|apply IH; by eauto 10].
  destruct (decide (queued = VNone)) as [->|Hqueued]; [apply IH; by eauto 10|].
  assert (∀ X Y : dict Z (Z * Z) * dict pykey pyval * option exn,
            match queued with
            | VNone => X
            | _ => Y
            end = Y) as -> by (intros; by destruct queued).
  destruct (py_eq queued (VBool par)) eqn:Heq; [by eauto|].
  apply IH. eapply rule_lower; eauto 10.
Qed.
End DropRule.

Section ScanRule.
Context (assume_var : pykey) (assume_val : pyval).
Context (P : list Clause.t → list Clause.t → dict Z (Z * Z) →
             dict pykey pyval → Prop).
Context (R : exn → Prop).

(** [P done todo idx q]: [done] are the clauses kept so far, [todo] the
    clauses still to visit. *)
Hypothesis rule_untouched : ∀ c done todo idx q,
  P done (c :: todo) idx q → Cnf.clause_get assume_var c = None →
  P (done ++ [c]) todo idx q.
Hypothesis rule_satisfied : ∀ c done todo idx q pol,
  P done (c :: todo) idx q → Cnf.clause_get assume_var c = Some pol →
  py_eq (VBool pol) assume_val = true →
  match Cnf.drop_literals assume_var (Clause.variables c) idx q with
  | (idx', q', None) => P done todo idx' q'
  | (_, _, Some e) => R e
  end.
Hypothesis rule_empty : ∀ c done todo idx q pol,
  P done (c :: todo) idx q → Cnf.clause_get assume_var c = Some pol →
  py_eq (VBool pol) assume_val = false →
  Cnf.clause_del assume_var (Clause.variables c) = [] →
  R UnsatisfiedException.
Hypothesis rule_unit_new : ∀ c done todo idx q pol var par,
  P done (c :: todo) idx q → Cnf.clause_get assume_var c = Some pol →
  py_eq (VBool pol) assume_val = false →
  Cnf.clause_del assume_var (Clause.variables c) = [(var, par)] →
  Dict.get (Some var) q = None ∨ Dict.get (Some var) q = Some VNone →
  P done todo idx (Dict.setitem (Some var) (VBool par) q).
Hypothesis rule_unit_clash : ∀ c done todo idx q pol var par queued,
  P done (c :: todo) idx q → Cnf.clause_get assume_var c = Some pol →
  py_eq (VBool pol) assume_val = false →
  Cnf.clause_del assume_var (Clause.variables c) = [(var, par)] →
  Dict.get (Some var) q = Some queued → queued ≠ VNone →
  py_eq (VBool par) queued = false →
  R UnsatisfiedException.
Hypothesis rule_unit_old : ∀ c done todo idx q pol var par queued,
  P done (c :: todo) idx q → Cnf.clause_get assume_var c = Some pol →
  py_eq (VBool pol) assume_val = false →
  Cnf.clause_del assume_var (Clause.variables c) = [(var, par)] →
  Dict.get (Some var) q = Some queued → queued ≠ VNone →
  py_eq (VBool par) queued = true →
  P done todo idx q.
Hypothesis rule_shrunk : ∀ c done todo idx q pol e1 e2 rest,
  P done (c :: todo) idx q → Cnf.clause_get assume_var c = Some pol →
  py_eq (VBool pol) assume_val = false →
  Cnf.clause_del assume_var (Clause.variables c) = e1 :: e2 :: rest →
  P (done ++ [Clause.mk (e1 :: e2 :: rest)]) todo idx q.

Lemma scan_rule done cls idx q :
  P done cls idx q →
  let r := Cnf.scan assume_var assume_val cls idx q in
  match Cnf.raised r with
  | None => P (done ++ Cnf.kept r) [] (Cnf.index r) (Cnf.queue r)
  | Some e => R e
  end.
Proof using All.
  revert done idx q. induction cls as [|c cls IH]; intros done idx q HP.
  { simpl. by rewrite app_nil_r. }
  cbv zeta in IH. simpl.
  destruct (Cnf.clause_get assume_var c) as [pol|] eqn:Hget.
  - destruct (py_eq (VBool pol) assume_val) eqn:Hpol.
    + pose proof (rule_satisfied _ _ _ _ _ _ HP Hget Hpol) as Hdrop.
      destruct (Cnf.drop_literals _ _ _ _) as [[idx' q'] [e|]]; [done|].
      simpl. by apply IH.
    + destruct (Cnf.clause_del assume_var (Clause.variables c))
        as [|[var par] [|e2 rest]] eqn:Hdel; simpl.
      * eauto.
      * destruct (Dict.get (Some var) q) as [queued|] eqn:Hq.
        -- destruct (decide (queued = VNone)) as [->|Hqueued].
           { simpl. apply IH. eauto 10. }
           assert (∀ X Y : Cnf.pass,
                     match queued with
                     | VNone => X
                     | _ => Y
                     end = Y) as -> by (intros; by destruct queued).
           destruct (py_eq (VBool par) queued) eqn:Heq; simpl.
           ++ apply IH. eauto.
           ++ eauto.
        -- simpl. apply IH. eauto 10.
      * specialize (IH (done ++ [Clause.mk ((var, par) :: e2 :: rest)]) idx q).
        rewrite <- app_assoc in IH. apply IH. eauto.
  - specialize (IH (done ++ [c]) idx q). rewrite <- app_assoc in IH.
    simpl. apply IH. eauto.
Qed.
End ScanRule.

Section LoopRule.
Context (P : Cnf.t → dict pykey pyval → dict pykey pyval → Prop).
Context (Q : Cnf.t → result (dict pykey pyval) → Prop).

Hypothesis rule_exit : ∀ formula A, P formula [] A → Q formula (Return A).
Hypothesis rule_continue : ∀ formula q k val A,
  P formula (q ++ [(k, val)]) A →
  Cnf.del_assumed k (Cnf.variables formula) = None →
  P formula q (Dict.setitem k val A).
Hypothesis rule_pass : ∀ formula q v val A,
  P formula (q ++ [(Some v, val)]) A →
  is_Some (Dict.get v (Cnf.variables formula)) →
  let r := Cnf.scan (Some v) val (Cnf.clauses formula)
             (Dict.remove v (Cnf.variables formula)) q in
  match Cnf.raised r with
  | Some e => Q (Cnf.mk (Cnf.index r) (Cnf.old r)) (Raise e)
  | None =>
      if decide (length (Cnf.kept r) = 0%nat) then
        Q (Cnf.mk (Cnf.index r) (Cnf.kept r))
          (Return (Dict.merge (Dict.setitem (Some v) val A) (Cnf.queue r)))
      else
        P (Cnf.mk (Cnf.index r) (Cnf.kept r)) (Cnf.queue r)
          (Dict.setitem (Some v) val A)
  end.

Lemma propagate_loop_rule fuel formula q A :
  P formula q A →
  let r := Cnf.propagate_loop fuel formula q A in
  r.2 = Diverge ∨ Q r.1 r.2.
Proof using All.
  revert formula q A. induction fuel as [|fuel IH]; intros formula q A HP.
  { by left. }
  simpl.
  destruct (Dict.popitem q) as [[[k val] rest]|] eqn:Hpop.
  - apply popitem_Some in Hpop. subst q.
    destruct (Cnf.del_assumed k (Cnf.variables formula)) as [idx|] eqn:Hdel.
    + apply del_assumed_Some in Hdel as (v & -> & Hin & ->).
      pose proof (rule_pass _ _ _ _ _ HP Hin) as Hpass. cbv zeta in Hpass.
      destruct (Cnf.raised (Cnf.scan _ _ _ _ _)); [by right|].
      case_decide; [by right|]. by apply IH.
    + apply IH. eauto.
  - apply popitem_None in Hpop. subst q. right. by apply rule_exit.
Qed.
End LoopRule.

(** ** The counters through one call of propagate *)

Lemma counted_ext skip idx L L' :
  (∀ w pol, Some w ≠ skip → cnt w pol L = cnt w pol L') →
  counted skip idx L → counted skip idx L'.
Proof.
  intros Hext Hc w Hw. specialize (Hc w Hw).
  by rewrite <- !(Hext w _ Hw).
Qed.

Lemma counted_skip skip idx var par L :
  Some var = skip → counted skip idx ((var, par) :: L) → counted skip idx L.
Proof.
  intros <-. apply counted_ext. intros w pol Hw.
  rewrite cnt_cons, decide_False; [done | congruence].
Qed.

Lemma counted_get skip idx var par L :
  Some var ≠ skip → counted skip idx ((var, par) :: L) →
  ∃ c, Dict.get var idx = Some c ∧
       lower par c = (cnt var false L, cnt var true L).
Proof.
  intros Hvar Hc. specialize (Hc var Hvar). rewrite !cnt_cons in Hc.
  pose proof (cnt_nonneg var false L). pose proof (cnt_nonneg var true L).
  destruct (Dict.get var idx) as [c|].
  - exists c. split; [done|]. subst c.
    destruct par; unfold lower; simpl; f_equal;
      repeat case_decide; simplify_eq; lia.
  - destruct par; repeat case_decide; simplify_eq; lia.
Qed.

Lemma counted_setitem skip idx var par c L :
  Some var ≠ skip → counted skip idx ((var, par) :: L) →
  Dict.get var idx = Some c →
  counted skip (Dict.setitem var (lower par c) idx) L.
Proof.
  intros Hvar Hc Hget.
  destruct (counted_get _ _ _ _ _ Hvar Hc) as (c' & Hget' & Hlow).
  assert (c' = c) as -> by congruence.
  intros w Hw. rewrite get_setitem. case_decide as Hwv; [by subst|].
  specialize (Hc w Hw). rewrite !cnt_cons in Hc.
  rewrite !decide_False in Hc by congruence. done.
Qed.

Lemma counted_remove skip idx var par c L :
  Some var ≠ skip → counted skip idx ((var, par) :: L) →
  Dict.get var idx = Some c →
  mine par (lower par c) = 0 → other par (lower par c) = 0 →
  counted skip (Dict.remove var idx) L.
Proof.
  intros Hvar Hc Hget Hmine Hother.
  destruct (counted_get _ _ _ _ _ Hvar Hc) as (c' & Hget' & Hlow).
  assert (c' = c) as -> by congruence.
  intros w Hw. rewrite get_remove. case_decide as Hwv.
  - subst w. rewrite Hlow in *. destruct par; simpl in *; done.
  - specialize (Hc w Hw). rewrite !cnt_cons in Hc.
    rewrite !decide_False in Hc by congruence. done.
Qed.

Lemma drop_inv_skip v L ks var par items idx q :
  Some var = Some v → drop_inv v L ks ((var, par) :: items) idx q →
  drop_inv v L ks items idx q.
Proof.
  intros Hvar (Hc & Hv & Hnd & Hks).
  split_and!; try done. by eapply counted_skip.
Qed.

Lemma drop_inv_missing v L ks var par items idx q :
  Some var ≠ Some v → drop_inv v L ks ((var, par) :: items) idx q →
  Dict.get var idx ≠ None.
Proof.
  intros Hvar (Hc & Hv & Hnd & Hks) Hget.
  destruct (counted_get _ _ _ _ _ Hvar Hc) as (c & ? & _). congruence.
Qed.

Lemma drop_inv_remove v L ks var par items idx q c :
  Some var ≠ Some v → drop_inv v L ks ((var, par) :: items) idx q →
  Dict.get var idx = Some c →
  mine par (lower par c) = 0 → other par (lower par c) = 0 →
  drop_inv v L ks items (Dict.remove var idx) q.
Proof.
  intros Hvar (Hc & Hv & Hnd & Hks) Hget Hmine Hother.
  split_and!; try done.
  - by eapply counted_remove.
  - rewrite get_remove_ne; [done | congruence].
  - by apply NoDup_keys_remove.
Qed.

Lemma drop_inv_lower v L ks var par items idx q c :
  Some var ≠ Some v → drop_inv v L ks ((var, par) :: items) idx q →
  Dict.get var idx = Some c →
  drop_inv v L ks items (Dict.setitem var (lower par c) idx) q.
Proof.
  intros Hvar (Hc & Hv & Hnd & Hks) Hget.
  split_and!; try done.
  - by eapply counted_setitem.
  - rewrite get_setitem_ne; [done | congruence].
  - by apply NoDup_keys_setitem.
Qed.

Lemma drop_inv_enqueue v L ks items idx q k x :
  drop_inv v L ks items idx q →
  drop_inv v L ks items idx (Dict.setitem k x q).
Proof.
  intros (Hc & Hv & Hnd & Hks). split_and!; try done.
  intros k' Hk. apply keys_setitem. auto.
Qed.

Lemma drop_literals_counted v L ks items idx q :
  drop_inv v L ks items idx q →
  match Cnf.drop_literals (Some v) items idx q with
  | (idx', q', None) => drop_inv v L ks [] idx' q'
  | (_, _, Some e) => e = UnsatisfiedException
  end.
Proof.
  apply (drop_literals_rule (Some v) (drop_inv v L ks)
           (λ e, e = UnsatisfiedException)); clear.
  - intros. by eapply drop_inv_skip.
  - intros var par items idx q Hvar Hinv Hget.
    by destruct (drop_inv_missing _ _ _ _ _ _ _ _ Hvar Hinv).
  - intros. by eapply drop_inv_remove.
  - intros. apply drop_inv_enqueue. by eapply drop_inv_lower.
  - done.
  - intros. by eapply drop_inv_lower.
Qed.

Lemma cnt_remove u v pol items :
  u ≠ v → cnt u pol (Dict.remove v items) = cnt u pol items.
Proof.
  intros Huv. induction items as [|[k b] items IH]; simpl; [done|].
  case_decide; subst; rewrite !cnt_cons, ?IH; [|done].
  rewrite decide_False; [done | congruence].
Qed.

Lemma cnt_lits_middle w pol done c todo :
  cnt w pol (lits (done ++ c :: todo)) =
    cnt w pol (Clause.variables c) + cnt w pol (lits (done ++ todo)).
Proof. rewrite !lits_app. simpl. rewrite !cnt_app. lia. Qed.

Lemma elem_of_remove {K V} `{EqDecision K} (k : K) (d : dict K V) e :
  e ∈ Dict.remove k d ↔ e ∈ d ∧ e.1 ≠ k.
Proof.
  induction d as [|[k0 v0] d IH]; simpl.
  - split; [intros []%elem_of_nil | intros [[]%elem_of_nil _]].
  - case_decide; subst; rewrite ?elem_of_cons, IH.
    + split; [tauto|]. intros [[->|?] ?]; done.
    + split; [|tauto]. intros [->|[? ?]]; auto.
Qed.

Lemma scan_inv_untouched v pending c done todo idx q :
  scan_inv v pending done (c :: todo) idx q →
  Dict.get v (Clause.variables c) = None →
  scan_inv v pending (done ++ [c]) todo idx q.
Proof.
  intros (Hc & Hv & Hnd & Hp & Hdone & Hcls) Hget.
  unfold scan_inv. rewrite <- app_assoc. simpl. split_and!; try done.
  intros c' [? | ->%list_elem_of_singleton]%elem_of_app; auto.
Qed.

Lemma scan_inv_satisfied v pending c done todo idx q :
  scan_inv v pending done (c :: todo) idx q →
  match Cnf.drop_literals (Some v) (Clause.variables c) idx q with
  | (idx', q', None) =>
      scan_inv v pending done todo idx' q' ∧
      ∀ k, k ∈ Dict.keys q → k ∈ Dict.keys q'
  | (_, _, Some e) => e = UnsatisfiedException
  end.
Proof.
  intros (Hc & Hv & Hnd & Hp & Hdone & Hcls).
  pose proof (drop_literals_counted v (lits (done ++ todo) ++ pending)
                (Dict.keys q) (Clause.variables c) idx q) as Hdrop.
  destruct (Cnf.drop_literals _ _ _ _) as [[idx' q'] [e|]].
  - apply Hdrop. split_and!; try done.
    eapply counted_ext; [|done]. intros w pol _.
    rewrite !cnt_app, cnt_lits_middle. lia.
  - destruct Hdrop as (Hc' & Hv' & Hnd' & Hks).
    { split_and!; try done. eapply counted_ext; [|done]. intros w pol _.
      rewrite !cnt_app, cnt_lits_middle. lia. }
    split; [|done]. split_and!; try done.
    + intros w b Hin. destruct (Hp w b Hin). auto.
    + intros c' Hin. apply Hcls. rewrite elem_of_app in *.
      destruct Hin; [by left | right; by right].
Qed.

Lemma scan_inv_unit v pending c done todo idx q q' w par :
  scan_inv v pending done (c :: todo) idx q →
  Dict.remove v (Clause.variables c) = [(w, par)] →
  Some w ∈ Dict.keys q' →
  (∀ k, k ∈ Dict.keys q → k ∈ Dict.keys q') →
  scan_inv v ((w, par) :: pending) done todo idx q'.
Proof.
  intros (Hc & Hv & Hnd & Hp & Hdone & Hcls) Hdel Hw Hmono.
  assert (w ≠ v) as Hwv.
  { assert ((w, par) ∈ Dict.remove v (Clause.variables c)) as Hin
      by (rewrite Hdel; left).
    apply elem_of_remove in Hin as [_ ?]. done. }
  split_and!; try done.
  - eapply counted_ext; [|done]. intros u pol Hu.
    assert (u ≠ v) by congruence.
    rewrite !cnt_app, cnt_lits_middle, (cnt_cons _ _ (w, par)).
    rewrite <- (cnt_remove u v) by done. rewrite Hdel, cnt_cons, cnt_nil. lia.
  - intros u b [ [= -> ->] | Hin]%elem_of_cons; [done|].
    destruct (Hp u b Hin). auto.
  - intros c' Hin. apply Hcls. rewrite elem_of_app in *.
    destruct Hin; [by left | right; by right].
Qed.

Lemma scan_inv_shrunk v pending c done todo idx q :
  scan_inv v pending done (c :: todo) idx q →
  scan_inv v pending
    (done ++ [Clause.mk (Dict.remove v (Clause.variables c))]) todo idx q.
Proof.
  intros (Hc & Hv & Hnd & Hp & Hdone & Hcls).
  unfold scan_inv. rewrite <- app_assoc. simpl. split_and!; try done.
  - eapply counted_ext; [|done]. intros u pol Hu.
    assert (u ≠ v) by congruence.
    rewrite !cnt_app, !cnt_lits_middle. simpl. by rewrite cnt_remove.
  - intros c' [? | ->%list_elem_of_singleton]%elem_of_app; [auto|].
    simpl. apply get_remove_eq.
  - intros c' Hin. rewrite elem_of_app, elem_of_cons in Hin.
    destruct Hin as [?|[->|?]].
    + apply Hcls, elem_of_app. by left.
    + simpl. apply NoDup_keys_remove, Hcls, elem_of_app. right. left.
    + apply Hcls, elem_of_app. right. by right.
Qed.

(** One pass over the clauses keeps the counters right and never looks up a
    variable that the index has lost. *)
Lemma scan_counted v val pending cls idx q :
  scan_inv v pending [] cls idx q →
  let r := Cnf.scan (Some v) val cls idx q in
  match Cnf.raised r with
  | None => ∃ pending', scan_inv v pending' (Cnf.kept r) [] (Cnf.index r) (Cnf.queue r)
  | Some e => e = UnsatisfiedException
  end.
Proof.
  intros Hinv.
  apply (scan_rule (Some v) val
           (λ done todo idx q, ∃ pending, scan_inv v pending done todo idx q)
           (λ e, e = UnsatisfiedException) ) with (done := []);
    [..|by eauto]; clear.
  - intros c done todo idx q [pending Hinv] Hget.
    exists pending. by apply scan_inv_untouched.
  - intros c done todo idx q pol [pending Hinv] _ _.
    pose proof (scan_inv_satisfied _ _ _ _ _ _ _ Hinv) as Hdrop.
    destruct (Cnf.drop_literals _ _ _ _) as [[idx' q'] [e|]]; [done|].
    exists pending. apply Hdrop.
  - done.
  - intros c done todo idx q pol var par [pending Hinv] _ _ Hdel _.
    exists ((var, par) :: pending). eapply scan_inv_unit; [done..| |].
    + apply keys_setitem. by left.
    + intros k Hk. apply keys_setitem. by right.
  - done.
  - intros c done todo idx q pol var par queued [pending Hinv] _ _ Hdel Hq _ _.
    exists ((var, par) :: pending). eapply scan_inv_unit; [done..| |done].
    apply get_is_Some_keys. eauto.
  - intros c done todo idx q pol e1 e2 rest [pending Hinv] _ _ Hdel.
    exists pending. simpl in Hdel. rewrite <- Hdel.
    by apply scan_inv_shrunk.
Qed.

Lemma cnt_filter_var w v pol L :
  cnt w pol (filter (λ e : Z * bool, e.1 ≠ v) L) =
    if decide (w = v) then 0 else cnt w pol L.
Proof.
  induction L as [|[k b] L IH]; [by case_decide|].
  rewrite filter_cons. simpl.
  destruct (decide (k ≠ v)) as [Hk|Hk]; rewrite ?cnt_cons, IH.
  - case_decide; [|done]. rewrite decide_False; [done | congruence].
  - apply dec_stable in Hk. subst k. case_decide; [done|].
    rewrite decide_False; [done | congruence].
Qed.

Lemma loop_inv_enter pending formula q v val :
  loop_inv pending formula (q ++ [(Some v, val)]) →
  scan_inv v (filter (λ e : Z * bool, e.1 ≠ v) pending) [] (Cnf.clauses formula)
    (Dict.remove v (Cnf.variables formula)) q.
Proof.
  intros (Hc & [Hnd Hcls] & Hp). split_and!.
  - intros w Hw. assert (w ≠ v) by congruence.
    rewrite get_remove_ne by done. specialize (Hc w).
    simpl. rewrite !cnt_app, !cnt_filter_var, !decide_False by done.
    rewrite !cnt_app in Hc. by apply Hc.
  - apply get_remove_eq.
  - by apply NoDup_keys_remove.
  - intros w b [Hw Hin]%list_elem_of_filter. simpl in Hw. split; [done|].
    apply Hp in Hin. unfold Dict.keys in Hin.
    rewrite fmap_app, elem_of_app in Hin. destruct Hin as [?|Hin]; [done|].
    apply list_elem_of_singleton in Hin. simpl in Hin. congruence.
  - intros c []%elem_of_nil.
  - done.
Qed.

Lemma scan_inv_leave v pending kept idx q :
  scan_inv v pending kept [] idx q → loop_inv pending (Cnf.mk idx kept) q.
Proof.
  unfold scan_inv. rewrite app_nil_r. intros (Hc & Hv & Hnd & Hp & Hdone & Hcls).
  split_and!.
  - intros w _. simpl. destruct (decide (w = v)) as [->|Hwv].
    + rewrite Hv. split; apply cnt_zero;
        intros [(c & Hin & Hlit)%elem_of_lits|Hin]%elem_of_app;
        try (by destruct (Hp _ _ Hin));
        apply Hdone in Hin; apply get_None in Hin; apply Hin;
        by apply (list_elem_of_fmap_2 fst) in Hlit.
    + apply Hc. congruence.
  - by split.
  - intros w b Hin. by destruct (Hp w b Hin).
Qed.

Lemma loop_inv_continue pending formula q k val :
  loop_inv pending formula (q ++ [(k, val)]) →
  Cnf.del_assumed k (Cnf.variables formula) = None →
  loop_inv pending formula q.
Proof.
  intros (Hc & Hwf & Hp) Hdel. split_and!; try done.
  intros w b Hin. specialize (Hp w b Hin). unfold Dict.keys in Hp.
  rewrite fmap_app, elem_of_app in Hp. destruct Hp as [?|Hk]; [done|].
  apply list_elem_of_singleton in Hk. simpl in Hk. subst k.
  simpl in Hdel. apply delitem_None in Hdel.
  specialize (Hc w ltac:(done)). rewrite Hdel in Hc.
  assert (0 < cnt w b (lits (Cnf.clauses formula) ++ pending)).
  { apply cnt_pos, elem_of_app. by right. }
  destruct b; lia.
Qed.

Lemma loop_inv_exit pending formula :
  loop_inv pending formula [] →
  counted None (Cnf.variables formula) (lits (Cnf.clauses formula)).
Proof.
  intros (Hc & Hwf & Hp).
  destruct pending as [|[w b] pending]; [by rewrite app_nil_r in Hc|].
  specialize (Hp w b ltac:(left)). by apply elem_of_nil in Hp.
Qed.

(** After a call that returns, either no clause is left or the counters of
    the index are those of the live clauses. *)
Lemma propagate_loop_counted fuel pending formula q A :
  loop_inv pending formula q →
  let r := Cnf.propagate_loop fuel formula q A in
  match r.2 with
  | Return _ =>
      well_formed r.1 ∧
      (Cnf.clauses r.1 = [] ∨
       counted None (Cnf.variables r.1) (lits (Cnf.clauses r.1)))
  | Raise e => e = UnsatisfiedException
  | Diverge => True
  end.
Proof.
  intros Hinv.
  pose proof (propagate_loop_rule
    (λ formula q _, ∃ pending, loop_inv pending formula q)
    (λ formula r,
       match r with
       | Return _ =>
           well_formed formula ∧
           (Cnf.clauses formula = [] ∨
            counted None (Cnf.variables formula) (lits (Cnf.clauses formula)))
       | Raise e => e = UnsatisfiedException
       | Diverge => True
       end)) as Hrule.
  cbv zeta. edestruct Hrule as [->|Hq]; [..|by eauto| |]; try done; clear.
  - intros formula A [pending Hinv]. split; [apply Hinv|].
    right. by eapply loop_inv_exit.
  - intros formula q k val A [pending Hinv] Hdel. exists pending.
    by eapply loop_inv_continue.
  - intros formula q v val A [pending Hinv] Hin.
    apply (loop_inv_enter _ _ _ _ val) in Hinv.
    pose proof (scan_counted v val _ _ _ _ Hinv) as Hscan. cbv zeta in *.
    destruct (Cnf.raised (Cnf.scan _ _ _ _ _)); [done|].
    destruct Hscan as [pending' Hscan]. apply scan_inv_leave in Hscan.
    case_decide as Hlen.
    + split; [apply Hscan|]. left. by apply nil_length_inv.
    + eauto.
Qed.

Lemma index_invariant_counted formula :
  well_formed formula →
  index_invariant formula ↔
  counted None (Cnf.variables formula) (lits (Cnf.clauses formula)).
Proof.
  intros [Hnd Hcls]. split.
  - intros [Hcounts Habsent] w _.
    destruct (Dict.get w (Cnf.variables formula)) as [[n p]|] eqn:Hget.
    + rewrite !cnt_lits by done. destruct (Hcounts w n p Hget). congruence.
    + split; apply cnt_zero; intros (c & Hin & Hlit)%elem_of_lits;
        specialize (Habsent w c Hget Hin); apply get_None in Habsent;
        apply Habsent; by apply (list_elem_of_fmap_2 fst) in Hlit.
  - intros Hc. split.
    + intros w n p Hget. specialize (Hc w ltac:(done)). rewrite Hget in Hc.
      rewrite !cnt_lits in Hc by done. by injection Hc as -> ->.
    + intros w c Hget Hin. specialize (Hc w ltac:(done)). rewrite Hget in Hc.
      destruct (Dict.get w (Clause.variables c)) as [pol|] eqn:Hlit; [|done].
      apply get_Some_elem_of in Hlit.
      assert (0 < cnt w pol (lits (Cnf.clauses formula))).
      { apply cnt_pos, elem_of_lits. eauto. }
      destruct pol; lia.
Qed.

Lemma propagate_loop_solved fuel formula q A :
  NoDup (Dict.keys (Cnf.variables formula)) → Cnf.clauses formula = [] →
  let r := Cnf.propagate_loop fuel formula q A in
  NoDup (Dict.keys (Cnf.variables r.1)) ∧ Cnf.clauses r.1 = [].
Proof.
  revert formula q A. induction fuel as [|fuel IH];
    intros formula q A Hnd Hcls; simpl; [done|].
  destruct (Dict.popitem q) as [[[k val] rest]|]; [|done].
  destruct (Cnf.del_assumed k (Cnf.variables formula)) as [idx|] eqn:Hdel;
    [|by apply IH].
  apply del_assumed_Some in Hdel as (v & -> & _ & ->).
  rewrite Hcls. simpl. split; [|done]. by apply NoDup_keys_remove.
Qed.

Lemma propagate_counted formula q formula' A :
  well_formed formula →
  Cnf.clauses formula = [] ∨
    counted None (Cnf.variables formula) (lits (Cnf.clauses formula)) →
  Cnf.propagate formula q = (formula', Return A) →
  well_formed formula' ∧
  (Cnf.clauses formula' = [] ∨
   counted None (Cnf.variables formula') (lits (Cnf.clauses formula'))).
Proof.
  intros Hwf [Hcls|Hc] Hprop; unfold Cnf.propagate in Hprop.
  - pose proof (propagate_loop_solved (Cnf.propagate_fuel formula q) formula q []
                  (wf_index _ Hwf) Hcls) as Hsolved.
    rewrite Hprop in Hsolved. simpl in Hsolved. destruct Hsolved as [Hnd Hcls'].
    split; [|by left]. split; [done|]. rewrite Hcls'. intros c []%elem_of_nil.
  - pose proof (propagate_loop_counted (Cnf.propagate_fuel formula q) []
                  formula q []) as Hloop.
    rewrite Hprop in Hloop. apply Hloop. split_and!; try done.
    + by rewrite app_nil_r.
    + intros w b []%elem_of_nil.
Qed.

(** C3, as the code has it.  Through any sequence of [propagate] calls that
    return, a variable absent from the index appears in no live clause, and
    as long as a live clause is left the stored counts are the numbers of
    live clauses that hold the variable with each polarity.  (When the last
    clause goes the call returns at once and queued variables stay in the
    index with the counts they had.) *)
Theorem index_invariant_preserved formula queues formula' :
  well_formed formula → index_invariant formula →
  propagate_all formula queues = Some formula' →
  (∀ w c, Dict.get w (Cnf.variables formula') = None →
          c ∈ Cnf.clauses formula' →
          Dict.get w (Clause.variables c) = None) ∧
  (Cnf.clauses formula' ≠ [] → index_invariant formula').
Proof.
  intros Hwf Hinv Hall.
  assert (well_formed formula' ∧
          (Cnf.clauses formula' = [] ∨
           counted None (Cnf.variables formula') (lits (Cnf.clauses formula'))))
    as [Hwf' Hc'].
  { apply index_invariant_counted in Hinv; [|done].
    assert (Cnf.clauses formula = [] ∨
            counted None (Cnf.variables formula) (lits (Cnf.clauses formula)))
      as Hc by auto.
    clear Hinv. revert formula Hwf Hc Hall.
    induction queues as [|q queues IH]; intros formula Hwf Hc; simpl.
    { by intros [= <-]. }
    destruct (Cnf.propagate formula q) as [formula1 [A|e|]] eqn:Hprop; try done.
    destruct (propagate_counted _ _ _ _ Hwf Hc Hprop). by apply IH. }
  destruct Hc' as [Hnil|Hc'].
  - rewrite Hnil. split; [|done]. intros w c _ []%elem_of_nil.
  - apply index_invariant_counted in Hc'; [|done]. split; [|done].
    apply Hc'.
Qed.

(** Checking the invariant of a given formula: every variable of the index
    and of the clauses is one of finitely many. *)
Ltac check_index_invariant :=
  split;
  [ intros w n p Hget; simpl in Hget;
    repeat (case_decide; simplify_eq); try done; vm_compute; done
  | intros w c Hget Hin; simpl in Hget, Hin;
    repeat (case_decide; simplify_eq); try done;
    repeat (apply elem_of_cons in Hin as [->|Hin]; [simpl; by rewrite ?decide_False by done|]);
    by apply elem_of_nil in Hin ].

Ltac check_well_formed :=
  split;
  [ apply (bool_decide_unpack _); vm_compute; exact I
  | intros c Hin; simpl in Hin;
    repeat (apply elem_of_cons in Hin as [->|Hin];
            [apply (bool_decide_unpack _); vm_compute; exact I|]);
    by apply elem_of_nil in Hin ].

Lemma index_invariant_preserved_witness :
  index_invariant (Cnf.mk [(3, (0, 1))] [Clause.mk [(3, true)]]).
Proof.
  apply (index_invariant_preserved
           (Cnf.mk [(1, (1, 0)); (2, (0, 1)); (3, (0, 1))]
              [Clause.mk [(1, false); (2, true)]; Clause.mk [(3, true)]])
           [[(Some 1, VBool true)]]).
  - check_well_formed.
  - check_index_invariant.
  - reflexivity.
  - done.
Defined.

(** C3, as the claim has it, fails.  On the formula with the single clause
    {-1, 2}, propagating 1 = true deletes the literal -1, queues 2 = true
    for the unit clause that is left and drops that clause; no clause is
    left, the call returns, and the index still holds variable 2 with one
    positive occurrence. *)
Lemma index_invariant_stale :
  ¬ (∀ formula queues formula',
       well_formed formula → index_invariant formula →
       propagate_all formula queues = Some formula' →
       index_invariant formula').
Proof.
  intros Hall.
  specialize (Hall (Cnf.mk [(1, (1, 0)); (2, (0, 1))]
                      [Clause.mk [(1, false); (2, true)]])
                   [[(Some 1, VBool true)]]
                   (Cnf.mk [(2, (0, 1))] [])).
  destruct Hall as [Hcounts _].
  - check_well_formed.
  - check_index_invariant.
  - reflexivity.
  - by destruct (Hcounts 2 0 1 eq_refl).
Qed.

(** ** Assignments through the loop over a dropped clause *)

Lemma typed_setitem q w b :
  typed q → typed (Dict.setitem (Some w) (VBool b) q).
Proof.
  intros Hq k x Hin.
  induction q as [|[k0 x0] q IH]; simpl in Hin.
  - apply list_elem_of_singleton in Hin as [= -> ->]. eauto.
  - case_decide; subst.
    + apply elem_of_cons in Hin as [[= -> ->]|Hin]; [eauto|].
      apply (Hq k x). by right.
    + apply elem_of_cons in Hin as [[= -> ->]|Hin].
      * apply (Hq k0 x0). left.
      * apply IH; [|done]. intros k' x' Hin'. apply (Hq k' x'). by right.
Qed.

Lemma typed_get q k x :
  typed q → Dict.get k q = Some x → ∃ w b, k = Some w ∧ x = VBool b.
Proof. intros Hq Hget. apply (Hq k x). by apply get_Some_elem_of. Qed.

Lemma final_setitem_fresh A q k y k' x :
  Dict.get k q = None → Dict.get k A = None →
  final A q k' = Some x → final A (Dict.setitem k y q) k' = Some x.
Proof.
  unfold final. intros Hq HA. rewrite get_setitem.
  case_decide; subst; [|done]. by rewrite Hq, HA.
Qed.

Lemma track_mono C0 live (m m' : pykey → option pyval) :
  (∀ k x, m k = Some x → m' k = Some x) → track C0 live m → track C0 live m'.
Proof.
  intros Hm Ht c0 Hin. destruct (Ht c0 Hin) as [(w & pol & ? & ?)|?]; [|by right].
  left. exists w, pol. auto.
Qed.

Lemma drop_inv_counts v L ks w par items idx q c :
  drop_inv v L ks ((w, par) :: items) idx q → w ≠ v →
  Dict.get w idx = Some c →
  mine par c = 1 + cnt w par (items ++ L) ∧
  mine par (lower par c) = cnt w par (items ++ L) ∧
  other par (lower par c) = cnt w (negb par) (items ++ L) ∧
  other par c = other par (lower par c).
Proof.
  intros (Hc & _) Hwv Hget.
  assert (Some w ≠ Some v) as Hw by congruence.
  change (counted (Some v) idx ((w, par) :: (items ++ L))) in Hc.
  destruct (counted_get _ _ _ _ _ Hw Hc) as (c' & Hget' & Hlow).
  assert (c' = c) as -> by congruence.
  destruct c as [n p].
  destruct par; unfold lower, mine, other in *;
    cbn [fst snd negb] in *; injection Hlow as Hn Hp; lia.
Qed.

Section SemDrop.
Context (v : Z) (b : bool) (A : dict pykey pyval) (C0 : list Clause.t).
Context (dom : pykey → Prop) (Sat0 : Prop).
Context (live : list Clause.t) (pending : list (Z * bool)).

Lemma sem_inv_remove w idx q :
  sem_inv v b A C0 dom Sat0 live pending idx q →
  sem_inv v b A C0 dom Sat0 live pending (Dict.remove w idx) q.
Proof.
  intros []. split; try done.
  - intros w' Hin. rewrite get_remove. case_decide; auto.
  - intros w' Hin. rewrite get_remove in Hin. case_decide; [|auto].
    by apply is_Some_None in Hin.
  - intros HS. destruct (sem_sat0 HS) as [Hj Hσ]. split; [|done].
    intros w' b' Hq c. rewrite get_remove. case_decide; [done|].
    by apply Hj.
Qed.

Lemma sem_inv_lower ks w par c items idx q :
  drop_inv v (lits live ++ pending) ks ((w, par) :: items) idx q → w ≠ v →
  Dict.get w idx = Some c →
  sem_inv v b A C0 dom Sat0 live pending idx q →
  sem_inv v b A C0 dom Sat0 live pending (Dict.setitem w (lower par c) idx) q.
Proof.
  intros Hdrop Hwv Hget [].
  destruct (drop_inv_counts _ _ _ _ _ _ _ _ _ Hdrop Hwv Hget)
    as (Hmine & Hmine' & Hother & Hother').
  pose proof (cnt_nonneg w par (items ++ (lits live ++ pending))).
  split; try done.
  - intros w' Hin. rewrite get_setitem. case_decide; subst; [|auto].
    apply sem_assigned0 in Hin. congruence.
  - intros w' Hin. rewrite get_setitem in Hin. case_decide; subst; eauto.
  - intros HS. destruct (sem_sat0 HS) as [Hj Hσ]. split; [|done].
    intros w' b' Hq c'. rewrite get_setitem. case_decide; [|by apply Hj].
    subst w'. intros [= <-]. destruct (Hj w b' Hq c Hget) as [Hz|?]; [|by right].
    left. destruct (decide (negb b' = par)) as [<-|Hne]; [lia|].
    assert (negb b' = negb par) as Heq by (destruct b', par; done).
    rewrite Heq in *. destruct par, c; simpl in *; done.
Qed.

Lemma sem_inv_pure ks w par c items idx q :
  drop_inv v (lits live ++ pending) ks ((w, par) :: items) idx q → w ≠ v →
  Dict.get w idx = Some c →
  mine par (lower par c) = 0 →
  Dict.get (Some w) q = None ∨ Dict.get (Some w) q = Some VNone →
  sem_inv v b A C0 dom Sat0 live pending idx q →
  sem_inv v b A C0 dom Sat0 live pending
    (Dict.setitem w (lower par c) idx)
    (Dict.setitem (Some w) (VBool (negb par)) q).
Proof.
  intros Hdrop Hwv Hget Hzero Hq Hsem.
  pose proof (sem_inv_lower _ _ _ _ _ _ _ Hdrop Hwv Hget Hsem) as [].
  destruct (drop_inv_counts _ _ _ _ _ _ _ _ _ Hdrop Hwv Hget)
    as (Hmine & Hmine' & Hother & Hother').
  destruct Hq as [Hq|Hq];
    [|by destruct (typed_get _ _ _ sem_typed0 Hq) as (? & ? & _ & [=])].
  assert (Dict.get (Some w) A = None) as HA.
  { apply get_None. intros Hin. apply (sem_assigned _ _ _ _ _ _ _ _ _ _ Hsem) in Hin.
    congruence. }
  assert ((w, par) ∉ lits live) as Hfree.
  { intros Hin. assert (0 < cnt w par (items ++ lits live ++ pending)); [|lia].
    apply cnt_pos. rewrite !elem_of_app. auto. }
  split.
  - by apply typed_setitem.
  - by apply NoDup_keys_setitem.
  - rewrite keys_setitem. intros [[=]|?]; done.
  - done.
  - intros k [->|?]%keys_setitem; [|auto]. apply sem_index0.
    rewrite get_setitem_eq. eauto.
  - done.
  - eapply track_mono; [|done]. intros k x. by apply final_setitem_fresh.
  - intros w' b' Hin. rewrite get_setitem. case_decide as Hk; [|auto].
    injection Hk as ->. apply sem_pending0 in Hin. congruence.
  - intros HS. destruct (sem_sat0 HS) as [Hj (σ & Hv & Hmodels & Hagrees)]. split.
    + intros w' b' Hq'. rewrite get_setitem in Hq'. case_decide as Hk; [|auto].
      injection Hk as ->. injection Hq' as <-.
      intros c'. rewrite get_setitem_eq. intros [= <-].
      left. by rewrite negb_involutive.
    + exists (λ u, if decide (u = w) then negb par else σ u). split_and!.
      * by rewrite decide_False.
      * intros c' Hin. destruct (Hmodels c' Hin) as (u & pol & Hlit & Hσ).
        destruct (decide (u = w)) as [->|Hu].
        -- exists w, (negb par). rewrite decide_True by done. split; [|done].
           destruct (decide (pol = par)) as [->|Hpol].
           ++ destruct Hfree. apply elem_of_lits. eauto.
           ++ by assert (negb par = pol) as -> by (destruct pol, par; done).
        -- exists u, pol. by rewrite decide_False.
      * intros u bu. rewrite get_setitem. case_decide as Hk.
        -- injection Hk as ->. intros [= <-]. by rewrite decide_True.
        -- intros Hu. rewrite decide_False by congruence. auto.
Qed.

Lemma sem_inv_clash ks w par c items idx q queued :
  drop_inv v (lits live ++ pending) ks ((w, par) :: items) idx q → w ≠ v →
  Dict.get w idx = Some c →
  mine par (lower par c) = 0 → other par (lower par c) ≠ 0 →
  Dict.get (Some w) q = Some queued → py_eq queued (VBool par) = true →
  sem_inv v b A C0 dom Sat0 live pending idx q →
  ¬ Sat0.
Proof.
  intros Hdrop Hwv Hget Hzero Hother Hq Heq [] HS.
  destruct (drop_inv_counts _ _ _ _ _ _ _ _ _ Hdrop Hwv Hget)
    as (Hmine & Hmine' & Hother1 & Hother').
  destruct (typed_get _ _ _ sem_typed0 Hq) as (? & bq & _ & ->).
  assert (bq = par) as ->.
  { unfold py_eq in Heq. apply bool_decide_eq_true in Heq.
    destruct bq, par; simpl in Heq; congruence. }
  destruct (sem_sat0 HS) as [Hj _].
  destruct (Hj w par Hq c Hget) as [Hz|Hin].
  - destruct par, c; simpl in *; lia.
  - assert (0 < cnt w par (items ++ lits live ++ pending)); [|lia].
    apply cnt_pos. rewrite !elem_of_app. auto.
Qed.
End SemDrop.

Lemma drop_literals_sem v b A C0 dom Sat0 live pending ks items idx q :
  drop_inv v (lits live ++ pending) ks items idx q →
  sem_inv v b A C0 dom Sat0 live pending idx q →
  match Cnf.drop_literals (Some v) items idx q with
  | (idx', q', None) =>
      drop_inv v (lits live ++ pending) ks [] idx' q' ∧
      sem_inv v b A C0 dom Sat0 live pending idx' q'
  | (_, _, Some e) => e = UnsatisfiedException ∧ ¬ Sat0
  end.
Proof.
  intros Hdrop Hsem.
  apply (drop_literals_rule (Some v)
           (λ items idx q,
              drop_inv v (lits live ++ pending) ks items idx q ∧
              sem_inv v b A C0 dom Sat0 live pending idx q)
           (λ e, e = UnsatisfiedException ∧ ¬ Sat0)); [..|done]; clear.
  - intros var par items idx q Hvar [Hdrop Hsem].
    split; [by eapply drop_inv_skip | done].
  - intros var par items idx q Hvar [Hdrop Hsem] Hget.
    by destruct (drop_inv_missing _ _ _ _ _ _ _ _ Hvar Hdrop).
  - intros var par items idx q c Hvar [Hdrop Hsem] Hget Hmine Hother.
    split; [by eapply drop_inv_remove | by apply sem_inv_remove].
  - intros var par items idx q c Hvar [Hdrop Hsem] Hget Hmine Hother Hq.
    split.
    + apply drop_inv_enqueue. by eapply drop_inv_lower.
    + eapply sem_inv_pure; try done. congruence.
  - intros var par items idx q c queued Hvar [Hdrop Hsem] Hget Hmine Hother
      Hq Heq.
    split; [done|]. eapply sem_inv_clash; try done. congruence.
  - intros var par items idx q c Hvar [Hdrop Hsem] Hget _.
    split; [by eapply drop_inv_lower|].
    eapply sem_inv_lower; try done. congruence.
Qed.

(** ** Assignments through one pass over the clauses *)

Lemma py_eq_bool a b : py_eq (VBool a) (VBool b) = bool_decide (a = b).
Proof. unfold py_eq. destruct a, b; done. Qed.

Lemma scan_inv_drop v pending c done todo idx q :
  scan_inv v pending done (c :: todo) idx q →
  drop_inv v (lits (done ++ todo) ++ pending) (Dict.keys q)
    (Clause.variables c) idx q.
Proof.
  intros (Hc & Hv & Hnd & Hp & Hdone & Hcls). split_and!; try done.
  eapply counted_ext; [|done]. intros w pol _.
  rewrite !cnt_app, cnt_lits_middle. lia.
Qed.

Lemma drop_inv_scan v pending c done todo idx q idx' q' :
  scan_inv v pending done (c :: todo) idx q →
  drop_inv v (lits (done ++ todo) ++ pending) (Dict.keys q) [] idx' q' →
  scan_inv v pending done todo idx' q'.
Proof.
  intros (Hc & Hv & Hnd & Hp & Hdone & Hcls) (Hc' & Hv' & Hnd' & Hks).
  split_and!; try done.
  - intros w b Hin. destruct (Hp w b Hin). auto.
  - intros c' Hin. apply Hcls. rewrite elem_of_app in *.
    destruct Hin; [by left | right; by right].
Qed.

Lemma models_middle σ done c todo :
  models σ (done ++ c :: todo) → models σ (done ++ todo).
Proof.
  intros Hm c' Hin. apply Hm. rewrite elem_of_app in *.
  destruct Hin; [by left | right; by right].
Qed.

(** Under a model that gives [v] the value [b], a clause that holds [v]
    with the other polarity has a true literal which is not deleted. *)
Lemma shrunk_model σ v b done c todo pol :
  models σ (done ++ c :: todo) → σ v = b →
  NoDup (Dict.keys (Clause.variables c)) →
  Dict.get v (Clause.variables c) = Some pol → pol ≠ b →
  ∃ u pu, (u, pu) ∈ Dict.remove v (Clause.variables c) ∧ σ u = pu.
Proof.
  intros Hm Hv Hnd Hget Hpol.
  destruct (Hm c) as (u & pu & Hlit & Hu).
  { apply elem_of_app. right. left. }
  exists u, pu. split; [|done]. apply elem_of_remove. split; [done|].
  simpl. intros ->. apply elem_of_get in Hlit; [|done]. congruence.
Qed.

Section SemScan.
Context (v : Z) (b : bool) (A : dict pykey pyval) (C0 : list Clause.t).
Context (dom : pykey → Prop) (Sat0 : Prop).
Hypothesis assumed : Dict.get (Some v) A = Some (VBool b).

Lemma sem_inv_untouched pending c done todo idx q :
  sem_inv v b A C0 dom Sat0 (done ++ c :: todo) pending idx q →
  sem_inv v b A C0 dom Sat0 ((done ++ [c]) ++ todo) pending idx q.
Proof. by rewrite <- app_assoc. Qed.

Lemma sem_inv_satisfied pending c done todo idx q :
  Dict.get v (Clause.variables c) = Some b →
  sem_inv v b A C0 dom Sat0 (done ++ c :: todo) pending idx q →
  sem_inv v b A C0 dom Sat0 (done ++ todo) pending idx q.
Proof using assumed.
  intros Hget []. split; try done.
  - intros c0 Hin. destruct (sem_track0 c0 Hin) as [?|(c' & Hc' & Hsub)];
      [by left|].
    rewrite elem_of_app, elem_of_cons in Hc'.
    destruct Hc' as [?|[->|?]].
    + right. exists c'. rewrite elem_of_app. auto.
    + left. exists v, b. split; [by apply Hsub, get_Some_elem_of|].
      unfold final. apply get_None in sem_fresh0. by rewrite sem_fresh0.
    + right. exists c'. rewrite elem_of_app. auto.
  - intros HS. destruct (sem_sat0 HS) as [Hj (σ & ? & ? & ?)]. split; [done|].
    exists σ. split_and!; try done. by eapply models_middle.
Qed.

Lemma sem_inv_empty pending c done todo idx q pol :
  NoDup (Dict.keys (Clause.variables c)) →
  Dict.get v (Clause.variables c) = Some pol → pol ≠ b →
  Dict.remove v (Clause.variables c) = [] →
  sem_inv v b A C0 dom Sat0 (done ++ c :: todo) pending idx q →
  ¬ Sat0.
Proof.
  intros Hnd Hget Hpol Hdel [] HS.
  destruct (sem_sat0 HS) as [_ (σ & Hv & Hm & _)].
  destruct (shrunk_model _ _ _ _ _ _ _ Hm Hv Hnd Hget Hpol) as (u & pu & Hin & _).
  rewrite Hdel in Hin. by apply elem_of_nil in Hin.
Qed.

Lemma sem_inv_unit pending c done todo idx q q' pol w par :
  scan_inv v pending done (c :: todo) idx q →
  Dict.get v (Clause.variables c) = Some pol → pol ≠ b →
  Dict.remove v (Clause.variables c) = [(w, par)] →
  (q' = q ∧ Dict.get (Some w) q = Some (VBool par)) ∨
  (q' = Dict.setitem (Some w) (VBool par) q ∧ Dict.get (Some w) q = None) →
  sem_inv v b A C0 dom Sat0 (done ++ c :: todo) pending idx q →
  sem_inv v b A C0 dom Sat0 (done ++ todo) ((w, par) :: pending) idx q'.
Proof.
  intros Hscan Hget Hpol Hdel Hq' Hsem.
  pose proof Hsem as [].
  assert ((w, par) ∈ Clause.variables c ∧ w ≠ v) as [Hlit Hwv].
  { assert ((w, par) ∈ Dict.remove v (Clause.variables c)) as Hin
      by (rewrite Hdel; left).
    by apply elem_of_remove in Hin. }
  assert (NoDup (Dict.keys (Clause.variables c))) as Hnd.
  { destruct Hscan as (_ & _ & _ & _ & _ & Hcls). apply Hcls.
    apply elem_of_app. right. left. }
  assert (is_Some (Dict.get w idx)) as Hidx.
  { destruct Hscan as (Hc & _). specialize (Hc w ltac:(congruence)).
    destruct (Dict.get w idx); [done|].
    assert (0 < cnt w par (lits (done ++ c :: todo) ++ pending)).
    { apply cnt_pos. rewrite elem_of_app, elem_of_lits. left. exists c.
      split; [|done]. apply elem_of_app. right. left. }
    destruct par; lia. }
  assert (Dict.get (Some w) A = None) as HA.
  { apply get_None. intros Hin. apply sem_assigned0 in Hin.
    rewrite Hin in Hidx. by apply is_Some_None in Hidx. }
  assert (Dict.get (Some w) q' = Some (VBool par)) as Hw.
  { destruct Hq' as [[-> ?]|[-> ?]]; [done | apply get_setitem_eq]. }
  assert (∀ u bu, Dict.get (Some u) q' = Some (VBool bu) →
                  (u = w ∧ bu = par) ∨ Dict.get (Some u) q = Some (VBool bu))
    as Hold.
  { intros u bu. destruct Hq' as [[-> ?]|[-> ?]]; [by right|].
    rewrite get_setitem. case_decide as Hk; [|by right].
    injection Hk as ->. intros [= <-]. by left. }
  assert (∀ k x, final A q k = Some x → final A q' k = Some x) as Hmono.
  { intros k x. destruct Hq' as [[-> ?]|[-> ?]]; [done|].
    by apply final_setitem_fresh. }
  split.
  - destruct Hq' as [[-> ?]|[-> ?]]; [done | by apply typed_setitem].
  - destruct Hq' as [[-> ?]|[-> ?]]; [done | by apply NoDup_keys_setitem].
  - destruct Hq' as [[-> ?]|[-> ?]]; [done|].
    rewrite keys_setitem. intros [[=]|?]; done.
  - done.
  - destruct Hq' as [[-> ?]|[-> ?]]; [done|].
    intros k [->|?]%keys_setitem; auto.
  - done.
  - intros c0 Hin. destruct (sem_track0 c0 Hin) as [(u & pu & ? & ?)|(c' & Hc' & Hsub)].
    { left. exists u, pu. auto. }
    rewrite elem_of_app, elem_of_cons in Hc'.
    destruct Hc' as [?|[->|?]].
    + right. exists c'. rewrite elem_of_app. auto.
    + left. exists w, par. split; [by apply Hsub|].
      unfold final. by rewrite Hw.
    + right. exists c'. rewrite elem_of_app. auto.
  - intros u bu [[= -> ->]|Hin]%elem_of_cons; [done|].
    apply sem_pending0 in Hin.
    destruct Hq' as [[-> ?]|[-> ?]]; [done|].
    rewrite get_setitem_ne; [done | congruence].
  - intros HS. destruct (sem_sat0 HS) as [Hj (σ & Hv & Hm & Hagrees)]. split.
    + intros u bu Hu c'' Hc''. destruct (Hold u bu Hu) as [[-> ->]|Hu'].
      * right. left.
      * destruct (Hj u bu Hu' c'' Hc''); [by left | right; by right].
    + exists σ. split_and!; [done | by eapply models_middle |].
      intros u bu Hu. destruct (Hold u bu Hu) as [[-> ->]|Hu']; [|auto].
      destruct (shrunk_model _ _ _ _ _ _ _ Hm Hv Hnd Hget Hpol)
        as (u & pu & Hin & Hσ).
      rewrite Hdel in Hin. by apply list_elem_of_singleton in Hin as [= -> ->].
Qed.

Lemma sem_inv_unit_clash pending c done todo idx q pol w par queued :
  scan_inv v pending done (c :: todo) idx q →
  Dict.get v (Clause.variables c) = Some pol → pol ≠ b →
  Dict.remove v (Clause.variables c) = [(w, par)] →
  Dict.get (Some w) q = Some queued → py_eq (VBool par) queued = false →
  sem_inv v b A C0 dom Sat0 (done ++ c :: todo) pending idx q →
  ¬ Sat0.
Proof.
  intros Hscan Hget Hpol Hdel Hq Heq [] HS.
  destruct (sem_sat0 HS) as [_ (σ & Hv & Hm & Hagrees)].
  assert (NoDup (Dict.keys (Clause.variables c))) as Hnd.
  { destruct Hscan as (_ & _ & _ & _ & _ & Hcls). apply Hcls.
    apply elem_of_app. right. left. }
  destruct (shrunk_model _ _ _ _ _ _ _ Hm Hv Hnd Hget Hpol)
    as (u & pu & Hin & Hσ).
  rewrite Hdel in Hin. apply list_elem_of_singleton in Hin as [= -> ->].
  destruct (typed_get _ _ _ sem_typed0 Hq) as (? & bq & _ & ->).
  apply Hagrees in Hq. rewrite py_eq_bool in Heq.
  apply bool_decide_eq_false in Heq. congruence.
Qed.

Lemma sem_inv_shrunk pending c done todo idx q pol :
  scan_inv v pending done (c :: todo) idx q →
  Dict.get v (Clause.variables c) = Some pol → pol ≠ b →
  sem_inv v b A C0 dom Sat0 (done ++ c :: todo) pending idx q →
  sem_inv v b A C0 dom Sat0
    ((done ++ [Clause.mk (Dict.remove v (Clause.variables c))]) ++ todo)
    pending idx q.
Proof.
  intros Hscan Hget Hpol []. rewrite <- app_assoc. simpl.
  assert (NoDup (Dict.keys (Clause.variables c))) as Hnd.
  { destruct Hscan as (_ & _ & _ & _ & _ & Hcls). apply Hcls.
    apply elem_of_app. right. left. }
  split; try done.
  - intros c0 Hin. destruct (sem_track0 c0 Hin) as [?|(c' & Hc' & Hsub)];
      [by left|]. right.
    rewrite elem_of_app, elem_of_cons in Hc'.
    destruct Hc' as [?|[->|?]].
    + exists c'. rewrite elem_of_app. auto.
    + exists (Clause.mk (Dict.remove v (Clause.variables c))).
      split; [apply elem_of_app; right; left|].
      intros e He. simpl in He. apply elem_of_remove in He as [He _]. auto.
    + exists c'. rewrite elem_of_app, elem_of_cons. auto.
  - intros HS. destruct (sem_sat0 HS) as [Hj (σ & Hv & Hm & Hagrees)].
    split; [done|]. exists σ. split_and!; try done.
    intros c' Hc'. rewrite elem_of_app, elem_of_cons in Hc'.
    destruct Hc' as [?|[->|?]].
    + apply Hm. rewrite elem_of_app. auto.
    + simpl. eapply shrunk_model; done.
    + apply Hm. rewrite elem_of_app, elem_of_cons. auto.
Qed.
End SemScan.

Lemma scan_sem v b A C0 dom Sat0 pending cls idx q :
  Dict.get (Some v) A = Some (VBool b) →
  scan_inv v pending [] cls idx q →
  sem_inv v b A C0 dom Sat0 cls pending idx q →
  let r := Cnf.scan (Some v) (VBool b) cls idx q in
  match Cnf.raised r with
  | None =>
      ∃ pending',
        scan_inv v pending' (Cnf.kept r) [] (Cnf.index r) (Cnf.queue r) ∧
        sem_inv v b A C0 dom Sat0 (Cnf.kept r) pending' (Cnf.index r) (Cnf.queue r)
  | Some e => e = UnsatisfiedException ∧ ¬ Sat0
  end.
Proof.
  intros HA Hscan Hsem.
  assert (let r := Cnf.scan (Some v) (VBool b) cls idx q in
          match Cnf.raised r with
          | None =>
              ∃ pending',
                scan_inv v pending' ([] ++ Cnf.kept r) [] (Cnf.index r) (Cnf.queue r) ∧
                sem_inv v b A C0 dom Sat0 (([] ++ Cnf.kept r) ++ []) pending'
                  (Cnf.index r) (Cnf.queue r)
          | Some e => e = UnsatisfiedException ∧ ¬ Sat0
          end) as Hgoal.
  2:{ cbv zeta in *. destruct (Cnf.raised _); [done|].
      destruct Hgoal as (pending' & ? & Hs). simpl in Hs.
      rewrite app_nil_r in Hs. eauto. }
  apply (scan_rule (Some v) (VBool b)
    (λ done todo idx q,
       ∃ pending, scan_inv v pending done todo idx q ∧
                  sem_inv v b A C0 dom Sat0 (done ++ todo) pending idx q)
    (λ e, e = UnsatisfiedException ∧ ¬ Sat0)); [..|by eauto];
    clear -HA; simpl Cnf.clause_get; simpl Cnf.clause_del.
  - intros c done todo idx q (pending & Hscan & Hsem) Hget.
    exists pending. split; [by apply scan_inv_untouched|].
    by apply sem_inv_untouched.
  - intros c done todo idx q pol (pending & Hscan & Hsem) Hget Hpol.
    rewrite py_eq_bool in Hpol. apply bool_decide_eq_true in Hpol. subst pol.
    apply sem_inv_satisfied in Hsem; [|done..].
    pose proof (drop_literals_sem _ _ _ _ _ _ _ _ _ _ _ _
                  (scan_inv_drop _ _ _ _ _ _ _ Hscan) Hsem) as Hdrop.
    destruct (Cnf.drop_literals _ _ _ _) as [[idx' q'] [e|]]; [done|].
    destruct Hdrop as [Hdrop Hsem']. exists pending.
    split; [by eapply drop_inv_scan | done].
  - intros c done todo idx q pol (pending & Hscan & Hsem) Hget Hpol Hdel.
    rewrite py_eq_bool in Hpol. apply bool_decide_eq_false in Hpol.
    split; [done|]. eapply sem_inv_empty; try done.
    destruct Hscan as (_ & _ & _ & _ & _ & Hcls). apply Hcls.
    apply elem_of_app. right. left.
  - intros c done todo idx q pol var par (pending & Hscan & Hsem) Hget Hpol
      Hdel Hq.
    rewrite py_eq_bool in Hpol. apply bool_decide_eq_false in Hpol.
    assert (Dict.get (Some var) q = None) as Hnone.
    { destruct Hq as [?|Hq]; [done|].
      by destruct (typed_get _ _ _ (sem_typed _ _ _ _ _ _ _ _ _ _ Hsem) Hq)
        as (? & ? & _ & [=]). }
    exists ((var, par) :: pending). split.
    + eapply scan_inv_unit; [done..| |].
      * apply keys_setitem. by left.
      * intros k Hk. apply keys_setitem. by right.
    + eapply sem_inv_unit; try done. by right.
  - intros c done todo idx q pol var par queued (pending & Hscan & Hsem) Hget
      Hpol Hdel Hq _ Heq.
    rewrite py_eq_bool in Hpol. apply bool_decide_eq_false in Hpol.
    split; [done|]. by eapply sem_inv_unit_clash.
  - intros c done todo idx q pol var par queued (pending & Hscan & Hsem) Hget
      Hpol Hdel Hq _ Heq.
    rewrite py_eq_bool in Hpol. apply bool_decide_eq_false in Hpol.
    destruct (typed_get _ _ _ (sem_typed _ _ _ _ _ _ _ _ _ _ Hsem) Hq)
      as (? & bq & _ & ->).
    rewrite py_eq_bool in Heq. apply bool_decide_eq_true in Heq. subst bq.
    exists ((var, par) :: pending). split.
    + eapply scan_inv_unit; [done..| |done].
      apply get_is_Some_keys. eauto.
    + eapply sem_inv_unit; try done. by left.
  - intros c done todo idx q pol e1 e2 rest (pending & Hscan & Hsem) Hget
      Hpol Hdel.
    rewrite py_eq_bool in Hpol. apply bool_decide_eq_false in Hpol.
    exists pending. rewrite <- Hdel. split; [by apply scan_inv_shrunk|].
    by eapply sem_inv_shrunk.
Qed.

(** ** Assignments through the loop of propagate *)

Lemma typed_nil : typed [].
Proof. intros k x []%elem_of_nil. Qed.

Lemma typed_merge a b : typed a → typed b → typed (Dict.merge a b).
Proof.
  intros Ha Hb. induction b as [|[k x] b IH] using rev_ind; [done|].
  rewrite merge_snoc. simpl.
  destruct (Hb k x) as (w & bw & -> & ->).
  { apply elem_of_app. right. left. }
  apply typed_setitem, IH. intros k' x' Hin. apply (Hb k' x').
  apply elem_of_app. by left.
Qed.

Lemma typed_app_l (a b : dict pykey pyval) : typed (a ++ b) → typed a.
Proof. intros H k x Hin. apply (H k x), elem_of_app. by left. Qed.

Lemma keys_snoc {K V} (d : dict K V) k x :
  Dict.keys (d ++ [(k, x)]) = Dict.keys d ++ [k].
Proof. unfold Dict.keys. by rewrite fmap_app. Qed.

Lemma NoDup_snoc_keys {K V} (d : dict K V) k x :
  NoDup (Dict.keys (d ++ [(k, x)])) → NoDup (Dict.keys d) ∧ k ∉ Dict.keys d.
Proof.
  rewrite keys_snoc. intros (Hd & Hk & _)%NoDup_app. split; [done|].
  intros Hin. apply (Hk k Hin). left.
Qed.

Lemma get_snoc {K V} `{EqDecision K} (d : dict K V) k x k' :
  Dict.get k' (d ++ [(k, x)]) =
    match Dict.get k' d with
    | Some y => Some y
    | None => if decide (k' = k) then Some x else None
    end.
Proof. rewrite get_app. simpl. done. Qed.

Lemma final_pop A q k x k' :
  k ∉ Dict.keys q →
  final (Dict.setitem k x A) q k' = final A (q ++ [(k, x)]) k'.
Proof.
  intros Hk. unfold final. rewrite get_snoc, get_setitem.
  destruct (Dict.get k' q) eqn:Hq; [done|].
  case_decide; [done|]. done.
Qed.

Lemma final_merge A q k :
  NoDup (Dict.keys q) → Dict.get k (Dict.merge A q) = final A q k.
Proof. intros. unfold final. by rewrite get_merge. Qed.

Lemma sem_loop_exit C0 dom Sat0 pending formula A :
  loop_inv pending formula [] →
  sem_loop C0 dom Sat0 pending formula [] A →
  propagate_post C0 dom Sat0 formula (Return A).
Proof.
  intros Hloop []. pose proof (loop_inv_exit _ _ Hloop) as Hc.
  destruct Hloop as (_ & Hwf & _).
  split_and!; try done.
  - right. split; [done|]. auto.
  - intros HS. destruct (sl_sat0 HS) as [_ (σ & ? & _)]. by exists σ.
Qed.

Lemma sem_loop_continue C0 dom Sat0 pending formula q k val A :
  loop_inv pending formula (q ++ [(k, val)]) →
  sem_loop C0 dom Sat0 pending formula (q ++ [(k, val)]) A →
  Cnf.del_assumed k (Cnf.variables formula) = None →
  sem_loop C0 dom Sat0 pending formula q (Dict.setitem k val A).
Proof.
  intros Hloop [] Hdel.
  destruct (sl_typed0 k val) as (w & b & -> & ->).
  { apply elem_of_app. right. left. }
  simpl in Hdel. apply delitem_None in Hdel.
  destruct (NoDup_snoc_keys _ _ _ sl_nodup0) as [Hnd Hfresh].
  split.
  - by eapply typed_app_l.
  - done.
  - by apply typed_setitem.
  - by apply NoDup_keys_setitem.
  - intros w' [[= ->]|?]%keys_setitem; auto.
  - intros k' Hk'. apply sl_keys0. rewrite keys_snoc, elem_of_app. by left.
  - intros k' [->|?]%keys_setitem; [|auto].
    apply sl_keys0. rewrite keys_snoc, elem_of_app. right. left.
  - done.
  - eapply track_mono; [|done]. intros k' x. by rewrite final_pop.
  - intros w' b' Hin. pose proof (sl_pending0 w' b' Hin) as Hq.
    rewrite get_snoc in Hq. destruct (Dict.get (Some w') q); [done|].
    case_decide as Hk; [|done]. injection Hk as ->.
    destruct Hloop as (Hc & _). specialize (Hc w ltac:(done)).
    rewrite Hdel in Hc.
    assert (0 < cnt w b' (lits (Cnf.clauses formula) ++ pending)).
    { apply cnt_pos, elem_of_app. by right. }
    destruct b'; lia.
  - intros HS. destruct (sl_sat0 HS) as [Hj (σ & Hm & Hagrees)]. split.
    + intros q' kv w' b' -> Hq'. eapply (Hj _ _ w' b' eq_refl).
      by rewrite get_app, Hq'.
    + exists σ. split; [done|]. intros w' b' Hq'. apply Hagrees.
      by rewrite get_snoc, Hq'.
Qed.

Lemma sem_loop_enter C0 dom Sat0 pending formula q v b A :
  sem_loop C0 dom Sat0 pending formula (q ++ [(Some v, VBool b)]) A →
  sem_inv v b (Dict.setitem (Some v) (VBool b) A) C0 dom Sat0
    (Cnf.clauses formula) (filter (λ e : Z * bool, e.1 ≠ v) pending)
    (Dict.remove v (Cnf.variables formula)) q.
Proof.
  intros [].
  destruct (NoDup_snoc_keys _ _ _ sl_nodup0) as [Hnd Hfresh].
  split.
  - by eapply typed_app_l.
  - done.
  - done.
  - intros w [[= ->]|?]%keys_setitem.
    + apply get_remove_eq.
    + rewrite get_remove. case_decide; auto.
  - intros k' Hk'. apply sl_keys0. rewrite keys_snoc, elem_of_app. by left.
  - intros w Hw. rewrite get_remove in Hw. case_decide; [|auto].
    by apply is_Some_None in Hw.
  - eapply track_mono; [|done]. intros k' x. by rewrite final_pop.
  - intros w b' [Hw Hin]%list_elem_of_filter. simpl in Hw.
    pose proof (sl_pending0 w b' Hin) as Hq. rewrite get_snoc in Hq.
    destruct (Dict.get (Some w) q); [done|].
    case_decide; [congruence | done].
  - intros HS. destruct (sl_sat0 HS) as [Hj (σ & Hm & Hagrees)]. split.
    + intros w b' Hq c. rewrite get_remove. case_decide as Hw; [done|].
      intros Hc. destruct (Hj _ _ w b' eq_refl Hq c Hc); [by left|].
      right. by apply list_elem_of_filter.
    + exists σ. split_and!; try done.
      * apply Hagrees. rewrite get_snoc.
        apply get_None in Hfresh. rewrite Hfresh. by rewrite decide_True.
      * intros w b' Hq. apply Hagrees. by rewrite get_snoc, Hq.
Qed.

Lemma sem_inv_leave C0 dom Sat0 v b A pending kept idx q :
  dom (Some v) → typed A → NoDup (Dict.keys A) →
  (∀ k, k ∈ Dict.keys A → dom k) →
  sem_inv v b (Dict.setitem (Some v) (VBool b) A) C0 dom Sat0 kept pending idx q →
  sem_loop C0 dom Sat0 pending (Cnf.mk idx kept) q
    (Dict.setitem (Some v) (VBool b) A).
Proof.
  intros Hv HtA HndA HkA []. split; try done.
  - by apply typed_setitem.
  - by apply NoDup_keys_setitem.
  - intros k [->|?]%keys_setitem; auto.
  - intros HS. destruct (sem_sat0 HS) as [Hj (σ & _ & Hm & Hagrees)]. split.
    + intros q' kv w b' -> Hq'. apply Hj. by rewrite get_app, Hq'.
    + by exists σ.
Qed.

Lemma sem_inv_solved C0 dom Sat0 v b A pending idx q :
  dom (Some v) → typed A → NoDup (Dict.keys A) →
  (∀ k, k ∈ Dict.keys A → dom k) →
  NoDup (Dict.keys idx) →
  sem_inv v b (Dict.setitem (Some v) (VBool b) A) C0 dom Sat0 [] pending idx q →
  propagate_post C0 dom Sat0 (Cnf.mk idx [])
    (Return (Dict.merge (Dict.setitem (Some v) (VBool b) A) q)).
Proof.
  intros Hv HtA HndA HkA Hidx []. split_and!.
  - apply typed_merge; [by apply typed_setitem | done].
  - by apply NoDup_keys_merge, NoDup_keys_setitem.
  - intros k [[->|?]%keys_setitem|?]%keys_merge; auto.
  - eapply track_mono; [|done]. intros k x. by rewrite final_merge.
  - split; [done|]. intros c []%elem_of_nil.
  - by left.
  - done.
  - intros _. exists (λ _, true). intros c []%elem_of_nil.
Qed.

Lemma propagate_loop_sem fuel C0 dom Sat0 pending formula q A :
  loop_inv pending formula q →
  sem_loop C0 dom Sat0 pending formula q A →
  let r := Cnf.propagate_loop fuel formula q A in
  propagate_post C0 dom Sat0 r.1 r.2.
Proof.
  intros Hloop Hsem.
  pose proof (propagate_loop_rule
    (λ formula q A,
       ∃ pending, loop_inv pending formula q ∧
                  sem_loop C0 dom Sat0 pending formula q A)
    (propagate_post C0 dom Sat0)) as Hrule.
  cbv zeta. edestruct Hrule as [->|Hq]; [..|by eauto| |]; try done; clear.
  - intros formula A (pending & Hloop & Hsem). by eapply sem_loop_exit.
  - intros formula q k val A (pending & Hloop & Hsem) Hdel.
    exists pending. split; [by eapply loop_inv_continue|].
    by eapply sem_loop_continue.
  - intros formula q v val A (pending & Hloop & Hsem) Hin.
    destruct (sl_typed _ _ _ _ _ _ _ Hsem (Some v) val) as (? & b & _ & ->).
    { apply elem_of_app. right. left. }
    assert (dom (Some v)) as Hdom.
    { apply (sl_keys _ _ _ _ _ _ _ Hsem). rewrite keys_snoc, elem_of_app.
      right. left. }
    pose proof (sl_typed_A _ _ _ _ _ _ _ Hsem) as HtA.
    pose proof (sl_nodup_A _ _ _ _ _ _ _ Hsem) as HndA.
    pose proof (sl_keys_A _ _ _ _ _ _ _ Hsem) as HkA.
    apply (loop_inv_enter _ _ _ _ (VBool b)) in Hloop.
    apply sem_loop_enter in Hsem.
    pose proof (scan_sem _ _ _ _ _ _ _ _ _ _ (get_setitem_eq _ _ _) Hloop Hsem)
      as Hscan.
    cbv zeta in *.
    destruct (Cnf.raised (Cnf.scan _ _ _ _ _)); [done|].
    destruct Hscan as (pending' & Hscan & Hsem').
    case_decide as Hlen.
    + apply nil_length_inv in Hlen. rewrite Hlen in *.
      eapply sem_inv_solved; try done. by destruct Hscan as (_ & _ & ? & _).
    + exists pending'. split; [by eapply scan_inv_leave|].
      by eapply sem_inv_leave.
Qed.

(** The specification of [propagate] on the queues that the solver passes:
    every entry binds a variable of the index to a boolean.  [Sat0] stands
    for any assumption under which the clauses have a model that agrees
    with the queue and every queued value but the last is justified. *)
Lemma propagate_spec Sat0 formula q :
  well_formed formula →
  counted None (Cnf.variables formula) (lits (Cnf.clauses formula)) →
  typed q → NoDup (Dict.keys q) →
  (∀ k, k ∈ Dict.keys q →
        ∃ w, k = Some w ∧ is_Some (Dict.get w (Cnf.variables formula))) →
  (Sat0 →
   (∀ q' kv w b, q = q' ++ [kv] → Dict.get (Some w) q' = Some (VBool b) →
                 justified (Cnf.variables formula) [] w b) ∧
   ∃ σ, models σ (Cnf.clauses formula) ∧ agrees σ q) →
  let r := Cnf.propagate formula q in
  r.2 ≠ Diverge ∧
  propagate_post (Cnf.clauses formula)
    (λ k, ∃ w, k = Some w ∧ is_Some (Dict.get w (Cnf.variables formula)))
    Sat0 r.1 r.2.
Proof.
  intros Hwf Hc Hq Hnd Hkeys Hsat. split; [apply propagate_ends|].
  apply (propagate_loop_sem _ _ _ _ []).
  - split_and!; try done.
    + by rewrite app_nil_r.
    + intros w b []%elem_of_nil.
  - split; try done.
    + apply typed_nil.
    + apply NoDup_nil_2.
    + intros w []%elem_of_nil.
    + intros k []%elem_of_nil.
    + eauto.
    + intros c0 Hin. right. exists c0. split; [done|]. by intros e.
    + intros w b []%elem_of_nil.
Qed.

(** ** Unit propagation *)

Lemma propagate_loop_S fuel self var_queue assumptions :
  Cnf.propagate_loop (S fuel) self var_queue assumptions =
    match Dict.popitem var_queue with
    | None => (self, Return assumptions)
    | Some ((assume_var, assume_val), var_queue) =>
        let assumptions := Dict.setitem assume_var assume_val assumptions in
        match Cnf.del_assumed assume_var (Cnf.variables self) with
        | None => Cnf.propagate_loop fuel self var_queue assumptions
        | Some variables' =>
            let r := Cnf.scan assume_var assume_val (Cnf.clauses self)
                       variables' var_queue in
            match Cnf.raised r with
            | Some e => (Cnf.mk (Cnf.index r) (Cnf.old r), Raise e)
            | None =>
                let self := Cnf.mk (Cnf.index r) (Cnf.kept r) in
                if decide (length (Cnf.kept r) = 0%nat) then
                  (self, Return (Dict.merge assumptions (Cnf.queue r)))
                else Cnf.propagate_loop fuel self (Cnf.queue r) assumptions
            end
        end
    end.
Proof. reflexivity. Qed.

Lemma propagate_singleton_shrinks formula v x :
  is_Some (Dict.get v (Cnf.variables formula)) →
  (length (Cnf.variables (Cnf.propagate formula [(Some v, x)]).1)
   < length (Cnf.variables formula))%nat.
Proof.
  intros Hin. unfold Cnf.propagate, Cnf.propagate_fuel.
  rewrite propagate_loop_S.
  change (Dict.popitem [(Some v, x)]) with (Some ((Some v, x), @nil (pykey * pyval))).
  cbv beta iota zeta.
  assert (Cnf.del_assumed (Some v) (Cnf.variables formula)
          = Some (Dict.remove v (Cnf.variables formula))) as ->.
  { simpl. by apply delitem_Some. }
  pose proof (length_remove_in v (Cnf.variables formula) Hin) as Hrem.
  pose proof (scan_length (Some v) x (Cnf.clauses formula)
                (Dict.remove v (Cnf.variables formula)) []) as Hscan.
  cbv zeta in Hscan. destruct Hscan as (Hi & _).
  destruct (Cnf.raised (Cnf.scan _ _ _ _ _)); [simpl; lia|].
  case_decide; [simpl; lia|].
  match goal with
  | |- context [Cnf.propagate_loop ?f ?s ?q ?a] =>
      pose proof (propagate_loop_shrinks f s q a) as Hloop
  end.
  cbv zeta in Hloop. destruct Hloop as [_ Hloop].
  cbn [Cnf.variables] in Hloop. lia.
Qed.

Lemma first_unit_empty cls :
  Cnf.first_unit cls = Cnf.EmptyClause →
  ∃ c, c ∈ cls ∧ Clause.variables c = [].
Proof.
  induction cls as [|c cls IH]; simpl; [done|].
  destruct (Clause.variables c) as [|[var par] [|e rest]] eqn:Hc; try done.
  - intros _. exists c. split; [left | done].
  - intros (c' & ? & ?)%IH. exists c'. split; [by right | done].
Qed.

Lemma first_unit_unit cls var par :
  Cnf.first_unit cls = Cnf.UnitClause var par →
  ∃ c, c ∈ cls ∧ Clause.variables c = [(var, par)].
Proof.
  induction cls as [|c cls IH]; simpl; [done|].
  destruct (Clause.variables c) as [|[var' par'] [|e rest]] eqn:Hc; try done.
  - intros [= -> ->]. exists c. split; [left | done].
  - intros (c' & ? & ?)%IH. exists c'. split; [by right | done].
Qed.

Lemma first_unit_none cls c :
  Cnf.first_unit cls = Cnf.NoUnit → c ∈ cls →
  (2 ≤ length (Clause.variables c))%nat.
Proof.
  induction cls as [|c' cls IH]; simpl.
  { intros _ []%elem_of_nil. }
  destruct (Clause.variables c') as [|[var' par'] [|e rest]] eqn:Hc; try done.
  intros Hrest [->|Hin]%elem_of_cons; [|auto].
  rewrite Hc. simpl. lia.
Qed.

Lemma counted_occurs formula c w pol :
  counted None (Cnf.variables formula) (lits (Cnf.clauses formula)) →
  c ∈ Cnf.clauses formula → (w, pol) ∈ Clause.variables c →
  ∃ n p, Dict.get w (Cnf.variables formula) = Some (n, p) ∧ 0 < p + n.
Proof.
  intros Hc Hin Hlit. specialize (Hc w ltac:(done)).
  assert (0 < cnt w pol (lits (Cnf.clauses formula))) as Hpos.
  { apply cnt_pos, elem_of_lits. eauto. }
  pose proof (cnt_nonneg w false (lits (Cnf.clauses formula))).
  pose proof (cnt_nonneg w true (lits (Cnf.clauses formula))).
  destruct (Dict.get w (Cnf.variables formula)) as [[n p]|].
  - exists n, p. split; [done|]. injection Hc as -> ->. destruct pol; lia.
  - destruct pol; lia.
Qed.

#[local] Arguments propagate_post : simpl never.

Lemma unit_propagate_loop_spec C0 dom Sat0 fuel formula assigned :
  (length (Cnf.variables formula) < fuel)%nat →
  (∀ k, (∃ w, k = Some w ∧ is_Some (Dict.get w (Cnf.variables formula))) → dom k) →
  propagate_post C0 dom Sat0 formula (Return assigned) →
  let r := Cnf.unit_propagate_loop fuel formula assigned in
  r.2 ≠ Diverge ∧
  propagate_post C0 dom Sat0 r.1 r.2 ∧
  (∀ vars, r.2 = Return vars →
     Cnf.clauses r.1 = [] ∨ Cnf.first_unit (Cnf.clauses r.1) = Cnf.NoUnit).
Proof.
  revert formula assigned.
  induction fuel as [|fuel IH]; intros formula assigned Hfuel Hdom Hpost; [lia|].
  simpl. case_decide as Hlen.
  { simpl. split_and!; [done..|]. intros ? _. left. by apply nil_length_inv. }
  destruct (Cnf.first_unit (Cnf.clauses formula)) as [|var par|] eqn:Hunit.
  - simpl. destruct Hpost as (_ & _ & _ & _ & _ & _ & _ & Hsat).
    split_and!; [done| |done]. split; [done|]. intros (σ & Hσ)%Hsat.
    destruct (first_unit_empty _ Hunit) as (c & Hin & Hc).
    destruct (Hσ c Hin) as (w & pol & Hlit & _). rewrite Hc in Hlit.
    by apply elem_of_nil in Hlit.
  - destruct Hpost as (Htyped & Hnd & Hkeys & Htrack & Hwf & Hc & Hidx & Hsat).
    destruct Hc as [Hnil|[Hc Hassigned]].
    { rewrite Hnil in Hlen. done. }
    destruct (first_unit_unit _ _ _ Hunit) as (c & Hin & Hitems).
    destruct (counted_occurs formula c var par Hc Hin) as (n & p & Hget & _).
    { rewrite Hitems. left. }
    pose proof (propagate_singleton_shrinks formula var (VBool par)
                  (mk_is_Some _ _ Hget)) as Hshrink.
    destruct (propagate_spec Sat0 formula [(Some var, VBool par)])
      as [Hends Hprop]; try done.
    { intros k x [= -> ->]%list_elem_of_singleton. eauto. }
    { apply NoDup_singleton. }
    { intros k ->%list_elem_of_singleton. eauto. }
    { intros (σ & Hσ)%Hsat. split.
      - intros [|? q'] kv w b; [done|]. intros [= _ Hq']. by destruct q'.
      - exists σ. split; [done|]. intros w b. simpl.
        case_decide as Hw; [|done]. injection Hw as ->. intros [= <-].
        destruct (Hσ c Hin) as (w & pol & Hlit & <-).
        rewrite Hitems in Hlit. by apply list_elem_of_singleton in Hlit as [= -> ->]. }
    destruct (Cnf.propagate formula [(Some var, VBool par)])
      as [formula' [prop|e|]]; simpl in *; try done.
    destruct Hprop as (Htyped' & Hnd' & Hkeys' & Htrack' & Hwf' & Hc' & Hidx' & Hsat').
    apply IH; [lia|..].
    { intros k (w & -> & Hw). apply Hdom. destruct (Hidx' w Hw) as (? & [= <-] & ?).
      eauto. }
    assert (∀ w, Some w ∈ Dict.keys assigned → Some w ∉ Dict.keys prop) as Hdisj.
    { intros w Hw Hw'. apply Hassigned in Hw.
      destruct (Hkeys' _ Hw') as (? & [= <-] & Hs).
      rewrite Hw in Hs. by apply is_Some_None in Hs. }
    split_and!.
    + by apply typed_merge.
    + by apply NoDup_keys_merge.
    + intros k [?|Hk]%keys_merge; [auto|]. apply Hdom. auto.
    + intros c0 Hc0. destruct (Htrack c0 Hc0) as [(w & pol & Hlit & Hw)|(c1 & Hc1 & Hsub)].
      * left. exists w, pol. split; [done|].
        rewrite get_merge_notin; [done|]. apply Hdisj.
        apply get_is_Some_keys. eauto.
      * destruct (Htrack' c1 Hc1) as [(w & pol & Hlit & Hw)|(c2 & Hc2 & Hsub')].
        -- left. exists w, pol. split; [by apply Hsub|].
           by rewrite get_merge, Hw.
        -- right. exists c2. split; [done|]. intros e He. by apply Hsub, Hsub'.
    + done.
    + destruct Hc' as [?|[Hc' Hprop']]; [by left|]. right. split; [done|].
      intros w [Hw|Hw]%keys_merge; [|auto].
      apply Hassigned in Hw.
      destruct (Dict.get w (Cnf.variables formula')) eqn:Hg; [|done].
      destruct (Hidx' w (mk_is_Some _ _ Hg)) as (? & [= <-] & Hs).
      rewrite Hw in Hs. by apply is_Some_None in Hs.
    + intros w Hw. apply Hdom. destruct (Hidx' w Hw) as (? & [= <-] & ?). eauto.
    + done.
  - simpl. split_and!; [done..|]. intros ? _. by right.
Qed.

Lemma unit_propagate_spec Sat0 formula :
  well_formed formula →
  Cnf.clauses formula = [] ∨
    counted None (Cnf.variables formula) (lits (Cnf.clauses formula)) →
  (Sat0 → satisfiable (Cnf.clauses formula)) →
  let r := Cnf.unit_propagate formula in
  r.2 ≠ Diverge ∧
  propagate_post (Cnf.clauses formula)
    (λ k, ∃ w, k = Some w ∧ is_Some (Dict.get w (Cnf.variables formula)))
    Sat0 r.1 r.2 ∧
  (∀ vars, r.2 = Return vars →
     Cnf.clauses r.1 = [] ∨ Cnf.first_unit (Cnf.clauses r.1) = Cnf.NoUnit).
Proof.
  intros Hwf Hc Hsat. apply unit_propagate_loop_spec; [lia | done |].
  split_and!; try done.
  - apply typed_nil.
  - apply NoDup_nil_2.
  - intros k []%elem_of_nil.
  - intros c0 Hin. right. exists c0. split; [done|]. by intros e.
  - destruct Hc; [by left | right]. split; [done|]. intros w []%elem_of_nil.
  - eauto.
Qed.

(** ** The search driver *)

Lemma elem_of_setitem {K V} `{EqDecision K} (k : K) (x : V) (d : dict K V) e :
  e ∈ Dict.setitem k x d → e = (k, x) ∨ e ∈ d.
Proof.
  induction d as [|[k0 x0] d IH]; simpl.
  - intros ->%list_elem_of_singleton. by left.
  - case_decide; subst; rewrite !elem_of_cons; [tauto|].
    intros [->|?]; [auto|]. destruct IH; auto.
Qed.

Lemma elem_of_merge {K V} `{EqDecision K} (a b : dict K V) e :
  e ∈ Dict.merge a b → e ∈ a ∨ e ∈ b.
Proof.
  induction b as [|[k x] b IH] using rev_ind; [by left|].
  rewrite merge_snoc, elem_of_app. simpl.
  intros [->|Hin]%elem_of_setitem.
  - right. right. left.
  - destruct (IH Hin); auto.
Qed.

Lemma no_int_typed d : typed d → no_int d.
Proof. intros Hd k z Hin. by destruct (Hd _ _ Hin) as (? & ? & _ & [=]). Qed.

Lemma no_int_merge a b : no_int a → no_int b → no_int (Dict.merge a b).
Proof. intros Ha Hb k z [?|?]%elem_of_merge; [by eapply Ha | by eapply Hb]. Qed.

Lemma dynamic_largest_cases variables :
  Solver.dynamic_largest variables = (None, VNone) ∨
  ∃ v g, Solver.dynamic_largest variables = (Some v, VBool g) ∧
         v ∈ Dict.keys variables.
Proof.
  induction variables as [|[var [neg pos]] variables IH] using rev_ind;
    [by left|].
  rewrite dynamic_largest_snoc, keys_snoc. case_decide.
  - right. eexists _, _. split; [done|]. apply elem_of_app. right. left.
  - destruct IH as [?|(v & g & ? & ?)]; [by left|]. right.
    exists v, g. split; [done|]. apply elem_of_app. by left.
Qed.

Lemma dynamic_largest_pos variables var neg pos :
  (var, (neg, pos)) ∈ variables → 0 < pos + neg →
  ∃ v g, Solver.dynamic_largest variables = (Some v, VBool g) ∧
         v ∈ Dict.keys variables.
Proof.
  induction variables as [|[var' [neg' pos']] variables IH] using rev_ind.
  { intros []%elem_of_nil. }
  rewrite dynamic_largest_snoc, keys_snoc, elem_of_app.
  intros [Hin|Hin] Hpos.
  - case_decide.
    + eexists _, _. split; [done|]. apply elem_of_app. right. left.
    + destruct (IH Hin Hpos) as (v & g & ? & ?). exists v, g.
      split; [done|]. apply elem_of_app. by left.
  - apply list_elem_of_singleton in Hin as [= <- <- <-].
    rewrite decide_True by lia.
    eexists _, _. split; [done|]. apply elem_of_app. right. left.
Qed.

Lemma satisfied_merge_r a b c :
  NoDup (Dict.keys b) →
  satisfied_by (λ k, Dict.get k b) c →
  satisfied_by (λ k, Dict.get k (Dict.merge a b)) c.
Proof.
  intros Hnd (w & pol & Hlit & Hw). exists w, pol. split; [done|].
  by rewrite get_merge, Hw.
Qed.

Lemma satisfied_merge_l a b c :
  (∀ w, Some w ∈ Dict.keys a → Some w ∉ Dict.keys b) →
  satisfied_by (λ k, Dict.get k a) c →
  satisfied_by (λ k, Dict.get k (Dict.merge a b)) c.
Proof.
  intros Hdisj (w & pol & Hlit & Hw). exists w, pol. split; [done|].
  rewrite get_merge_notin; [done|]. apply Hdisj, get_is_Some_keys. eauto.
Qed.

Lemma satisfied_subclause m c c' :
  subclause c' c → satisfied_by m c' → satisfied_by m c.
Proof. intros Hsub (w & pol & ? & ?). exists w, pol. auto. Qed.

Lemma branch_spec Sat rec formula0 formula vars v g :
  (∀ new, well_formed new →
     counted None (Cnf.variables new) (lits (Cnf.clauses new)) →
     (length (Cnf.variables new) < length (Cnf.variables formula))%nat →
     dpll_post new (rec new)) →
  propagate_post (Cnf.clauses formula0)
    (λ k, ∃ w, k = Some w ∧ is_Some (Dict.get w (Cnf.variables formula0)))
    Sat formula (Return vars) →
  Cnf.clauses formula ≠ [] →
  is_Some (Dict.get v (Cnf.variables formula)) →
  match Solver.branch rec formula vars (Some v) (VBool g) with
  | Return d => dpll_post formula0 (Return d)
  | Raise e =>
      e = UnsatisfiedException ∧
      ¬ ∃ σ, models σ (Cnf.clauses formula) ∧ σ v = g
  | Diverge => False
  end.
Proof.
  intros Hrec (Htyped & Hnd & Hkeys & Htrack & Hwf & Hc & Hidx & _) Hcls Hv.
  destruct Hc as [?|[Hc Hassigned]]; [done|].
  unfold Solver.branch. rewrite cnf_copy_eq.
  pose proof (propagate_singleton_shrinks formula v (VBool g) Hv) as Hshrink.
  destruct (propagate_spec (∃ σ, models σ (Cnf.clauses formula) ∧ σ v = g)
              formula [(Some v, VBool g)]) as [Hends Hprop]; try done.
  { intros k x [= -> ->]%list_elem_of_singleton. eauto. }
  { apply NoDup_singleton. }
  { intros k ->%list_elem_of_singleton. eauto. }
  { intros (σ & Hσ & Hg). split.
    - intros [|? q'] kv w b; [done|]. intros [= _ Hq']. by destruct q'.
    - exists σ. split; [done|]. intros w b. simpl.
      case_decide as Hw; [|done]. injection Hw as ->. by intros [= <-]. }
  destruct (Cnf.propagate formula [(Some v, VBool g)])
    as [new [prop|e|]]; simpl in Hends, Hprop, Hshrink; try done.
  destruct Hprop as (Htyped' & Hnd' & Hkeys' & Htrack' & Hwf' & Hc' & Hidx' & Hsat').
  assert (∀ w, Some w ∈ Dict.keys vars → Some w ∉ Dict.keys prop) as Hdisj.
  { intros w Hw Hw'. apply Hassigned in Hw.
    destruct (Hkeys' _ Hw') as (? & [= <-] & Hs).
    rewrite Hw in Hs. by apply is_Some_None in Hs. }
  assert (∀ w, Some w ∈ Dict.keys prop →
               is_Some (Dict.get w (Cnf.variables formula0))) as Hprop0.
  { intros w Hw. destruct (Hkeys' _ Hw) as (? & [= <-] & Hs).
    destruct (Hidx _ Hs) as (? & [= <-] & ?). done. }
  assert (∀ w, Some w ∈ Dict.keys vars →
               is_Some (Dict.get w (Cnf.variables formula0))) as Hvars0.
  { intros w Hw. by destruct (Hkeys _ Hw) as (? & [= <-] & Hs). }
  case_decide as Hlen.
  - (* the copy is solved *)
    apply nil_length_inv in Hlen. split_and!.
    + by apply NoDup_keys_merge.
    + apply no_int_merge; by apply no_int_typed.
    + intros w [?|?]%keys_merge; auto.
    + intros c0 Hc0. destruct (Htrack c0 Hc0) as [?|(c1 & Hc1 & Hsub)].
      { by apply satisfied_merge_r. }
      destruct (Htrack' c1 Hc1) as [Hsat1|(c2 & Hc2 & _)].
      * apply (satisfied_subclause _ _ c1); [done|].
        apply satisfied_merge_l; [|done].
        intros w Hw Hw'. by apply (Hdisj w).
      * rewrite Hlen in Hc2. by apply elem_of_nil in Hc2.
  - (* clauses are left: recursive call *)
    destruct Hc' as [Hnil|[Hc' Hassigned']].
    { rewrite Hnil in Hlen. done. }
    specialize (Hrec new Hwf' Hc' Hshrink).
    destruct (rec new) as [d|e|]; simpl in Hrec; [|..|done].
    + destruct Hrec as (Hnd_d & Hint_d & Hkeys_d & Hsat_d).
      assert (∀ w, Some w ∈ Dict.keys d → Some w ∉ Dict.keys prop) as Hdisj'.
      { intros w Hw Hw'. apply Hkeys_d in Hw. apply Hassigned' in Hw'.
        rewrite Hw' in Hw. by apply is_Some_None in Hw. }
      assert (∀ w, Some w ∈ Dict.keys d →
                   is_Some (Dict.get w (Cnf.variables formula))) as Hd1.
      { intros w Hw. apply Hkeys_d in Hw.
        by destruct (Hidx' _ Hw) as (? & [= <-] & Hs). }
      split_and!.
      * by apply NoDup_keys_merge.
      * apply no_int_merge; [by apply no_int_typed|].
        apply no_int_merge; [done | by apply no_int_typed].
      * intros w [?|[Hw|?]%keys_merge]%keys_merge; auto.
        apply Hd1 in Hw. by destruct (Hidx _ Hw) as (? & [= <-] & Hs).
      * intros c0 Hc0. destruct (Htrack c0 Hc0) as [Hsat0|(c1 & Hc1 & Hsub)].
        { apply satisfied_merge_l; [|done].
          intros w Hw [Hw'|Hw']%keys_merge.
          - apply Hassigned in Hw. apply Hd1 in Hw'.
            rewrite Hw in Hw'. by apply is_Some_None in Hw'.
          - by apply (Hdisj w). }
        apply satisfied_merge_r; [by apply NoDup_keys_merge|].
        apply (satisfied_subclause _ _ c1); [done|].
        destruct (Htrack' c1 Hc1) as [Hsat1|(c2 & Hc2 & Hsub')].
        -- by apply satisfied_merge_r.
        -- apply (satisfied_subclause _ _ c2); [done|].
           apply satisfied_merge_l; [done|]. by apply Hsat_d.
    + destruct Hrec as [-> Hunsat]. split; [done|].
      intros HS. by apply Hunsat, Hsat'.
Qed.

Lemma branch_solved rec formula vars var assume :
  Cnf.clauses formula = [] →
  Solver.branch rec formula vars var assume =
    Return (Dict.merge [(var, assume)] vars).
Proof.
  intros Hcls. unfold Solver.branch. rewrite cnf_copy_eq.
  destruct (propagate_no_clauses formula var assume Hcls) as (new & -> & Hnew).
  by rewrite Hnew.
Qed.

Lemma index_length_le (idx idx0 : dict Z (Z * Z)) :
  NoDup (Dict.keys idx) →
  (∀ w, is_Some (Dict.get w idx) → is_Some (Dict.get w idx0)) →
  (length idx ≤ length idx0)%nat.
Proof.
  intros Hnd Hsub.
  assert (Dict.keys idx ⊆+ Dict.keys idx0) as Hle.
  { apply NoDup_submseteq; [done|]. intros w Hw.
    by apply get_is_Some_keys, Hsub, get_is_Some_keys. }
  apply submseteq_length in Hle. unfold Dict.keys in Hle.
  by rewrite !length_fmap in Hle.
Qed.

Lemma dpll_rec_spec fuel formula :
  (length (Cnf.variables formula) < fuel)%nat →
  well_formed formula →
  Cnf.clauses formula = [] ∨
    counted None (Cnf.variables formula) (lits (Cnf.clauses formula)) →
  dpll_post formula (Solver.dpll_rec fuel formula).
Proof.
  revert formula. induction fuel as [|fuel IH]; intros formula Hfuel Hwf Hc;
    [lia|].
  simpl.
  destruct (unit_propagate_spec (satisfiable (Cnf.clauses formula)) formula)
    as (Hends & Hpost & Hunit); try done.
  destruct (Cnf.unit_propagate formula) as [formula1 [vars|e|]];
    simpl in Hends, Hpost, Hunit; [|done..].
  pose proof Hpost as
    (Htyped & Hnd & Hkeys & Htrack & Hwf1 & Hc1 & Hidx & Hsat).
  destruct (decide (Cnf.clauses formula1 = [])) as [Hnil|Hcls].
  - (* nothing left after unit propagation *)
    destruct (Solver.dynamic_largest (Cnf.variables formula1))
      as [var assume] eqn:Hdl.
    rewrite branch_solved by done. split_and!.
    + by apply NoDup_keys_merge, NoDup_singleton.
    + apply no_int_merge; [|by apply no_int_typed].
      intros k z Hin. apply list_elem_of_singleton in Hin.
      injection Hin as <- <-.
      destruct (dynamic_largest_cases (Cnf.variables formula1))
        as [Heq|(? & ? & Heq & _)]; rewrite Heq in Hdl; by injection Hdl.
    + intros w [Hw|Hw]%keys_merge.
      * apply list_elem_of_singleton in Hw. simpl in Hw. subst var.
        destruct (dynamic_largest_cases (Cnf.variables formula1))
          as [Heq|(v & ? & Heq & Hv)]; rewrite Heq in Hdl; [done|].
        injection Hdl as -> _. apply get_is_Some_keys in Hv.
        by destruct (Hidx _ Hv) as (? & [= <-] & ?).
      * by destruct (Hkeys _ Hw) as (? & [= <-] & ?).
    + intros c0 Hc0. apply satisfied_merge_r; [done|].
      destruct (Htrack c0 Hc0) as [?|(c1 & Hc1' & _)]; [done|].
      rewrite Hnil in Hc1'. by apply elem_of_nil in Hc1'.
  - (* clauses are left: the heuristic finds a variable of the index *)
    destruct Hc1 as [?|[Hc1 Hassigned]]; [done|].
    destruct (Hunit vars eq_refl) as [?|Hnounit]; [done|].
    assert (∃ v g, Solver.dynamic_largest (Cnf.variables formula1)
                   = (Some v, VBool g) ∧
                   is_Some (Dict.get v (Cnf.variables formula1)))
      as (v & g & -> & Hv).
    { assert (∃ c, c ∈ Cnf.clauses formula1) as [c Hin].
      { destruct (Cnf.clauses formula1) as [|c cls]; [done|]. exists c. left. }
      pose proof (first_unit_none _ c Hnounit Hin) as Hlen.
      destruct (Clause.variables c) as [|[w pol] items] eqn:Hitems;
        [simpl in Hlen; lia|].
      destruct (counted_occurs formula1 c w pol) as (n & p & Hget & Hpos).
      { done. } { done. } { rewrite Hitems. left. }
      apply get_Some_elem_of in Hget.
      destruct (dynamic_largest_pos _ _ _ _ Hget Hpos) as (v & g & ? & Hv).
      exists v, g. split; [done|]. by apply get_is_Some_keys. }
    pose proof (index_length_le _ (Cnf.variables formula) (wf_index _ Hwf1)
                  ltac:(intros w Hw; by destruct (Hidx _ Hw) as (? & [= <-] & ?)))
      as Hle.
    assert (∀ new, well_formed new →
              counted None (Cnf.variables new) (lits (Cnf.clauses new)) →
              (length (Cnf.variables new) < length (Cnf.variables formula1))%nat →
              dpll_post new (Solver.dpll_rec fuel new)) as Hrec.
    { intros new Hwfn Hcn Hlen. apply IH; [lia | done | by right]. }
    pose proof (branch_spec _ _ _ _ _ v g Hrec Hpost Hcls Hv) as Hfirst.
    destruct (Solver.branch _ formula1 vars (Some v) (VBool g))
      as [d|e|]; [done| |done].
    destruct Hfirst as [-> Hno].
    pose proof (branch_spec _ _ _ _ _ v (negb g) Hrec Hpost Hcls Hv) as Hsecond.
    change (py_not (VBool g)) with (VBool (negb g)).
    destruct (Solver.branch _ formula1 vars (Some v) (VBool (negb g)))
      as [d|e|]; [done| |done].
    destruct Hsecond as [-> Hno']. split; [done|].
    intros (σ & Hσ)%Hsat.
    destruct (decide (σ v = g)); [apply Hno | apply Hno']; exists σ;
      split; try done.
    by destruct (σ v), g.
Qed.

Lemma dpll_spec formula :
  well_formed formula →
  Cnf.clauses formula = [] ∨
    counted None (Cnf.variables formula) (lits (Cnf.clauses formula)) →
  dpll_post formula (Solver.dpll formula).
Proof. intros. apply dpll_rec_spec; [lia | done..]. Qed.

(** ** The formula that [Cnf.from_list] builds *)

Lemma count_clause_get items variables variables' :
  Cnf.count_clause items variables = Some variables' →
  (∀ w, Dict.get w variables' =
        (λ c : Z * Z, (c.1 + cnt w false items, c.2 + cnt w true items))
          <$> Dict.get w variables) ∧
  (∀ w pol, (w, pol) ∈ items → is_Some (Dict.get w variables)) ∧
  (NoDup (Dict.keys variables) → NoDup (Dict.keys variables')).
Proof.
  revert variables. induction items as [|[var par] items IH];
    intros variables; simpl.
  { intros [= <-]. split_and!; [|by intros w pol []%elem_of_nil|done].
    intros w. rewrite !cnt_nil. destruct (Dict.get w variables) as [[]|]; simpl;
      [|done]. do 2 f_equal; lia. }
  destruct (Dict.get var variables) as [c|] eqn:Hget; [|done].
  intros (Hg & Hin & Hnd)%IH. split_and!.
  - intros w. rewrite Hg, get_setitem, !cnt_cons.
    case_decide as Hw.
    + subst w. rewrite Hget. simpl. destruct par, c as [n p]; simpl;
        repeat case_decide; simplify_eq; do 2 f_equal; lia.
    + rewrite !decide_False by congruence.
      destruct (Dict.get w variables) as [[]|]; simpl; [|done].
      do 2 f_equal; lia.
  - intros w pol [[= -> ->]|Hw]%elem_of_cons; [by eauto|].
    specialize (Hin w pol Hw). rewrite get_setitem in Hin.
    case_decide; subst; eauto.
  - intros ?. by apply Hnd, NoDup_keys_setitem.
Qed.

Lemma count_clauses_get cls variables variables' :
  Cnf.count_clauses cls variables = Some variables' →
  (∀ w, Dict.get w variables' =
        (λ c : Z * Z, (c.1 + cnt w false (lits cls), c.2 + cnt w true (lits cls)))
          <$> Dict.get w variables) ∧
  (∀ w pol, (w, pol) ∈ lits cls → is_Some (Dict.get w variables)) ∧
  (NoDup (Dict.keys variables) → NoDup (Dict.keys variables')).
Proof.
  revert variables. induction cls as [|c cls IH]; intros variables; simpl.
  { intros [= <-]. split_and!; [|by intros w pol []%elem_of_nil|done].
    intros w. rewrite !cnt_nil. destruct (Dict.get w variables) as [[]|]; simpl;
      [|done]. do 2 f_equal; lia. }
  destruct (Cnf.count_clause (Clause.variables c) variables)
    as [variables1|] eqn:Hc; [|done].
  apply count_clause_get in Hc as (Hg1 & Hin1 & Hnd1).
  intros (Hg & Hin & Hnd)%IH. split_and!.
  - intros w. rewrite Hg, Hg1, !cnt_app.
    destruct (Dict.get w variables) as [[]|]; simpl; [|done].
    do 2 f_equal; lia.
  - intros w pol [Hw|Hw]%elem_of_app; [by eauto|].
    specialize (Hin w pol Hw). rewrite Hg1 in Hin.
    by apply fmap_is_Some in Hin.
  - auto.
Qed.

Lemma get_filter {K V} `{EqDecision K} (P : K * V → Prop)
    `{∀ e, Decision (P e)} (d : dict K V) k :
  NoDup (Dict.keys d) →
  Dict.get k (filter P d) =
    match Dict.get k d with
    | Some x => if decide (P (k, x)) then Some x else None
    | None => None
    end.
Proof.
  induction d as [|[k0 x0] d IH]; simpl; [done|].
  intros [Hk Hnd]%NoDup_cons. rewrite filter_cons.
  destruct (decide (k = k0)) as [->|Hne].
  - destruct (decide (P (k0, x0))); simpl.
    + by rewrite decide_True.
    + rewrite IH by done. apply get_None in Hk.
      fold (Dict.keys d) in Hk. by rewrite Hk.
  - destruct (decide (P (k0, x0))); simpl; rewrite ?decide_False by done; auto.
Qed.

Lemma NoDup_keys_filter {K V} (P : K * V → Prop) `{∀ e, Decision (P e)}
    (d : dict K V) :
  NoDup (Dict.keys d) → NoDup (Dict.keys (filter P d)).
Proof.
  intros Hnd. apply (sublist_NoDup _ (Dict.keys d)); [done|].
  unfold Dict.keys. apply fmap_sublist, sublist_filter.
Qed.

Lemma initial_index_get N w :
  Dict.get w (map (λ j : Z, (j, (0, 0))) (seqZ 1 N)) =
    if decide (1 ≤ w ≤ N) then Some (0, 0) else None.
Proof.
  case_decide as Hw.
  - apply elem_of_get.
    + unfold Dict.keys. rewrite <- list_fmap_compose.
      apply NoDup_fmap_2; [by intros ?? [=]|]. apply NoDup_seqZ.
    + apply list_elem_of_fmap. exists w. split; [done|].
      apply elem_of_seqZ. lia.
  - apply get_None. by rewrite keys_initial_index.
Qed.

Lemma from_list_counted set_iter clause_list N formula :
  Cnf.from_list set_iter clause_list N = Return formula →
  (∀ c, c ∈ set_iter clause_list → NoDup (Dict.keys (Clause.variables c))) →
  Cnf.clauses formula = set_iter clause_list ∧
  well_formed formula ∧
  counted None (Cnf.variables formula) (lits (Cnf.clauses formula)).
Proof.
  unfold Cnf.from_list.
  destruct (Cnf.count_clauses _ _) as [variables|] eqn:Hcount; [|done].
  intros [= <-] Hcls. simpl.
  apply count_clauses_get in Hcount as (Hget & Hin & Hnd).
  assert (NoDup (Dict.keys variables)) as Hnd'.
  { apply Hnd. unfold Dict.keys. rewrite <- list_fmap_compose.
    apply NoDup_fmap_2; [by intros ?? [=]|]. apply NoDup_seqZ. }
  split_and!; [done| |].
  - split; [|done]. simpl. by apply NoDup_keys_filter.
  - intros w _. rewrite get_filter by done. rewrite Hget, initial_index_get.
    pose proof (cnt_nonneg w false (lits (set_iter clause_list))).
    pose proof (cnt_nonneg w true (lits (set_iter clause_list))).
    case_decide as Hw; simpl.
    + case_decide as Hnz; simpl in Hnz.
      * f_equal.
      * split; lia.
    + split; apply cnt_zero; intros Hlit; apply Hin in Hlit;
        rewrite initial_index_get, decide_False in Hlit by done;
        by apply is_Some_None in Hlit.
Qed.

(** ** The top level *)

Lemma typed_pure_variables variables : typed (Solver.pure_variables variables).
Proof.
  induction variables as [|[w [n p]] variables IH] using rev_ind.
  { apply typed_nil. }
  rewrite pure_variables_snoc. repeat case_decide; try done;
    by apply typed_setitem.
Qed.

Lemma NoDup_pure_variables variables :
  NoDup (Dict.keys (Solver.pure_variables variables)).
Proof.
  induction variables as [|[w [n p]] variables IH] using rev_ind.
  { apply NoDup_nil_2. }
  rewrite pure_variables_snoc. repeat case_decide; try done;
    by apply NoDup_keys_setitem.
Qed.

Lemma pure_variables_justified variables w b :
  NoDup (Dict.keys variables) →
  Dict.get (Some w) (Solver.pure_variables variables) = Some (VBool b) →
  justified variables [] w b.
Proof.
  intros Hnd Hq c Hc. left. rewrite pure_variables_get, Hc in Hq by done.
  destruct c as [n p]. repeat case_decide; simplify_eq; done.
Qed.

(** Giving every pure variable its polarity keeps a model a model. *)
Lemma pure_variables_model variables cls σ :
  NoDup (Dict.keys variables) →
  counted None variables (lits cls) →
  models σ cls →
  ∃ σ', models σ' cls ∧ agrees σ' (Solver.pure_variables variables).
Proof.
  intros Hnd Hc Hσ.
  exists (λ w, match Dict.get (Some w) (Solver.pure_variables variables) with
               | Some (VBool b) => b
               | _ => σ w
               end).
  split.
  - intros c Hin. destruct (Hσ c Hin) as (w & pol & Hlit & Hw).
    exists w, pol. split; [done|].
    destruct (Dict.get (Some w) (Solver.pure_variables variables))
      as [[|b|]|] eqn:Hq; try done.
    pose proof (pure_variables_justified _ _ _ Hnd Hq) as Hj.
    specialize (Hc w ltac:(done)).
    assert (0 < cnt w pol (lits cls)) as Hpos.
    { apply cnt_pos, elem_of_lits. eauto. }
    destruct (Dict.get w variables) as [[n p]|] eqn:Hget.
    + destruct (Hj _ Hget) as [Hz|[]%elem_of_nil].
      injection Hc as -> ->. destruct b, pol; simpl in Hz; try done; lia.
    + destruct pol; lia.
  - intros w b Hq. by rewrite Hq.
Qed.

Lemma solve_spec formula :
  well_formed formula →
  counted None (Cnf.variables formula) (lits (Cnf.clauses formula)) →
  ∃ m, Solver.solve formula = Return m ∧
       ((m = Solver.unsat ∧ ¬ satisfiable (Cnf.clauses formula)) ∨
        (no_int m ∧
         ∀ c, c ∈ Cnf.clauses formula → satisfied_by (λ k, Dict.get k m) c)).
Proof.
  intros Hwf Hc. unfold Solver.solve.
  destruct (propagate_spec (satisfiable (Cnf.clauses formula)) formula
              (Solver.pure_variables (Cnf.variables formula)))
    as [Hends Hpost]; try done.
  { apply typed_pure_variables. }
  { apply NoDup_pure_variables. }
  { intros k (w & -> & Hw)%pure_variables_keys. exists w. split; [done|].
    by apply get_is_Some_keys. }
  { intros [σ Hσ]. split.
    - intros q' kv w b Hq Hget. apply pure_variables_justified; [apply Hwf|].
      by rewrite Hq, get_app, Hget.
    - eapply pure_variables_model; [apply Hwf | done..]. }
  destruct (Cnf.propagate formula _) as [formula1 [variables|e|]];
    simpl in Hends, Hpost; [| |done].
  - destruct Hpost as (Htyped & Hnd & Hkeys & Htrack & Hwf1 & Hc1 & Hidx & Hsat).
    pose proof (dpll_spec formula1 Hwf1
                  ltac:(destruct Hc1 as [?|[? _]]; auto)) as Hdpll.
    destruct (Solver.dpll formula1) as [d|e|]; simpl in Hdpll; [| |done].
    + destruct Hdpll as (Hnd_d & Hint_d & Hkeys_d & Hsat_d).
      eexists. split; [done|]. right. split.
      { apply no_int_merge; [done | by apply no_int_typed]. }
      intros c0 Hc0. destruct (Htrack c0 Hc0) as [?|(c1 & Hin1 & Hsub)].
      { by apply satisfied_merge_r. }
      destruct Hc1 as [Hnil|[_ Hassigned]].
      { rewrite Hnil in Hin1. by apply elem_of_nil in Hin1. }
      apply (satisfied_subclause _ _ c1); [done|].
      apply satisfied_merge_l; [|by apply Hsat_d].
      intros w Hw Hw'. apply Hkeys_d in Hw. apply Hassigned in Hw'.
      rewrite Hw' in Hw. by apply is_Some_None in Hw.
    + destruct Hdpll as [-> Hunsat]. eexists. split; [done|]. left.
      split; [done|]. intros HS. by apply Hunsat, Hsat.
  - destruct Hpost as [-> Hunsat]. eexists. split; [done|]. by left.
Qed.


Ltac check_clauses :=
  let c := fresh "c" in
  let Hin := fresh "Hin" in
  intros c Hin; simpl in Hin;
  repeat (apply elem_of_cons in Hin as [->|Hin];
          [apply (bool_decide_unpack _); vm_compute; exact I|]);
  by apply elem_of_nil in Hin.



Lemma satisfied_model m cls :
  (∀ c, c ∈ cls → satisfied_by (λ k, Dict.get k m) c) → satisfiable cls.
Proof.
  intros Hsat.
  exists (λ w, match Dict.get (Some w) m with
               | Some (VBool b) => b
               | _ => false
               end).
  intros c Hin. destruct (Hsat c Hin) as (w & pol & Hlit & Hw).
  exists w, pol. by rewrite Hw.
Qed.

(** C2.  For a formula built by [Cnf.from_list], [solve] returns a map (it
    neither raises nor runs forever), and the map is [{0: 1}] exactly when
    no assignment makes every clause of the formula true. *)
Theorem solve_complete set_iter clause_list N formula :
  (∀ c, c ∈ set_iter clause_list → NoDup (Dict.keys (Clause.variables c))) →
  Cnf.from_list set_iter clause_list N = Return formula →
  ∃ m, Solver.solve formula = Return m ∧
       (m = Solver.unsat ↔ ¬ satisfiable (Cnf.clauses formula)).
Proof.
  intros Hcls Hfrom.
  destruct (from_list_counted _ _ _ _ Hfrom Hcls) as (_ & Hwf & Hc).
  destruct (solve_spec formula Hwf Hc) as (m & Hsolve & [[-> Hunsat]|[Hint Hsat]]).
  - exists Solver.unsat. done.
  - exists m. split; [done|]. split.
    + intros ->. destruct (Hint (Some 0) 1). left.
    + intros []. by eapply satisfied_model.
Qed.

Lemma solve_complete_witness :
  ∃ m, Solver.solve (Cnf.mk [(1, (1, 1))] [Clause.mk [(1, true)]; Clause.mk [(1, false)]])
       = Return m ∧
       (m = Solver.unsat ↔
        ¬ satisfiable [Clause.mk [(1, true)]; Clause.mk [(1, false)]]).
Proof.
  apply (solve_complete (λ l, l)
           [Clause.mk [(1, true)]; Clause.mk [(1, false)]] 1).
  - check_clauses.
  - reflexivity.
Defined.

(** ** The depth of the recursion *)

Lemma branch_mono rec1 rec2 formula vars var assume r :
  (∀ new r', rec1 new = r' → r' ≠ Diverge → rec2 new = r') →
  Solver.branch rec1 formula vars var assume = r → r ≠ Diverge →
  Solver.branch rec2 formula vars var assume = r.
Proof.
  intros Hrec. unfold Solver.branch.
  destruct (Cnf.propagate _ _) as [new [propagated|e|]]; try done.
  case_decide; [done|].
  destruct (rec1 new) as [d|e|] eqn:Hrec1; intros <- Hr; try done;
    by rewrite (Hrec new _ Hrec1).
Qed.

Lemma dpll_rec_mono n m formula r :
  Solver.dpll_rec n formula = r → r ≠ Diverge → (n ≤ m)%nat →
  Solver.dpll_rec m formula = r.
Proof.
  revert m formula r. induction n as [|n IH]; intros m formula r; simpl.
  { by intros <-. }
  destruct m as [|m]; [lia|]. intros Hr Hdiv Hle. simpl.
  destruct (Cnf.unit_propagate formula) as [reduced [vars|e|]]; try done.
  destruct (Solver.dynamic_largest (Cnf.variables reduced)) as [var assume].
  assert (∀ new r', Solver.dpll_rec n new = r' → r' ≠ Diverge →
                    Solver.dpll_rec m new = r') as Hrec.
  { intros new r' ? ?. apply (IH m new r'); [done..|lia]. }
  destruct (Solver.branch (Solver.dpll_rec n) reduced vars var assume)
    as [d|e|] eqn:Hfirst.
  - by rewrite (branch_mono _ _ _ _ _ _ _ Hrec Hfirst).
  - rewrite (branch_mono _ _ _ _ _ _ _ Hrec Hfirst) by done.
    destruct e; [|done]. by apply (branch_mono _ _ _ _ _ _ _ Hrec).
  - by subst r.
Qed.

Lemma dpll_rec_dpll n formula :
  well_formed formula →
  Cnf.clauses formula = [] ∨
    counted None (Cnf.variables formula) (lits (Cnf.clauses formula)) →
  (length (Cnf.variables formula) < n)%nat →
  Solver.dpll_rec n formula = Solver.dpll formula.
Proof.
  intros Hwf Hc Hn. pose proof (dpll_spec formula Hwf Hc) as Hpost.
  apply (dpll_rec_mono (S (length (Cnf.variables formula)))); [done| |lia].
  intros Heq. by rewrite Heq in Hpost.
Qed.

Lemma branch_ext rec1 rec2 formula vars var assume :
  (∀ new propagated,
     Cnf.propagate formula [(var, assume)] = (new, Return propagated) →
     Cnf.clauses new ≠ [] → rec1 new = rec2 new) →
  Solver.branch rec1 formula vars var assume =
  Solver.branch rec2 formula vars var assume.
Proof.
  intros Hrec. unfold Solver.branch. rewrite cnf_copy_eq.
  destruct (Cnf.propagate _ _) as [new [propagated|e|]] eqn:Hprop; try done.
  case_decide as Hlen; [done|]. rewrite (Hrec new propagated); [done..|].
  intros Hnil. by rewrite Hnil in Hlen.
Qed.

Lemma branching_variable C0 dom Sat0 reduced vars :
  propagate_post C0 dom Sat0 reduced (Return vars) →
  Cnf.clauses reduced ≠ [] →
  Cnf.first_unit (Cnf.clauses reduced) = Cnf.NoUnit →
  ∃ v g, Solver.dynamic_largest (Cnf.variables reduced) = (Some v, VBool g) ∧
         is_Some (Dict.get v (Cnf.variables reduced)).
Proof.
  intros (_ & _ & _ & _ & _ & Hc & _) Hcls Hnounit.
  destruct Hc as [?|[Hc _]]; [done|].
  assert (∃ c, c ∈ Cnf.clauses reduced) as [c Hin].
  { destruct (Cnf.clauses reduced) as [|c cls]; [done|]. exists c. left. }
  pose proof (first_unit_none _ c Hnounit Hin) as Hlen.
  destruct (Clause.variables c) as [|[w pol] items] eqn:Hitems;
    [simpl in Hlen; lia|].
  destruct (counted_occurs reduced c w pol) as (n & p & Hget & Hpos).
  { done. } { done. } { rewrite Hitems. left. }
  apply get_Some_elem_of in Hget.
  destruct (dynamic_largest_pos _ _ _ _ Hget Hpos) as (v & g & ? & Hv).
  exists v, g. split; [done|]. by apply get_is_Some_keys.
Qed.

(** [dpll] in terms of itself, when unit propagation leaves clauses. *)
Lemma dpll_unfold formula reduced vars :
  well_formed formula →
  Cnf.clauses formula = [] ∨
    counted None (Cnf.variables formula) (lits (Cnf.clauses formula)) →
  Cnf.unit_propagate formula = (reduced, Return vars) →
  Cnf.clauses reduced ≠ [] →
  ∃ v g,
    Solver.dynamic_largest (Cnf.variables reduced) = (Some v, VBool g) ∧
    is_Some (Dict.get v (Cnf.variables reduced)) ∧
    propagate_post (Cnf.clauses formula)
      (λ k, ∃ w, k = Some w ∧ is_Some (Dict.get w (Cnf.variables formula)))
      False reduced (Return vars) ∧
    Solver.dpll formula =
      match Solver.branch Solver.dpll reduced vars (Some v) (VBool g) with
      | Raise UnsatisfiedException =>
          Solver.branch Solver.dpll reduced vars (Some v) (VBool (negb g))
      | r => r
      end.
Proof.
  intros Hwf Hc Hunit Hcls.
  destruct (unit_propagate_spec False formula) as (_ & Hpost & Hnounit);
    [done..|].
  rewrite Hunit in Hpost, Hnounit. simpl in Hpost, Hnounit.
  destruct (Hnounit vars eq_refl) as [?|Hno]; [done|].
  destruct (branching_variable _ _ _ _ _ Hpost Hcls Hno) as (v & g & Hdl & Hv).
  exists v, g. split_and!; try done.
  unfold Solver.dpll. simpl. rewrite Hunit, Hdl.
  pose proof Hpost as (_ & _ & _ & _ & Hwf1 & Hc1 & Hidx & _).
  destruct Hc1 as [?|[Hc1 _]]; [done|].
  pose proof (index_length_le _ (Cnf.variables formula) (wf_index _ Hwf1)
                ltac:(intros w Hw; by destruct (Hidx _ Hw) as (? & [= <-] & ?)))
    as Hle.
  assert (∀ b new propagated,
            Cnf.propagate reduced [(Some v, VBool b)] = (new, Return propagated) →
            Cnf.clauses new ≠ [] →
            Solver.dpll_rec (length (Cnf.variables formula)) new = Solver.dpll new)
    as Hrec.
  { intros b new propagated Hprop Hnew.
    pose proof (propagate_singleton_shrinks reduced v (VBool b) Hv) as Hshrink.
    destruct (propagate_spec False reduced [(Some v, VBool b)])
      as [_ Hpost']; try done.
    { intros k x [= -> ->]%list_elem_of_singleton. eauto. }
    { apply NoDup_singleton. }
    { intros k ->%list_elem_of_singleton. eauto. }
    rewrite Hprop in Hpost', Hshrink. simpl in Hpost', Hshrink.
    destruct Hpost' as (_ & _ & _ & _ & Hwf' & Hc' & _).
    apply dpll_rec_dpll; [done| |lia].
    destruct Hc' as [?|[? _]]; auto. }
  rewrite (branch_ext _ Solver.dpll reduced vars (Some v) (VBool g))
    by (intros; by eapply Hrec).
  change (py_not (VBool g)) with (VBool (negb g)).
  rewrite (branch_ext _ Solver.dpll reduced vars (Some v) (VBool (negb g)))
    by (intros; by eapply Hrec).
  done.
Qed.

(** ** The key [None] *)

Lemma typed_no_None d : typed d → None ∉ Dict.keys d.
Proof.
  intros Hd Hin. apply get_is_Some_keys in Hin as [x Hx].
  by destruct (typed_get _ _ _ Hd Hx) as (? & ? & [=] & _).
Qed.

Lemma empty_index_solved formula reduced vars :
  well_formed formula →
  Cnf.clauses formula = [] ∨
    counted None (Cnf.variables formula) (lits (Cnf.clauses formula)) →
  Cnf.unit_propagate formula = (reduced, Return vars) →
  Cnf.variables reduced = [] →
  Cnf.clauses reduced = [] ∧ typed vars.
Proof.
  intros Hwf Hc Hunit Hidx.
  destruct (unit_propagate_spec False formula) as (_ & Hpost & Hnounit);
    [done..|].
  rewrite Hunit in Hpost, Hnounit. simpl in Hpost, Hnounit.
  split; [|apply Hpost].
  destruct (decide (Cnf.clauses reduced = [])) as [|Hcls]; [done|].
  destruct (Hnounit vars eq_refl) as [?|Hno]; [done|].
  destruct (branching_variable _ _ _ _ _ Hpost Hcls Hno) as (v & g & _ & Hv).
  rewrite Hidx in Hv. by apply is_Some_None in Hv.
Qed.

Lemma branch_none reduced vars v b new propagated d :
  well_formed reduced →
  counted None (Cnf.variables reduced) (lits (Cnf.clauses reduced)) →
  is_Some (Dict.get v (Cnf.variables reduced)) →
  Cnf.propagate reduced [(Some v, VBool b)] = (new, Return propagated) →
  Cnf.clauses new ≠ [] →
  Solver.dpll new = Return d → NoDup (Dict.keys d) →
  Dict.get None d = Some VNone →
  ∃ d', Solver.branch Solver.dpll reduced vars (Some v) (VBool b) = Return d' ∧
        Dict.get None d' = Some VNone.
Proof.
  intros Hwf Hc Hv Hprop Hnew Hdpll Hnd Hnone.
  destruct (propagate_spec False reduced [(Some v, VBool b)])
    as [_ Hpost]; try done.
  { intros k x [= -> ->]%list_elem_of_singleton. eauto. }
  { apply NoDup_singleton. }
  { intros k ->%list_elem_of_singleton. eauto. }
  rewrite Hprop in Hpost. simpl in Hpost. destruct Hpost as (Htyped & _).
  unfold Solver.branch. rewrite cnf_copy_eq, Hprop.
  rewrite decide_False by (intros ?%nil_length_inv; done).
  rewrite Hdpll. eexists. split; [done|].
  rewrite get_merge by by apply NoDup_keys_merge.
  rewrite get_merge_notin by by apply typed_no_None.
  by rewrite Hnone.
Qed.

Lemma dpll_calls_none formula inner reduced vars :
  well_formed formula →
  Cnf.clauses formula = [] ∨
    counted None (Cnf.variables formula) (lits (Cnf.clauses formula)) →
  dpll_calls formula inner →
  Cnf.unit_propagate inner = (reduced, Return vars) →
  Cnf.variables reduced = [] →
  ∃ d, Solver.dpll formula = Return d ∧ Dict.get None d = Some VNone.
Proof.
  intros Hwf Hc Hcalls Hunit Hidx. revert Hwf Hc.
  induction Hcalls as
    [ formula
    | formula reduced0 vars0 var assume new propagated inner
        Hunit0 Hdl Hprop Hnew Hcalls IH
    | formula reduced0 vars0 var assume new propagated inner
        Hunit0 Hdl Hfirst Hprop Hnew Hcalls IH ];
    intros Hwf Hc.
  - destruct (empty_index_solved _ _ _ Hwf Hc Hunit Hidx) as [Hcls Htyped].
    rewrite (dpll_no_clauses _ _ _ Hunit Hcls), Hidx. eexists. split; [done|].
    rewrite get_merge_notin by by apply typed_no_None. done.
  - rewrite cnf_copy_eq in Hprop.
    assert (Cnf.clauses reduced0 ≠ []) as Hcls.
    { intros Hnil.
      destruct (propagate_no_clauses reduced0 var assume Hnil) as (? & Heq & ?).
      congruence. }
    destruct (dpll_unfold _ _ _ Hwf Hc Hunit0 Hcls)
      as (v & g & Hdl' & Hv & Hpost & ->).
    rewrite Hdl in Hdl'. injection Hdl' as -> ->.
    destruct Hpost as (_ & _ & _ & _ & Hwf0 & Hc0 & _).
    destruct Hc0 as [?|[Hc0 _]]; [done|].
    destruct (propagate_spec False reduced0 [(Some v, VBool g)])
      as [_ Hpost']; try done.
    { intros k x [= -> ->]%list_elem_of_singleton. eauto. }
    { apply NoDup_singleton. }
    { intros k ->%list_elem_of_singleton. eauto. }
    rewrite Hprop in Hpost'. simpl in Hpost'.
    destruct Hpost' as (_ & _ & _ & _ & Hwf' & Hc' & _).
    assert (Cnf.clauses new = [] ∨
            counted None (Cnf.variables new) (lits (Cnf.clauses new))) as Hc''
      by (destruct Hc' as [?|[? _]]; auto).
    destruct (IH Hunit Hwf' Hc'') as (d & Hdpll & Hnone).
    pose proof (dpll_spec new Hwf' Hc'') as Hd. rewrite Hdpll in Hd.
    destruct Hd as (Hnd & _).
    destruct (branch_none _ vars0 _ _ _ _ _ Hwf0 Hc0 Hv Hprop Hnew Hdpll Hnd Hnone)
      as (d' & -> & ?). eauto.
  - rewrite cnf_copy_eq in Hprop.
    assert (Cnf.clauses reduced0 ≠ []) as Hcls.
    { intros Hnil.
      destruct (propagate_no_clauses reduced0 var (py_not assume) Hnil)
        as (? & Heq & ?).
      congruence. }
    destruct (dpll_unfold _ _ _ Hwf Hc Hunit0 Hcls)
      as (v & g & Hdl' & Hv & Hpost & ->).
    rewrite Hdl in Hdl'. injection Hdl' as -> ->.
    rewrite Hfirst. change (py_not (VBool g)) with (VBool (negb g)) in Hprop.
    destruct Hpost as (_ & _ & _ & _ & Hwf0 & Hc0 & _).
    destruct Hc0 as [?|[Hc0 _]]; [done|].
    destruct (propagate_spec False reduced0 [(Some v, VBool (negb g))])
      as [_ Hpost']; try done.
    { intros k x [= -> ->]%list_elem_of_singleton. eauto. }
    { apply NoDup_singleton. }
    { intros k ->%list_elem_of_singleton. eauto. }
    rewrite Hprop in Hpost'. simpl in Hpost'.
    destruct Hpost' as (_ & _ & _ & _ & Hwf' & Hc' & _).
    assert (Cnf.clauses new = [] ∨
            counted None (Cnf.variables new) (lits (Cnf.clauses new))) as Hc''
      by (destruct Hc' as [?|[? _]]; auto).
    destruct (IH Hunit Hwf' Hc'') as (d & Hdpll & Hnone).
    pose proof (dpll_spec new Hwf' Hc'') as Hd. rewrite Hdpll in Hd.
    destruct Hd as (Hnd & _).
    destruct (branch_none _ vars0 _ _ _ _ _ Hwf0 Hc0 Hv Hprop Hnew Hdpll Hnd Hnone)
      as (d' & -> & ?). eauto.
Qed.

(** C10, as the code has it.  Whenever a [dpll] call made while solving
    reaches the branching step with an empty occurrence index, the heuristic
    returns [(None, None)] and the map that [solve] returns binds the key
    [None] to [None]. *)
Theorem empty_index_adds_none set_iter clause_list N formula0 formula vars0
    inner reduced vars :
  (∀ c, c ∈ set_iter clause_list → NoDup (Dict.keys (Clause.variables c))) →
  Cnf.from_list set_iter clause_list N = Return formula0 →
  Cnf.propagate formula0 (Solver.pure_variables (Cnf.variables formula0))
    = (formula, Return vars0) →
  dpll_calls formula inner →
  Cnf.unit_propagate inner = (reduced, Return vars) →
  Cnf.variables reduced = [] →
  Solver.dynamic_largest (Cnf.variables reduced) = (None, VNone) ∧
  ∃ m, Solver.solve formula0 = Return m ∧ Dict.get None m = Some VNone.
Proof.
  intros Hcls Hfrom Hprop Hcalls Hunit Hidx. split; [by rewrite Hidx|].
  destruct (from_list_counted _ _ _ _ Hfrom Hcls) as (_ & Hwf0 & Hc0).
  destruct (propagate_spec False formula0
              (Solver.pure_variables (Cnf.variables formula0)))
    as [_ Hpost]; try done.
  { apply typed_pure_variables. }
  { apply NoDup_pure_variables. }
  { intros k (w & -> & Hw)%pure_variables_keys. exists w. split; [done|].
    by apply get_is_Some_keys. }
  rewrite Hprop in Hpost. simpl in Hpost.
  destruct Hpost as (Htyped & _ & _ & _ & Hwf & Hc & _).
  destruct (dpll_calls_none formula inner reduced vars) as (d & Hdpll & Hnone);
    try done.
  { destruct Hc as [?|[? _]]; auto. }
  unfold Solver.solve. rewrite Hprop, Hdpll. eexists. split; [done|].
  rewrite get_merge_notin by by apply typed_no_None. done.
Qed.

Lemma empty_index_adds_none_witness :
  ∃ m, Solver.solve
         (Cnf.mk [(1, (1, 1)); (2, (0, 1))]
            [Clause.mk [(1, true)]; Clause.mk [(1, false); (2, true)]])
       = Return m ∧ Dict.get None m = Some VNone.
Proof.
  apply (empty_index_adds_none (λ l, l)
           [Clause.mk [(1, true)]; Clause.mk [(1, false); (2, true)]] 2
           (Cnf.mk [(1, (1, 1)); (2, (0, 1))]
              [Clause.mk [(1, true)]; Clause.mk [(1, false); (2, true)]])
           (Cnf.mk [] []) [(Some 2, VBool true); (Some 1, VBool true)]
           (Cnf.mk [] []) (Cnf.mk [] []) []).
  - check_clauses.
  - reflexivity.
  - reflexivity.
  - apply calls_here.
  - reflexivity.
  - reflexivity.
Defined.

(** C10, as the claim has it, fails.  With the clauses {1}, {-1, 2},
    {-2, 1} no variable is pure; unit propagation of 1 = true drops the
    first and the third clause and turns the second into the unit clause
    {2}, which is dropped with 2 = true queued.  No clause is left, but
    variable 2 is still in the index: the heuristic returns it and the map
    of [solve] has no key [None]. *)
Lemma solved_without_none :
  ¬ (∀ (lists : list (list Z)) (N : Z) formula reduced vars solved vars',
       Cnf.from_list (λ l, l) (map (Clause.from_list (λ l, l)) lists) N
       = Return formula →
       Cnf.propagate formula (Solver.pure_variables (Cnf.variables formula))
       = (reduced, Return vars) →
       Cnf.unit_propagate reduced = (solved, Return vars') →
       Cnf.clauses solved = [] →
       ∃ m, Solver.solve formula = Return m ∧ Dict.get None m = Some VNone).
Proof.
  intros Hall.
  destruct (Hall [[1]; [-1; 2]; [-2; 1]] 2 _ _ _ _ _
              eq_refl eq_refl eq_refl eq_refl) as (m & Hsolve & Hnone).
  vm_compute in Hsolve. injection Hsolve as <-. done.
Qed.

(** ** Copies share nothing with the original *)

Lemma prefix_insert_ge {A} (l0 l : list A) i x :
  l0 `prefix_of` l → (length l0 ≤ i)%nat → l0 `prefix_of` <[i:=x]> l.
Proof.
  intros [k ->] Hi. exists (<[(i - length l0)%nat := x]> k).
  by rewrite insert_app_r_alt.
Qed.

Lemma prefix_lookup_total {A} `{Inhabited A} (l0 l : list A) i :
  l0 `prefix_of` l → (i < length l0)%nat → l !!! i = l0 !!! i.
Proof.
  intros [k ->] Hi. by rewrite lookup_total_app_l.
Qed.

Lemma extends_refl h : Store.extends h h.
Proof. by repeat split. Qed.

Lemma extends_trans h1 h2 h3 :
  Store.extends h1 h2 → Store.extends h2 h3 → Store.extends h1 h3.
Proof.
  intros (? & ? & ? & ?) (? & ? & ? & ?). repeat split; by etrans.
Qed.

Lemma extends_set_dict h0 h d items :
  Store.extends h0 h → (length (Store.dicts h0) ≤ d)%nat →
  Store.extends h0 (Store.set_dict h d items).
Proof.
  intros (? & ? & ? & ?) Hd. repeat split; try done.
  by apply prefix_insert_ge.
Qed.

Lemma extends_set_index h0 h idx items :
  Store.extends h0 h → (length (Store.indexes h0) ≤ idx)%nat →
  Store.extends h0 (Store.set_index h idx items).
Proof.
  intros (? & ? & ? & ?) Hd. repeat split; try done.
  by apply prefix_insert_ge.
Qed.

Lemma extends_set_clauses h0 h self cls :
  Store.extends h0 h → (length (Store.cnfs h0) ≤ self)%nat →
  Store.extends h0 (Store.set_clauses h self cls).
Proof.
  intros (? & ? & ? & ?) Hd. repeat split; try done.
  by apply prefix_insert_ge.
Qed.

Lemma store_drop_literals_frame h0 h idx assume_var items q :
  Store.extends h0 h → (length (Store.indexes h0) ≤ idx)%nat →
  let r := Store.drop_literals h idx assume_var items q in
  Store.extends h0 r.1.1 ∧
  Store.clause_objs r.1.1 = Store.clause_objs h ∧
  Store.cnfs r.1.1 = Store.cnfs h.
Proof.
  intros Hext Hidx. unfold Store.drop_literals.
  destruct (Cnf.drop_literals _ _ _ _) as [[variables' q'] e]. simpl.
  split; [by apply extends_set_index | done].
Qed.

Lemma store_scan_frame h0 h idx assume_var assume_val cls q :
  Store.extends h0 h → (length (Store.indexes h0) ≤ idx)%nat →
  (∀ c, c ∈ cls → (length (Store.dicts h0) ≤ Store.dict_of h c)%nat) →
  let r := Store.scan h idx assume_var assume_val cls q in
  Store.extends h0 (Store.heap r) ∧
  Store.clause_objs (Store.heap r) = Store.clause_objs h ∧
  Store.cnfs (Store.heap r) = Store.cnfs h ∧
  (∀ c, c ∈ Store.kept r → c ∈ cls).
Proof.
  revert h q. induction cls as [|c cls IH]; intros h q Hext Hidx Hcls; simpl.
  { split_and!; try done. }
  assert (∀ h' q',
            Store.extends h0 h' →
            Store.clause_objs h' = Store.clause_objs h →
            Store.cnfs h' = Store.cnfs h →
            let r := Store.scan h' idx assume_var assume_val cls q' in
            Store.extends h0 (Store.heap r) ∧
            Store.clause_objs (Store.heap r) = Store.clause_objs h ∧
            Store.cnfs (Store.heap r) = Store.cnfs h ∧
            (∀ c', c' ∈ Store.kept r → c' ∈ c :: cls)) as Hrest.
  { intros h' q' Hext' Hco Hcn.
    destruct (IH h' q' Hext' Hidx) as (? & Hco' & Hcn' & Hk).
    { intros c' Hc'. unfold Store.dict_of. rewrite Hco. apply Hcls. by right. }
    split_and!; [done|congruence|congruence|]. intros c' Hc'. right. auto. }
  assert (∀ h' q',
            Store.extends h0 h' →
            Store.clause_objs h' = Store.clause_objs h →
            Store.cnfs h' = Store.cnfs h →
            let r := Store.scan h' idx assume_var assume_val cls q' in
            Store.extends h0 (Store.heap r) ∧
            Store.clause_objs (Store.heap r) = Store.clause_objs h ∧
            Store.cnfs (Store.heap r) = Store.cnfs h ∧
            (∀ c', c' ∈ c :: Store.kept r → c' ∈ c :: cls)) as Hkeep.
  { intros h' q' Hext' Hco Hcn.
    destruct (Hrest h' q' Hext' Hco Hcn) as (? & ? & ? & Hk).
    split_and!; try done. intros c' [->|?]%elem_of_cons; [left | auto]. }
  destruct (Cnf.clause_get _ _) as [clause_var|]; [|by apply Hkeep].
  destruct (py_eq _ _).
  - pose proof (store_drop_literals_frame h0 h idx assume_var
                  (Store.clause_items h c) q Hext Hidx) as Hdrop.
    destruct (Store.drop_literals _ _ _ _ _) as [[h' q'] [e|]];
      simpl in Hdrop; destruct Hdrop as (? & ? & ?).
    + simpl. split_and!; try done. intros c' []%elem_of_nil.
    + by apply Hrest.
  - assert (Store.extends h0
              (Store.set_dict h (Store.dict_of h c)
                 (Cnf.clause_del assume_var (Store.clause_items h c)))) as Hext'.
    { apply extends_set_dict; [done|]. apply Hcls. left. }
    destruct (Cnf.clause_del assume_var (Store.clause_items h c))
      as [|[var par] [|e2 rest]]; simpl.
    + split_and!; try done. intros c' []%elem_of_nil.
    + destruct (Dict.get (Some var) q) as [[| |]|];
        try destruct (negb _); simpl;
        try (by apply Hrest);
        split_and!; try done; intros c' []%elem_of_nil.
    + by apply Hkeep.
Qed.

Lemma fresh_same h0 h h' self :
  Store.fresh h0 h self →
  Store.clause_objs h' = Store.clause_objs h →
  Store.cnfs h' = Store.cnfs h →
  Store.fresh h0 h' self.
Proof.
  unfold Store.fresh, Store.cnf_at, Store.dict_of. by intros ? -> ->.
Qed.

Lemma fresh_set_clauses h0 h self cls :
  Store.fresh h0 h self →
  (∀ c, c ∈ cls → c ∈ (Store.cnf_at h self).2) →
  Store.fresh h0 (Store.set_clauses h self cls) self.
Proof.
  intros (Hself & Hidx & Hcls) Hsub.
  unfold Store.fresh, Store.cnf_at, Store.dict_of in *. simpl.
  destruct (decide (self < length (Store.cnfs h))%nat) as [Hlt|Hge].
  - rewrite !list_lookup_total_insert_eq by done. simpl. split_and!; auto.
  - rewrite list_insert_ge by lia. done.
Qed.

Lemma store_propagate_loop_frame h0 fuel h self q A :
  Store.extends h0 h → Store.fresh h0 h self →
  let r := Store.propagate_loop fuel h self q A in
  Store.extends h0 r.1 ∧ Store.fresh h0 r.1 self.
Proof.
  revert h q A. induction fuel as [|fuel IH]; intros h q A Hext Hfresh; simpl;
    [done|].
  destruct (Dict.popitem q) as [[[assume_var assume_val] rest]|]; [|done].
  destruct (Store.cnf_at h self) as [idx cls] eqn:Hself.
  destruct (Cnf.del_assumed _ _) as [variables'|]; [|by apply IH].
  pose proof Hfresh as (Hs & Hidx & Hcls). rewrite Hself in Hidx, Hcls.
  simpl in Hidx, Hcls.
  pose proof (store_scan_frame h0 (Store.set_index h idx variables') idx
                assume_var assume_val cls rest
                (extends_set_index _ _ _ _ Hext Hidx) Hidx Hcls)
    as (Hext' & Hco & Hcn & Hkept).
  simpl in Hco, Hcn.
  assert (Store.fresh h0
            (Store.heap (Store.scan (Store.set_index h idx variables') idx
                           assume_var assume_val cls rest)) self) as Hfresh'
    by (by eapply fresh_same).
  destruct (Store.raised _); [done|].
  assert (Store.fresh h0
            (Store.set_clauses
               (Store.heap (Store.scan (Store.set_index h idx variables') idx
                              assume_var assume_val cls rest)) self
               (Store.kept (Store.scan (Store.set_index h idx variables') idx
                              assume_var assume_val cls rest))) self).
  { apply fresh_set_clauses; [done|].
    unfold Store.cnf_at in Hself |- *. rewrite Hcn, Hself. done. }
  case_decide; simpl.
  - split; [by apply extends_set_clauses | done].
  - apply IH; [by apply extends_set_clauses | done].
Qed.

Lemma store_propagate_frame h0 h self q :
  Store.extends h0 h → Store.fresh h0 h self →
  let r := Store.propagate h self q in
  Store.extends h0 r.1 ∧ Store.fresh h0 r.1 self.
Proof. apply store_propagate_loop_frame. Qed.

Lemma store_unit_propagate_loop_frame h0 fuel h self assigned :
  Store.extends h0 h → Store.fresh h0 h self →
  let r := Store.unit_propagate_loop fuel h self assigned in
  Store.extends h0 r.1 ∧ Store.fresh h0 r.1 self.
Proof.
  revert h assigned. induction fuel as [|fuel IH];
    intros h assigned Hext Hfresh; simpl; [done|].
  case_decide; [done|].
  destruct (Cnf.first_unit _) as [|var par|]; try done.
  pose proof (store_propagate_frame h0 h self [(Some var, VBool par)]
                Hext Hfresh) as Hprop.
  destruct (Store.propagate h self _) as [h' [prop|e|]]; simpl in Hprop;
    try done.
  destruct Hprop. by apply IH.
Qed.

Lemma store_runs_frame h0 h self l :
  Store.extends h0 h → Store.fresh h0 h self →
  Store.extends h0 (Store.runs h self l) ∧
  Store.fresh h0 (Store.runs h self l) self.
Proof.
  revert h. induction l as [|c l IH]; intros h Hext Hfresh; [done|].
  simpl. apply IH; destruct c; simpl;
    first [by apply store_propagate_frame
          | by apply store_unit_propagate_loop_frame].
Qed.

(** *** What a copy allocates *)

Lemma clause_copy_extends h c : Store.extends h (Store.clause_copy h c).1.
Proof. repeat split; simpl; try done; by apply prefix_app_r. Qed.

Lemma clauses_copy_fresh h0 h cls :
  Store.extends h0 h →
  let r := Store.clauses_copy h cls in
  Store.extends h r.1 ∧
  Store.indexes r.1 = Store.indexes h ∧
  Store.cnfs r.1 = Store.cnfs h ∧
  ∀ c, c ∈ r.2 → (length (Store.dicts h0) ≤ Store.dict_of r.1 c)%nat.
Proof.
  revert h. induction cls as [|c cls IH]; intros h Hext; simpl.
  { split_and!; [apply extends_refl|done|done|]. intros c []%elem_of_nil. }
  pose proof (clause_copy_extends h c) as Hstep. unfold Store.clause_copy in *.
  simpl in Hstep. set (h1 := Store.mk _ _ _ _) in *.
  destruct (IH h1 (extends_trans _ _ _ Hext Hstep)) as (Hext' & Hi & Hc & Hr).
  destruct (Store.clauses_copy h1 cls) as [h2 r]. simpl in *.
  split_and!; [by eapply extends_trans|done|done|].
  intros c' [->|Hc']%elem_of_cons; [|by apply Hr].
  destruct Hext' as (_ & _ & Hco & _). unfold Store.dict_of.
  rewrite (prefix_lookup_total _ _ _ Hco) by (simpl; rewrite length_app; simpl; lia).
  simpl. rewrite lookup_total_app_r by done. rewrite Nat.sub_diag. simpl.
  destruct Hext as (Hd & _). apply prefix_length in Hd. done.
Qed.

Lemma cnf_copy_fresh h f :
  let r := Store.cnf_copy h f in
  Store.extends h r.1 ∧ Store.fresh h r.1 r.2.
Proof.
  unfold Store.cnf_copy. destruct (Store.cnf_at h f) as [idx cls].
  set (h1 := Store.mk _ _ _ _).
  assert (Store.extends h h1) as Hext.
  { repeat split; simpl; try done. by apply prefix_app_r. }
  destruct (clauses_copy_fresh h h1 cls Hext) as (Hext' & Hi & Hc & Hr).
  destruct (Store.clauses_copy h1 cls) as [h2 cls']. simpl in *.
  assert (Store.extends h h2) as Hext2 by (by eapply extends_trans).
  split.
  - destruct Hext2 as (? & ? & ? & ?). repeat split; simpl; try done.
    etrans; [done|]. by apply prefix_app_r.
  - unfold Store.fresh, Store.cnf_at, Store.dict_of. simpl.
    rewrite !lookup_total_app_r, !Nat.sub_diag by done. simpl.
    split_and!; [|done|done].
    rewrite Hc. done.
Qed.

(** *** What an extension keeps *)

Lemma extends_cnf_at h h' f :
  Store.extends h h' → (f < length (Store.cnfs h))%nat →
  Store.cnf_at h' f = Store.cnf_at h f.
Proof. intros (_ & _ & _ & ?) ?. by apply prefix_lookup_total. Qed.

Lemma extends_index_at h h' idx :
  Store.extends h h' → (idx < length (Store.indexes h))%nat →
  Store.index_at h' idx = Store.index_at h idx.
Proof. intros (_ & ? & _ & _) ?. by apply prefix_lookup_total. Qed.

Lemma extends_dict_of h h' c :
  Store.extends h h' → (c < length (Store.clause_objs h))%nat →
  Store.dict_of h' c = Store.dict_of h c.
Proof. intros (_ & _ & ? & _) ?. by apply prefix_lookup_total. Qed.

Lemma extends_clause_items h h' c d :
  Store.extends h h' →
  Store.clause_objs h !! c = Some d → is_Some (Store.dicts h !! d) →
  Store.clause_items h' c = Store.clause_items h c.
Proof.
  intros Hext Hc Hd. unfold Store.clause_items.
  rewrite (extends_dict_of h h') by (done || by eapply lookup_lt_Some).
  destruct Hext as (? & _). apply prefix_lookup_total; [done|].
  unfold Store.dict_of. rewrite (list_lookup_total_correct _ _ _ Hc).
  by apply lookup_lt_is_Some.
Qed.

Lemma extends_load h h' f :
  Store.extends h h' → Store.valid h f → Store.load h' f = Store.load h f.
Proof.
  intros Hext (idx & cls & Hf & Hidx & Hcls). unfold Store.load.
  rewrite (extends_cnf_at h h') by (done || by eapply lookup_lt_Some).
  unfold Store.cnf_at at 1 2. rewrite (list_lookup_total_correct _ _ _ Hf).
  rewrite (extends_index_at h h') by (done || by apply lookup_lt_is_Some).
  f_equal. apply map_ext_in. intros c Hc%list_elem_of_In.
  destruct (Hcls c Hc) as (d & ? & ?). f_equal. by eapply extends_clause_items.
Qed.


(** *** A copy has the value of the original *)

Lemma clauses_copy_items h cls :
  (∀ c, c ∈ cls →
     ∃ d, Store.clause_objs h !! c = Some d ∧ is_Some (Store.dicts h !! d)) →
  let r := Store.clauses_copy h cls in
  map (Store.clause_items r.1) r.2 = map (Store.clause_items h) cls.
Proof.
  revert h. induction cls as [|c cls IH]; intros h Hcls; simpl; [done|].
  pose proof (clause_copy_extends h c) as Hstep. unfold Store.clause_copy in *.
  simpl in Hstep. set (h1 := Store.mk _ _ _ _) in *.
  assert (∀ c0, c0 ∈ cls →
            ∃ d, Store.clause_objs h1 !! c0 = Some d ∧
                 is_Some (Store.dicts h1 !! d)) as Hcls1.
  { intros c0 Hc0. destruct (Hcls c0) as (d & Hd & [x Hx]); [by right|].
    exists d. destruct Hstep as (Hp1 & _ & Hp2 & _). split.
    - by eapply prefix_lookup_Some.
    - exists x. by eapply prefix_lookup_Some. }
  pose proof (IH h1 Hcls1) as Hrec.
  pose proof (clauses_copy_fresh h1 h1 cls (extends_refl h1)) as (Hext & _).
  destruct (Store.clauses_copy h1 cls) as [h2 r]. simpl in *.
  f_equal.
  - rewrite (extends_clause_items h1 h2 _ (length (Store.dicts h))); first last.
    + exists (Store.clause_items h c). simpl. by apply list_lookup_middle.
    + simpl. by apply list_lookup_middle.
    + done.
    + unfold Store.clause_items at 1, Store.dict_of. simpl.
      rewrite (list_lookup_total_middle (Store.clause_objs h)) by done.
      by rewrite list_lookup_total_middle.
  - rewrite Hrec. apply map_ext_in. intros c0 Hc0%list_elem_of_In.
    destruct (Hcls c0) as (d & Hd & Hx); [by right|].
    by eapply extends_clause_items.
Qed.

Lemma cnf_copy_load h f :
  Store.valid h f →
  let r := Store.cnf_copy h f in
  Store.load r.1 r.2 = Store.load h f.
Proof.
  intros (idx & cls & Hf & Hidx & Hcls).
  assert (Store.cnf_at h f = (idx, cls)) as Hat
    by apply (list_lookup_total_correct _ _ _ Hf).
  unfold Store.cnf_copy. rewrite Hat.
  set (h1 := Store.mk _ _ _ _).
  pose proof (clauses_copy_items h1 cls Hcls) as Hitems.
  pose proof (clauses_copy_fresh h1 h1 cls (extends_refl h1)) as (_ & Hi & _).
  destruct (Store.clauses_copy h1 cls) as [h2 cls']. simpl in *.
  unfold Store.load. rewrite Hat.
  unfold Store.cnf_at. simpl. rewrite list_lookup_total_middle by done.
  f_equal.
  - unfold Store.index_at at 1. simpl. rewrite Hi. simpl.
    by rewrite list_lookup_total_middle.
  - change (map (λ c, Clause.mk (Store.clause_items h2 c)) cls' =
            map (λ c, Clause.mk (Store.clause_items h1 c)) cls).
    rewrite <- (List.map_map (Store.clause_items h2) Clause.mk).
    rewrite <- (List.map_map (Store.clause_items h1) Clause.mk).
    by rewrite Hitems.
Qed.


(** *** Clone isolation *)

(** C8.  Let [new] be the object that [F.__copy__()] returns in the store
    [h], where [F] is the object [f].  The copy has the value of [F] and
    reaches only objects that the copy allocated.  After any sequence of
    [propagate] calls (with any queues) and [unit_propagate] calls on [new],
    raising or not, every object that existed before the copy is what it
    was: the clause list of [F] and its index reference, the index
    dictionary, the [Clause] objects and their dictionaries; so [F] has the
    value it had. *)
Theorem copy_isolated h f h1 new calls :
  Store.valid h f →
  Store.cnf_copy h f = (h1, new) →
  let h2 := Store.runs h1 new calls in
  Store.load h1 new = Store.load h f ∧
  Store.fresh h h1 new ∧
  Store.extends h h2 ∧
  Store.cnf_at h2 f = Store.cnf_at h f ∧
  Store.index_at h2 (Store.cnf_at h f).1 =
    Store.index_at h (Store.cnf_at h f).1 ∧
  (∀ c, c ∈ (Store.cnf_at h f).2 →
     Store.dict_of h2 c = Store.dict_of h c ∧
     Store.clause_items h2 c = Store.clause_items h c) ∧
  Store.load h2 f = Store.load h f.
Proof.
  intros Hvalid Hcopy h2.
  pose proof (cnf_copy_load h f Hvalid) as Hload.
  pose proof (cnf_copy_fresh h f) as (Hext & Hfresh).
  rewrite Hcopy in Hload, Hext, Hfresh. simpl in Hload, Hext, Hfresh.
  destruct (store_runs_frame h h1 new calls Hext Hfresh) as (Hext2 & _).
  fold h2 in Hext2.
  pose proof Hvalid as (idx & cls & Hf & Hidx & Hcls).
  assert (Store.cnf_at h f = (idx, cls)) as Hat
    by apply (list_lookup_total_correct _ _ _ Hf).
  rewrite Hat. simpl.
  split_and!; try done.
  - rewrite (extends_cnf_at h h2) by (done || by eapply lookup_lt_Some).
    done.
  - apply extends_index_at; [done|]. by apply lookup_lt_is_Some.
  - intros c Hc. destruct (Hcls c Hc) as (d & Hd & Hx). split.
    + apply extends_dict_of; [done|]. by eapply lookup_lt_Some.
    + by eapply extends_clause_items.
  - by apply extends_load.
Qed.

Lemma copy_isolated_witness :
  Store.load
    (Store.runs
       (Store.cnf_copy
          (Store.mk [[(1, true); (2, true)]; [(1, false)]]
                 [[(1, (1, 1)); (2, (0, 1))]]
                 [0; 1]%nat [(0, [0; 1])]%nat) 0%nat).1 1%nat
       [Store.CallUnitPropagate; Store.CallPropagate [(Some 2, VBool false)]])
    0%nat
  = Cnf.mk [(1, (1, 1)); (2, (0, 1))]
           [Clause.mk [(1, true); (2, true)]; Clause.mk [(1, false)]].
Proof.
  apply (copy_isolated
           (Store.mk [[(1, true); (2, true)]; [(1, false)]]
                 [[(1, (1, 1)); (2, (0, 1))]]
                 [0; 1]%nat [(0, [0; 1])]%nat)
           0%nat
           (Store.cnf_copy
              (Store.mk [[(1, true); (2, true)]; [(1, false)]]
                 [[(1, (1, 1)); (2, (0, 1))]]
                 [0; 1]%nat [(0, [0; 1])]%nat) 0%nat).1
           1%nat
           [Store.CallUnitPropagate;
            Store.CallPropagate [(Some 2, VBool false)]]).
  - exists 0%nat, [0; 1]%nat. split; [reflexivity|]. split; [by eexists|].
    intros c Hc. apply list_elem_of_In in Hc.
    destruct Hc as [<-|[<-|[]]]; eexists; (split; [reflexivity|by eexists]).
  - reflexivity.
Defined.

(** In that run the calls do change the copy: [unit_propagate] deletes [1]
    from its index and from its clause [{1: True, 2: True}], and rebinds its
    clause list to the empty list. *)
Example copy_is_changed :
  Store.load
    (Store.runs
       (Store.cnf_copy
          (Store.mk [[(1, true); (2, true)]; [(1, false)]]
                 [[(1, (1, 1)); (2, (0, 1))]]
                 [0; 1]%nat [(0, [0; 1])]%nat) 0%nat).1 1%nat
       [Store.CallUnitPropagate])
    1%nat
  = Cnf.mk [(2, (0, 1))] [].
Proof. reflexivity. Qed.


(** ** The object model and the value model agree *)

Lemma writes_refl h ds : Store.writes h h ds.
Proof. by repeat split. Qed.

Lemma writes_trans h1 h2 h3 ds1 ds2 ds :
  Store.writes h1 h2 ds1 → Store.writes h2 h3 ds2 →
  (∀ d, d ∈ ds1 → d ∈ ds) → (∀ d, d ∈ ds2 → d ∈ ds) →
  Store.writes h1 h3 ds.
Proof.
  intros (Hco1 & Hcn1 & Hi1 & Hd1 & Hf1) (Hco2 & Hcn2 & Hi2 & Hd2 & Hf2) H1 H2.
  split_and!; try congruence.
  intros d Hd. rewrite Hf2, Hf1; [done|..]; intros ?; apply Hd; auto.
Qed.

Lemma writes_set_index h idx items :
  Store.writes h (Store.set_index h idx items) [].
Proof. split_and!; simpl; try done. by rewrite length_insert. Qed.

Lemma writes_set_dict h d items :
  Store.writes h (Store.set_dict h d items) [d].
Proof.
  split_and!; simpl; try done; [by rewrite length_insert|].
  intros d' Hd'. apply list_lookup_total_insert_ne.
  intros ->. apply Hd'. by left.
Qed.

Lemma writes_dict_of h h' ds c :
  Store.writes h h' ds → Store.dict_of h' c = Store.dict_of h c.
Proof. intros (Hco & _). unfold Store.dict_of. by rewrite Hco. Qed.

Lemma writes_items h h' ds c :
  Store.writes h h' ds → Store.dict_of h c ∉ ds →
  Store.clause_items h' c = Store.clause_items h c.
Proof.
  intros Hw Hc. unfold Store.clause_items.
  rewrite (writes_dict_of h h' ds) by done. destruct Hw as (_ & _ & _ & _ & Hf).
  by apply Hf.
Qed.

Lemma writes_view h h' ds cls :
  Store.writes h h' ds →
  (∀ c, c ∈ cls → Store.dict_of h c ∉ ds) →
  Store.view h' cls = Store.view h cls.
Proof.
  intros Hw Hcls. unfold Store.view. apply map_ext_in.
  intros c Hc%list_elem_of_In. f_equal. eapply writes_items; eauto.
Qed.

Lemma writes_map_dict_of h h' ds cls :
  Store.writes h h' ds →
  map (Store.dict_of h') cls = map (Store.dict_of h) cls.
Proof. intros Hw. apply map_ext. intros c. by eapply writes_dict_of. Qed.

Lemma writes_index_at h h' idx :
  Store.indexes h' = Store.indexes h →
  Store.index_at h' idx = Store.index_at h idx.
Proof. unfold Store.index_at. by intros ->. Qed.


Lemma writes_mono h h' ds ds' :
  Store.writes h h' ds → (∀ d, d ∈ ds → d ∈ ds') → Store.writes h h' ds'.
Proof.
  intros Hw Hsub. eapply writes_trans; [done|apply writes_refl|done|done].
Qed.

Lemma index_at_set_index h idx items :
  (idx < length (Store.indexes h))%nat →
  Store.index_at (Store.set_index h idx items) idx = items.
Proof. intros. unfold Store.index_at. simpl. by apply list_lookup_total_insert_eq. Qed.

Lemma clause_items_set_dict h c items :
  (Store.dict_of h c < length (Store.dicts h))%nat →
  Store.clause_items (Store.set_dict h (Store.dict_of h c) items) c = items.
Proof.
  intros. unfold Store.clause_items. simpl.
  change (Store.dict_of (Store.set_dict h (Store.dict_of h c) items) c)
    with (Store.dict_of h c).
  by apply list_lookup_total_insert_eq.
Qed.

#[local] Arguments Store.view : simpl never.
#[local] Arguments Store.clause_items : simpl never.
#[local] Arguments Store.index_at : simpl never.
#[local] Arguments Store.dict_of : simpl never.
#[local] Arguments Store.cnf_at : simpl never.

Lemma view_cons h c cls :
  Store.view h (c :: cls) = Clause.mk (Store.clause_items h c) :: Store.view h cls.
Proof. reflexivity. Qed.

(** The tail of a pass, started in a store that differs from [h] in the
    dictionary of the head clause at most. *)
Lemma store_scan_tail h h' idx av aval c cls q :
  (∀ h q,
     NoDup (map (Store.dict_of h) cls) →
     (idx < length (Store.indexes h))%nat →
     (∀ c, c ∈ cls → (Store.dict_of h c < length (Store.dicts h))%nat) →
     Store.scan_refines h idx cls
       (Store.scan h idx av aval cls q)
       (Cnf.scan av aval (Store.view h cls) (Store.index_at h idx) q)) →
  NoDup (map (Store.dict_of h) (c :: cls)) →
  (idx < length (Store.indexes h))%nat →
  (∀ c', c' ∈ c :: cls → (Store.dict_of h c' < length (Store.dicts h))%nat) →
  Store.writes h h' [Store.dict_of h c] →
  let r := Store.scan h' idx av aval cls q in
  Store.scan_refines h' idx cls r
    (Cnf.scan av aval (Store.view h cls) (Store.index_at h' idx) q) ∧
  Store.clause_items (Store.heap r) c = Store.clause_items h' c ∧
  Store.writes h (Store.heap r) (map (Store.dict_of h) (c :: cls)).
Proof.
  intros IH [Hc Hnd]%NoDup_cons Hidx Hcls Hw r.
  pose proof Hw as (Hco & Hcn & Hli & Hld & _).
  assert (Store.view h' cls = Store.view h cls) as Hview.
  { eapply writes_view; [done|].
    intros c' Hc' [Heq|[]%elem_of_nil]%elem_of_cons.
    apply Hc. rewrite <- Heq. apply list_elem_of_In, in_map.
    by apply list_elem_of_In. }
  assert (Store.scan_refines h' idx cls r
            (Cnf.scan av aval (Store.view h' cls) (Store.index_at h' idx) q))
    as Href.
  { apply IH.
    - by rewrite (writes_map_dict_of h h' _ cls Hw).
    - by rewrite Hli.
    - intros c' Hc'. rewrite (writes_dict_of h h' _ c' Hw), Hld.
      apply Hcls. by right. }
  rewrite Hview in Href. split; [done|].
  destruct Href as (_ & _ & _ & _ & _ & _ & Hw').
  rewrite (writes_map_dict_of h h' _ cls Hw) in Hw'. split.
  - eapply writes_items; [done|].
    by rewrite (writes_dict_of h h' _ c Hw).
  - eapply writes_trans; [done|done|..]; simpl.
    + intros d [->|[]%elem_of_nil]%elem_of_cons. by left.
    + intros d Hd. by right.
Qed.


Lemma store_scan_refines h idx av aval cls q :
  NoDup (map (Store.dict_of h) cls) →
  (idx < length (Store.indexes h))%nat →
  (∀ c, c ∈ cls → (Store.dict_of h c < length (Store.dicts h))%nat) →
  Store.scan_refines h idx cls
    (Store.scan h idx av aval cls q)
    (Cnf.scan av aval (Store.view h cls) (Store.index_at h idx) q).
Proof.
  revert h q. induction cls as [|c cls IH]; intros h q Hnd Hidx Hcls.
  { split_and!; try done; apply writes_refl. }
  pose proof (λ h', store_scan_tail h h' idx av aval c cls) as Htail.
  assert (Store.dict_of h c < length (Store.dicts h))%nat as Hd
    by (apply Hcls; by left).
  rewrite view_cons. simpl.
  destruct (Cnf.clause_get av _) as [clause_var|].
  2:{ destruct (Htail h q IH Hnd Hidx Hcls (writes_refl _ _)) as
        ((Hr & Hq & Hi & Hk & Ho & Hs & _) & Hc & Hw).
      split_and!; simpl; try done.
      - by rewrite view_cons, Hc, Hk.
      - by rewrite view_cons, Hc, Ho.
      - by apply sublist_skip. }
  destruct (py_eq _ _).
  - unfold Store.drop_literals.
    destruct (Cnf.drop_literals _ _ _ _) as [[variables' q'] e].
    assert (Store.writes h (Store.set_index h idx variables')
              [Store.dict_of h c]) as Hw0.
    { apply (writes_mono _ _ []); [apply writes_set_index|].
      intros d []%elem_of_nil. }
    destruct e as [e|].
    + split_and!; simpl; try done.
      * by apply index_at_set_index.
      * apply sublist_nil_l.
      * eapply writes_mono; [done|]. intros d Hd'. simpl.
        apply elem_of_cons in Hd' as [->|[]%elem_of_nil]. by left.
    + destruct (Htail _ q' IH Hnd Hidx Hcls Hw0) as
        ((Hr & Hq & Hi & Hk & Ho & Hs & _) & Hc & Hw).
      rewrite index_at_set_index in Hr, Hq, Hi, Hk, Ho by done.
      split_and!; simpl; try done.
      * by rewrite view_cons, Hc, Ho.
      * by apply sublist_cons.
  - remember (Cnf.clause_del av (Store.clause_items h c)) as shrunk eqn:Hshrunk.
    set (h' := Store.set_dict h (Store.dict_of h c) shrunk).
    assert (Store.writes h h' [Store.dict_of h c]) as Hw0
      by apply writes_set_dict.
    assert (Store.clause_items h' c = shrunk) as Hc0
      by (by apply clause_items_set_dict).
    assert (Store.view h' cls = Store.view h cls) as Hview.
    { eapply writes_view; [done|].
      intros c' Hc' [Heq|[]%elem_of_nil]%elem_of_cons.
      apply NoDup_cons in Hnd as [Hc _]. apply Hc. rewrite <- Heq.
      apply list_elem_of_In, in_map. by apply list_elem_of_In. }
    assert (∀ q' e,
              Store.scan_refines h idx (c :: cls)
                (Store.mk_pass h' [] q' (Some e))
                (Cnf.mk_pass (Clause.mk shrunk :: Store.view h cls) []
                   (Store.index_at h idx) q' (Some e))) as Hraise.
    { intros q' e. split_and!; simpl; try done.
      - by rewrite view_cons, Hc0, Hview.
      - apply sublist_nil_l.
      - eapply writes_mono; [done|]. intros d Hd'. simpl.
        apply elem_of_cons in Hd' as [->|[]%elem_of_nil]. by left. }
    assert (∀ q',
              let r := Store.scan h' idx av aval cls q' in
              let rv := Cnf.scan av aval (Store.view h cls)
                          (Store.index_at h idx) q' in
              Store.scan_refines h idx (c :: cls) r
                (Cnf.mk_pass (Clause.mk shrunk :: Cnf.old rv) (Cnf.kept rv)
                   (Cnf.index rv) (Cnf.queue rv) (Cnf.raised rv))) as Hdrop.
    { intros q'.
      destruct (Htail h' q' IH Hnd Hidx Hcls Hw0) as
        ((Hr & Hq & Hi & Hk & Ho & Hs & _) & Hc & Hw).
      split_and!; simpl; try done.
      - by rewrite view_cons, Hc, Hc0, Ho.
      - by apply sublist_cons. }
    destruct shrunk as [|[var par] [|e2 rest]]; simpl.
    + apply Hraise.
    + destruct (Dict.get (Some var) q) as [[|b|z]|];
        try destruct (negb _); first [apply Hraise | apply Hdrop].
    + destruct (Htail h' q IH Hnd Hidx Hcls Hw0) as
        ((Hr & Hq & Hi & Hk & Ho & Hs & _) & Hc & Hw).
      split_and!; simpl; try done.
      * by rewrite view_cons, Hc, Hc0, Hk.
      * by rewrite view_cons, Hc, Hc0, Ho.
      * by apply sublist_skip.
Qed.


Lemma load_at h self idx cls :
  Store.cnfs h !! self = Some (idx, cls) →
  Store.load h self = Cnf.mk (Store.index_at h idx) (Store.view h cls).
Proof.
  intros Hf. unfold Store.load.
  replace (Store.cnf_at h self) with (idx, cls); [done|].
  symmetry. by apply list_lookup_total_correct.
Qed.

Lemma separated_writes h h' ds self :
  Store.separated h self → Store.writes h h' ds → Store.separated h' self.
Proof.
  intros (idx & cls & Hf & Hidx & Hcls & Hnd) Hw.
  pose proof Hw as (Hco & Hcn & Hli & Hld & _).
  exists idx, cls. rewrite Hcn, Hli, Hco, Hld.
  rewrite (writes_map_dict_of h h' ds cls Hw). split_and!; try done.
  intros c Hc. rewrite (writes_dict_of h h' ds c Hw). by apply Hcls.
Qed.

Lemma separated_set_clauses h self idx cls cls' :
  Store.cnfs h !! self = Some (idx, cls) →
  Store.separated h self →
  cls' `sublist_of` cls →
  Store.cnfs (Store.set_clauses h self cls') !! self = Some (idx, cls') ∧
  Store.separated (Store.set_clauses h self cls') self.
Proof.
  intros Hf (idx0 & cls0 & Hf0 & Hidx & Hcls & Hnd) Hsub.
  assert (Some (idx0, cls0) = Some (idx, cls)) as [= -> ->]
    by exact (eq_trans (eq_sym Hf0) Hf).
  assert (Store.cnfs (Store.set_clauses h self cls') !! self = Some (idx, cls'))
    as Hf'.
  { unfold Store.set_clauses. simpl.
    rewrite list_lookup_insert_eq by (by eapply lookup_lt_Some).
    unfold Store.cnf_at. by rewrite (list_lookup_total_correct _ _ _ Hf). }
  split; [done|]. exists idx, cls'. split_and!; try done.
  - intros c Hc. apply Hcls. by eapply elem_of_sublist.
  - apply (sublist_NoDup _ (map (Store.dict_of h) cls)); [done|].
    by apply (fmap_sublist (Store.dict_of h)).
Qed.

Lemma store_propagate_loop_refines fuel h self q A :
  Store.separated h self →
  let r := Store.propagate_loop fuel h self q A in
  Cnf.propagate_loop fuel (Store.load h self) q A = (Store.load r.1 self, r.2) ∧
  Store.separated r.1 self.
Proof.
  revert h q A. induction fuel as [|fuel IH]; intros h q A Hsep; [done|].
  rewrite propagate_loop_S. simpl.
  destruct (Dict.popitem q) as [[[av aval] rest]|]; [|done].
  pose proof Hsep as (idx & cls & Hf & Hidx & Hcls & Hnd).
  replace (Store.cnf_at h self) with (idx, cls)
    by (symmetry; by apply list_lookup_total_correct).
  rewrite (load_at h self idx cls Hf). simpl.
  destruct (Cnf.del_assumed av _) as [variables'|].
  2:{ rewrite <- (load_at h self idx cls Hf). by apply IH. }
  set (h1 := Store.set_index h idx variables').
  assert (Store.writes h h1 []) as Hw1 by apply writes_set_index.
  assert (Store.separated h1 self) as Hsep1 by (by eapply separated_writes).
  destruct (store_scan_refines h1 idx av aval cls rest)
    as (Hr & Hq & Hi & Hk & Ho & Hs & Hw); try done.
  { simpl. by rewrite length_insert. }
  { intros c Hc. by apply Hcls. }
  unfold h1 in Hr, Hq, Hi, Hk, Ho. rewrite index_at_set_index in * by done.
  change (Store.view (Store.set_index h idx variables') cls)
    with (Store.view h cls) in *.
  fold h1 in Hr, Hq, Hi, Hk, Ho.
  set (r := Store.scan h1 idx av aval cls rest) in *.
  set (rv := Cnf.scan av aval (Store.view h cls) variables' rest) in *.
  assert (Store.separated (Store.heap r) self) as Hsep2
    by (by eapply separated_writes).
  assert (Store.cnfs (Store.heap r) !! self = Some (idx, cls)) as Hf2.
  { destruct Hw as (_ & -> & _). done. }
  rewrite <- Hr. destruct (Store.raised r) as [e|]; simpl.
  { split; [|done]. by rewrite (load_at _ _ _ _ Hf2), Hi, Ho. }
  destruct (separated_set_clauses _ _ _ _ (Store.kept r) Hf2 Hsep2 Hs)
    as (Hf3 & Hsep3).
  assert (Store.load (Store.set_clauses (Store.heap r) self (Store.kept r)) self
          = Cnf.mk (Cnf.index rv) (Cnf.kept rv)) as Hload.
  { rewrite (load_at _ _ _ _ Hf3), <- Hi, <- Hk. done. }
  assert (length (Cnf.kept rv) = length (Store.kept r)) as ->.
  { rewrite <- Hk. unfold Store.view. by rewrite length_map. }
  rewrite <- Hq. case_decide; simpl.
  - by rewrite Hload.
  - rewrite <- Hload. by apply IH.
Qed.


#[local] Arguments Cnf.propagate : simpl never.
#[local] Arguments Store.propagate : simpl never.

Lemma store_propagate_refines h self q :
  Store.separated h self →
  let r := Store.propagate h self q in
  Cnf.propagate (Store.load h self) q = (Store.load r.1 self, r.2) ∧
  Store.separated r.1 self.
Proof. apply store_propagate_loop_refines. Qed.

Lemma store_unit_propagate_loop_refines fuel h self assigned :
  Store.separated h self →
  let r := Store.unit_propagate_loop fuel h self assigned in
  Cnf.unit_propagate_loop fuel (Store.load h self) assigned
    = (Store.load r.1 self, r.2) ∧
  Store.separated r.1 self.
Proof.
  revert h assigned. induction fuel as [|fuel IH]; intros h assigned Hsep;
    [done|]. simpl.
  case_decide; [done|].
  destruct (Cnf.first_unit _) as [|var par|]; try done.
  destruct (store_propagate_refines h self [(Some var, VBool par)] Hsep)
    as (-> & Hsep').
  destruct (Store.propagate h self _) as [h' [prop|e|]]; simpl in *; try done.
  by apply IH.
Qed.

Lemma store_unit_propagate_refines h self :
  Store.separated h self →
  let r := Store.unit_propagate h self in
  Cnf.unit_propagate (Store.load h self) = (Store.load r.1 self, r.2) ∧
  Store.separated r.1 self.
Proof. apply store_unit_propagate_loop_refines. Qed.

(** *** A copy is separated *)

Lemma clauses_copy_seq h cls :
  let r := Store.clauses_copy h cls in
  length (Store.dicts r.1) = (length (Store.dicts h) + length cls)%nat ∧
  length (Store.clause_objs r.1)
    = (length (Store.clause_objs h) + length cls)%nat ∧
  r.2 = seq (length (Store.clause_objs h)) (length cls) ∧
  map (Store.dict_of r.1) r.2 = seq (length (Store.dicts h)) (length cls).
Proof.
  revert h. induction cls as [|c cls IH]; intros h; simpl.
  { split_and!; try done; lia. }
  unfold Store.clause_copy. set (h1 := Store.mk _ _ _ _).
  destruct (IH h1) as (Hd & Hc & Hr & Hm).
  pose proof (clauses_copy_fresh h1 h1 cls (extends_refl h1)) as (Hext & _).
  destruct (Store.clauses_copy h1 cls) as [h2 r]. simpl in *.
  rewrite !length_app in *. simpl in *.
  split_and!; [lia|lia|..].
  - rewrite Hr. f_equal. f_equal. lia.
  - rewrite Hm. f_equal; [|f_equal; lia].
    rewrite (extends_dict_of h1 h2) by (done || (simpl; rewrite length_app; simpl; lia)).
    unfold Store.dict_of. simpl. by rewrite list_lookup_total_middle.
Qed.

Lemma cnf_copy_separated h f :
  let r := Store.cnf_copy h f in Store.separated r.1 r.2.
Proof.
  unfold Store.cnf_copy. destruct (Store.cnf_at h f) as [idx cls].
  set (h1 := Store.mk _ _ _ _).
  destruct (clauses_copy_seq h1 cls) as (Hd & Hc & Hr & Hm).
  pose proof (clauses_copy_fresh h1 h1 cls (extends_refl h1)) as (_ & Hi & _).
  destruct (Store.clauses_copy h1 cls) as [h2 cls']. simpl in *.
  exists (length (Store.indexes h)), cls'. simpl. split_and!.
  - by apply list_lookup_middle.
  - rewrite Hi, length_app. simpl. lia.
  - intros c Hc'. split.
    + rewrite Hr in Hc'. apply list_elem_of_In, in_seq in Hc'. lia.
    + assert (Store.dict_of h2 c ∈ map (Store.dict_of h2) cls') as Hin
        by (apply list_elem_of_In, in_map; by apply list_elem_of_In).
      rewrite Hm in Hin. apply list_elem_of_In, in_seq in Hin.
      change (Store.dict_of (Store.mk (Store.dicts h2) (Store.indexes h2)
                (Store.clause_objs h2)
                (Store.cnfs h2 ++ [(length (Store.indexes h), cls')])) c)
        with (Store.dict_of h2 c). lia.
  - change (NoDup (map (Store.dict_of h2) cls')). rewrite Hm. apply NoDup_seq.
Qed.

(** [new = formula.__copy__(); new.propagate(var_queue)] on objects is the
    call of [Cnf.propagate] on the value of the copy, which is how
    [Solver.branch] has it. *)
Lemma copy_propagate_refines h f var_queue :
  Store.valid h f →
  let copied := Store.cnf_copy h f in
  let r := Store.propagate copied.1 copied.2 var_queue in
  Cnf.propagate (Cnf.__copy__ (Store.load h f)) var_queue
    = (Store.load r.1 copied.2, r.2) ∧
  Store.load r.1 f = Store.load h f.
Proof.
  intros Hvalid copied r.
  pose proof (cnf_copy_load h f Hvalid) as Hload.
  pose proof (cnf_copy_separated h f) as Hsep.
  pose proof (cnf_copy_fresh h f) as (Hext & Hfresh).
  fold copied in Hload, Hsep, Hext, Hfresh. simpl in Hload.
  destruct (store_propagate_refines copied.1 copied.2 var_queue Hsep)
    as (Hprop & _).
  destruct (store_propagate_frame h copied.1 copied.2 var_queue Hext Hfresh)
    as (Hext' & _).
  split.
  - by rewrite cnf_copy_eq, <- Hload.
  - by apply extends_load.
Qed.


(** * Further properties of the code *)

(** ** Cnf.propagate *)

(** X1.  On a formula whose index counts the occurrences in its clauses,
    [propagate] looks up only variables that the index holds: whatever the
    queue, the call does not raise [KeyError] (and it ends, so it returns
    or raises [UnsatisfiedException]). *)
Theorem propagate_no_key_error formula var_queue :
  well_formed formula → index_invariant formula →
  (Cnf.propagate formula var_queue).2 ≠ Raise KeyError ∧
  (Cnf.propagate formula var_queue).2 ≠ Diverge.
Proof.
  intros Hwf Hidx. split; [|apply propagate_ends].
  assert (loop_inv [] formula var_queue) as Hinv.
  { split_and!; [|done|by intros ?? []%elem_of_nil].
    rewrite app_nil_r. by apply index_invariant_counted. }
  pose proof (propagate_loop_counted
                (Cnf.propagate_fuel formula var_queue) [] formula var_queue []
                Hinv) as Hloop.
  cbv zeta in Hloop. unfold Cnf.propagate. intros Hraise.
  rewrite Hraise in Hloop. discriminate Hloop.
Qed.

Lemma propagate_no_key_error_witness :
  (Cnf.propagate (Cnf.mk [(1, (1, 1)); (2, (0, 1))]
                    [Clause.mk [(1, true); (2, true)]; Clause.mk [(1, false)]])
     [(Some 2, VBool false); (None, VNone)]).2 ≠ Raise KeyError ∧
  (Cnf.propagate (Cnf.mk [(1, (1, 1)); (2, (0, 1))]
                    [Clause.mk [(1, true); (2, true)]; Clause.mk [(1, false)]])
     [(Some 2, VBool false); (None, VNone)]).2 ≠ Diverge.
Proof.
  apply (propagate_no_key_error
           (Cnf.mk [(1, (1, 1)); (2, (0, 1))]
              [Clause.mk [(1, true); (2, true)]; Clause.mk [(1, false)]])).
  - check_well_formed.
  - check_index_invariant.
Defined.

(** The hypothesis is needed: with an index that misses a variable of a
    clause the lookup [self.variables[var]] fails. *)
Example propagate_key_error :
  (Cnf.propagate (Cnf.mk [(1, (0, 1))] [Clause.mk [(1, true); (2, true)]])
     [(Some 1, VBool true)]).2 = Raise KeyError.
Proof. reflexivity. Qed.


Lemma propagate_loop_unindexed fuel formula q A :
  (length q < fuel)%nat →
  (∀ k, k ∈ Dict.keys q → Cnf.del_assumed k (Cnf.variables formula) = None) →
  Cnf.propagate_loop fuel formula q A = (formula, Return (Dict.merge A (rev q))).
Proof.
  revert q A. induction fuel as [|fuel IH]; intros q A Hfuel Hq; [lia|].
  rewrite propagate_loop_S.
  destruct (Dict.popitem q) as [[[k x] q']|] eqn:Hpop.
  - apply popitem_Some in Hpop as ->. rewrite length_app in Hfuel.
    simpl in Hfuel. cbv zeta. rewrite Hq.
    + rewrite IH; [|lia|].
      * by rewrite rev_unit.
      * intros k' Hk'. apply Hq. unfold Dict.keys. rewrite map_app.
        apply elem_of_app. by left.
    + unfold Dict.keys. rewrite map_app. apply elem_of_app. right. by left.
  - by apply popitem_None in Hpop as ->.
Qed.

Lemma get_merge_rev {K V} `{EqDecision K} (k : K) (a q : dict K V) :
  Dict.get k (Dict.merge a (rev q)) =
    match Dict.get k q with Some v => Some v | None => Dict.get k a end.
Proof.
  revert a. induction q as [|[k' v] q IH]; intros a; [done|].
  simpl rev. rewrite merge_snoc, get_setitem. simpl. rewrite IH.
  by destruct (decide (k = k')).
Qed.

Lemma propagate_skips_unindexed formula var_queue :
  (∀ w, Some w ∈ Dict.keys var_queue →
        Dict.get w (Cnf.variables formula) = None) →
  ∃ assumptions,
    Cnf.propagate formula var_queue = (formula, Return assumptions) ∧
    ∀ k, Dict.get k assumptions = Dict.get k var_queue.
Proof.
  intros Hq. exists (Dict.merge [] (rev var_queue)). split.
  - apply propagate_loop_unindexed; [unfold Cnf.propagate_fuel; lia|].
    intros [w|] Hk; [|done]. simpl. unfold Dict.delitem. by rewrite Hq.
  - intros k. rewrite get_merge_rev. by destruct (Dict.get k var_queue).
Qed.

(** X2.  A queued variable that the index does not hold (the key [None]
    included) is recorded and skipped: when no queued variable is in the
    index, [propagate] leaves the formula as it is and returns the entries
    of the queue. *)
Theorem propagate_unindexed formula var_queue :
  (∀ w, Some w ∈ Dict.keys var_queue →
        Dict.get w (Cnf.variables formula) = None) →
  ∃ assumptions,
    Cnf.propagate formula var_queue = (formula, Return assumptions) ∧
    ∀ k, Dict.get k assumptions = Dict.get k var_queue.
Proof. apply propagate_skips_unindexed. Qed.

Lemma propagate_unindexed_witness :
  ∃ assumptions,
    Cnf.propagate (Cnf.mk [(1, (0, 1))] [Clause.mk [(1, true)]])
      [(Some 2, VBool true); (None, VNone)]
    = (Cnf.mk [(1, (0, 1))] [Clause.mk [(1, true)]], Return assumptions) ∧
    ∀ k, Dict.get k assumptions
         = Dict.get k [(Some 2, VBool true); (None, VNone)].
Proof.
  apply (propagate_unindexed (Cnf.mk [(1, (0, 1))] [Clause.mk [(1, true)]])
           [(Some 2, VBool true); (None, VNone)]).
  intros w Hw. simpl in Hw.
  apply elem_of_cons in Hw as [[= ->]|Hw]; [reflexivity|].
  apply elem_of_cons in Hw as [[=]|Hw]. by apply elem_of_nil in Hw.
Defined.


(** What assigning one variable establishes, indexed or not. *)
Lemma propagate_singleton_spec (Sat0 : Prop) formula v b :
  well_formed formula → index_invariant formula →
  (Sat0 → ∃ σ, models σ (Cnf.clauses formula) ∧ σ v = b) →
  match Cnf.propagate formula [(Some v, VBool b)] with
  | (formula', Return M) =>
      track (Cnf.clauses formula) (Cnf.clauses formula') (λ k, Dict.get k M) ∧
      (Sat0 → satisfiable (Cnf.clauses formula'))
  | (_, Raise e) => e = UnsatisfiedException ∧ ¬ Sat0
  | (_, Diverge) => False
  end.
Proof.
  intros Hwf Hidx Hsat.
  destruct (Dict.get v (Cnf.variables formula)) as [c|] eqn:Hv.
  - destruct (propagate_spec Sat0 formula [(Some v, VBool b)]) as [Hend Hpost];
      try done.
    + by apply index_invariant_counted.
    + by intros k x [= -> ->]%list_elem_of_singleton; eexists _, _.
    + apply NoDup_singleton.
    + intros k ->%list_elem_of_singleton. exists v. by rewrite Hv.
    + intros HS. split.
      * intros [|??] ? w b' Heq; [done|].
        by apply (f_equal length) in Heq; rewrite length_app in Heq;
          simpl in Heq; lia.
      * destruct (Hsat HS) as (σ & Hm & Hσ). exists σ. split; [done|].
        intros w b'. simpl. case_decide; [|done]. by intros [= <-]; simplify_eq.
    + destruct (Cnf.propagate formula _) as [formula' [M|e|]]; simpl in *.
      * unfold propagate_post in Hpost.
        destruct Hpost as (_ & _ & _ & Htrack & _ & _ & _ & Hs). done.
      * done.
      * done.
  - destruct (propagate_skips_unindexed formula [(Some v, VBool b)])
      as (M & -> & HM).
    { intros w Hw. simpl in Hw. by apply list_elem_of_singleton in Hw as [= ->]. }
    split.
    + intros c0 Hc0. right. exists c0. split; [done|]. by intros e.
    + intros HS. destruct (Hsat HS) as (σ & ? & ?). by exists σ.
Qed.


(** X3.  Assigning one variable is a sound refutation: when
    [propagate({v: b})] raises on a formula whose index is right, no
    assignment that gives [v] the value [b] makes every clause true. *)
Theorem propagate_refutes formula v b e :
  well_formed formula → index_invariant formula →
  (Cnf.propagate formula [(Some v, VBool b)]).2 = Raise e →
  ¬ ∃ σ, models σ (Cnf.clauses formula) ∧ σ v = b.
Proof.
  intros Hwf Hidx Hraise.
  pose proof (propagate_singleton_spec
                (∃ σ, models σ (Cnf.clauses formula) ∧ σ v = b)
                formula v b Hwf Hidx (λ H, H)) as Hspec.
  destruct (Cnf.propagate formula _) as [formula' [M|e'|]]; try done.
  by destruct Hspec.
Qed.

Lemma propagate_refutes_witness :
  ¬ ∃ σ, models σ [Clause.mk [(1, true); (2, true)]; Clause.mk [(1, true); (2, false)]]
         ∧ σ 1 = false.
Proof.
  apply (propagate_refutes
           (Cnf.mk [(1, (0, 2)); (2, (1, 1))]
              [Clause.mk [(1, true); (2, true)];
               Clause.mk [(1, true); (2, false)]])
           1 false UnsatisfiedException).
  - check_well_formed.
  - check_index_invariant.
  - reflexivity.
Defined.

(** X4.  When [propagate({v: b})] returns the map [M] on a formula whose
    index is right, every clause of the formula is true under [M] or is
    still there with some of its literals deleted; so an assignment that
    agrees with [M] and makes the clauses that are left true makes the
    clauses of the formula true.  Nothing is lost either: if the formula
    has a model that gives [v] the value [b], the clauses that are left
    have a model. *)
Theorem propagate_sound formula v b formula' M :
  well_formed formula → index_invariant formula →
  Cnf.propagate formula [(Some v, VBool b)] = (formula', Return M) →
  (∀ c, c ∈ Cnf.clauses formula →
     satisfied_by (λ k, Dict.get k M) c ∨
     ∃ c', c' ∈ Cnf.clauses formula' ∧ subclause c' c) ∧
  (∀ σ, models σ (Cnf.clauses formula') → agrees σ M →
        models σ (Cnf.clauses formula)) ∧
  ((∃ σ, models σ (Cnf.clauses formula) ∧ σ v = b) →
   satisfiable (Cnf.clauses formula')).
Proof.
  intros Hwf Hidx Hprop.
  pose proof (propagate_singleton_spec
                (∃ σ, models σ (Cnf.clauses formula) ∧ σ v = b)
                formula v b Hwf Hidx (λ H, H)) as Hspec.
  rewrite Hprop in Hspec. destruct Hspec as [Htrack Hsat].
  split_and!; [done| |done].
  intros σ Hσ Hagree c Hc. destruct (Htrack c Hc) as [Hs|(c' & Hc' & Hsub)].
  - destruct Hs as (w & pol & Hin & Hget). exists w, pol. split; [done|].
    by apply Hagree.
  - destruct (Hσ c' Hc') as (w & pol & Hin & Hw). exists w, pol. auto.
Qed.

Lemma propagate_sound_witness :
  (∀ c, c ∈ [Clause.mk [(1, true); (2, true)];
      Clause.mk [(1, false); (2, true); (3, false)];
      Clause.mk [(2, false); (3, true)];
      Clause.mk [(2, false); (3, false)]] →
     satisfied_by (λ k, Dict.get k [(Some 1, VBool true)]) c ∨
     ∃ c', c' ∈ [Clause.mk [(2, true); (3, false)];
      Clause.mk [(2, false); (3, true)];
      Clause.mk [(2, false); (3, false)]] ∧ subclause c' c) ∧
  (∀ σ, models σ [Clause.mk [(2, true); (3, false)];
      Clause.mk [(2, false); (3, true)];
      Clause.mk [(2, false); (3, false)]] →
        agrees σ [(Some 1, VBool true)] →
        models σ [Clause.mk [(1, true); (2, true)];
      Clause.mk [(1, false); (2, true); (3, false)];
      Clause.mk [(2, false); (3, true)];
      Clause.mk [(2, false); (3, false)]]) ∧
  ((∃ σ, models σ [Clause.mk [(1, true); (2, true)];
      Clause.mk [(1, false); (2, true); (3, false)];
      Clause.mk [(2, false); (3, true)];
      Clause.mk [(2, false); (3, false)]] ∧ σ 1 = true) →
   satisfiable [Clause.mk [(2, true); (3, false)];
      Clause.mk [(2, false); (3, true)];
      Clause.mk [(2, false); (3, false)]]).
Proof.
  apply (propagate_sound
           (Cnf.mk [(1, (1, 1)); (2, (2, 2)); (3, (2, 1))]
              [Clause.mk [(1, true); (2, true)];
      Clause.mk [(1, false); (2, true); (3, false)];
      Clause.mk [(2, false); (3, true)];
      Clause.mk [(2, false); (3, false)]])
           1 true
           (Cnf.mk [(2, (2, 1)); (3, (2, 1))]
              [Clause.mk [(2, true); (3, false)];
      Clause.mk [(2, false); (3, true)];
      Clause.mk [(2, false); (3, false)]])
           [(Some 1, VBool true)]).
  - check_well_formed.
  - check_index_invariant.
  - reflexivity.
Defined.


(** ** Cnf.unit_propagate *)

(** X5.  On a formula whose index is right [unit_propagate] ends.  When it
    returns, no empty clause and no unit clause is left, an assignment that
    agrees with the returned map and makes the clauses that are left true
    makes the clauses of the formula true, and the clauses that are left
    have a model if the formula had one.  When it raises, it raises
    [UnsatisfiedException] and the formula has no model. *)
Theorem unit_propagate_result formula :
  well_formed formula → index_invariant formula →
  match Cnf.unit_propagate formula with
  | (formula', Return assigned) =>
      (∀ c, c ∈ Cnf.clauses formula' →
            (2 ≤ length (Clause.variables c))%nat) ∧
      (∀ σ, models σ (Cnf.clauses formula') → agrees σ assigned →
            models σ (Cnf.clauses formula)) ∧
      (satisfiable (Cnf.clauses formula) →
       satisfiable (Cnf.clauses formula'))
  | (_, Raise e) =>
      e = UnsatisfiedException ∧ ¬ satisfiable (Cnf.clauses formula)
  | (_, Diverge) => False
  end.
Proof.
  intros Hwf Hidx.
  destruct (unit_propagate_spec (satisfiable (Cnf.clauses formula)) formula)
    as (Hend & Hpost & Hunit); try done.
  { right. by apply index_invariant_counted. }
  destruct (Cnf.unit_propagate formula) as [formula' [assigned|e|]];
    simpl in *; [|done|done].
  unfold propagate_post in Hpost.
  destruct Hpost as (_ & _ & _ & Htrack & _ & _ & _ & Hsat).
  split_and!; [|  |done].
  - intros c Hc. destruct (Hunit assigned eq_refl) as [Hnil|Hnone].
    + rewrite Hnil in Hc. by apply elem_of_nil in Hc.
    + by eapply first_unit_none.
  - intros σ Hσ Hagree c Hc.
    destruct (Htrack c Hc) as [(w & pol & Hin & Hget)|(c' & Hc' & Hsub)].
    + exists w, pol. split; [done|]. by apply Hagree.
    + destruct (Hσ c' Hc') as (w & pol & Hin & Hw). exists w, pol. auto.
Qed.

Lemma unit_propagate_result_witness :
  match Cnf.unit_propagate
          (Cnf.mk [(1, (1, 1)); (2, (1, 2)); (3, (1, 1))]
             [Clause.mk [(1, false)];
              Clause.mk [(1, true); (2, true); (3, true)];
              Clause.mk [(2, true); (3, false)];
              Clause.mk [(2, false)]]) with
  | (formula', Return assigned) =>
      (∀ c, c ∈ Cnf.clauses formula' →
            (2 ≤ length (Clause.variables c))%nat) ∧
      (∀ σ, models σ (Cnf.clauses formula') → agrees σ assigned →
            models σ [Clause.mk [(1, false)];
                      Clause.mk [(1, true); (2, true); (3, true)];
                      Clause.mk [(2, true); (3, false)];
                      Clause.mk [(2, false)]]) ∧
      (satisfiable [Clause.mk [(1, false)];
                    Clause.mk [(1, true); (2, true); (3, true)];
                    Clause.mk [(2, true); (3, false)];
                    Clause.mk [(2, false)]] →
       satisfiable (Cnf.clauses formula'))
  | (_, Raise e) =>
      e = UnsatisfiedException ∧
      ¬ satisfiable [Clause.mk [(1, false)];
                     Clause.mk [(1, true); (2, true); (3, true)];
                     Clause.mk [(2, true); (3, false)];
                     Clause.mk [(2, false)]]
  | (_, Diverge) => False
  end.
Proof.
  apply (unit_propagate_result
           (Cnf.mk [(1, (1, 1)); (2, (1, 2)); (3, (1, 1))]
              [Clause.mk [(1, false)];
               Clause.mk [(1, true); (2, true); (3, true)];
               Clause.mk [(2, true); (3, false)];
               Clause.mk [(2, false)]])).
  - check_well_formed.
  - check_index_invariant.
Defined.

(** X6.  A unit clause whose variable the index does not hold is never
    consumed: [propagate] skips the variable and leaves the clause, so the
    [while True] loop of [unit_propagate] meets the same clause again.  No
    number of iterations makes the call return. *)
Theorem unit_propagate_loops_forever formula var par :
  Cnf.first_unit (Cnf.clauses formula) = Cnf.UnitClause var par →
  Dict.get var (Cnf.variables formula) = None →
  (∀ fuel assigned,
     Cnf.unit_propagate_loop fuel formula assigned = (formula, Diverge)) ∧
  Cnf.unit_propagate formula = (formula, Diverge).
Proof.
  intros Hunit Hget.
  assert (∀ fuel assigned,
            Cnf.unit_propagate_loop fuel formula assigned = (formula, Diverge))
    as Hloop; [|split; [done|apply Hloop]].
  induction fuel as [|fuel IH]; intros assigned; [done|]. simpl.
  case_decide as Hlen.
  { apply length_zero_iff_nil in Hlen. by rewrite Hlen in Hunit. }
  rewrite Hunit.
  destruct (propagate_skips_unindexed formula [(Some var, VBool par)])
    as (M & -> & _); [|apply IH].
  intros w Hw. simpl in Hw. by apply list_elem_of_singleton in Hw as [= ->].
Qed.

Lemma unit_propagate_loops_forever_witness :
  (∀ fuel assigned,
     Cnf.unit_propagate_loop fuel (Cnf.mk [] [Clause.mk [(1, true)]]) assigned
     = (Cnf.mk [] [Clause.mk [(1, true)]], Diverge)) ∧
  Cnf.unit_propagate (Cnf.mk [] [Clause.mk [(1, true)]])
  = (Cnf.mk [] [Clause.mk [(1, true)]], Diverge).
Proof.
  apply (unit_propagate_loops_forever (Cnf.mk [] [Clause.mk [(1, true)]]) 1 true);
    reflexivity.
Defined.


(** ** Solver.dpll and Solver.dynamic_largest *)

(** X7.  On a formula whose index is right [dpll] ends.  The map it returns
    makes every clause of the formula true and binds only variables of the
    index (and possibly the key [None]); when it raises, it raises
    [UnsatisfiedException] and the formula has no model. *)
Theorem dpll_sound_complete formula :
  well_formed formula → index_invariant formula →
  match Solver.dpll formula with
  | Return d =>
      (∀ c, c ∈ Cnf.clauses formula → satisfied_by (λ k, Dict.get k d) c) ∧
      (∀ w, Some w ∈ Dict.keys d →
            is_Some (Dict.get w (Cnf.variables formula)))
  | Raise e => e = UnsatisfiedException ∧ ¬ satisfiable (Cnf.clauses formula)
  | Diverge => False
  end.
Proof.
  intros Hwf Hidx. pose proof (dpll_spec formula Hwf) as Hspec.
  unfold dpll_post in Hspec.
  destruct (Solver.dpll formula) as [d|e|].
  - destruct Hspec as (_ & _ & ? & ?); [|done].
    right. by apply index_invariant_counted.
  - apply Hspec. right. by apply index_invariant_counted.
  - apply Hspec. right. by apply index_invariant_counted.
Qed.

Lemma dpll_sound_complete_witness :
  match Solver.dpll
          (Cnf.mk [(1, (1, 1)); (2, (1, 1))]
             [Clause.mk [(1, true); (2, true)];
              Clause.mk [(1, false); (2, false)]]) with
  | Return d =>
      (∀ c, c ∈ [Clause.mk [(1, true); (2, true)];
                 Clause.mk [(1, false); (2, false)]] →
            satisfied_by (λ k, Dict.get k d) c) ∧
      (∀ w, Some w ∈ Dict.keys d →
            is_Some (Dict.get w [(1, (1, 1)); (2, (1, 1))]))
  | Raise e =>
      e = UnsatisfiedException ∧
      ¬ satisfiable [Clause.mk [(1, true); (2, true)];
                     Clause.mk [(1, false); (2, false)]]
  | Diverge => False
  end.
Proof.
  apply (dpll_sound_complete
           (Cnf.mk [(1, (1, 1)); (2, (1, 1))]
              [Clause.mk [(1, true); (2, true)];
               Clause.mk [(1, false); (2, false)]])).
  - check_well_formed.
  - check_index_invariant.
Defined.

Lemma dynamic_largest_last variables :
  match Solver.dynamic_largest variables with
  | (Some var, x) =>
      ∃ before after neg pos,
        variables = before ++ (var, (neg, pos)) :: after ∧
        pos + neg > 0 ∧
        x = VBool (bool_decide (pos > neg)) ∧
        Forall (λ e, e.2.2 + e.2.1 ≤ 0) after
  | (None, x) => x = VNone ∧ Forall (λ e, e.2.2 + e.2.1 ≤ 0) variables
  end.
Proof.
  induction variables as [|[var [neg pos]] variables IH] using rev_ind.
  { by split. }
  rewrite dynamic_largest_snoc. case_decide as Hpos.
  - exists variables, [], neg, pos. split_and!; done.
  - destruct (Solver.dynamic_largest variables) as [[v|] x].
    + destruct IH as (before & after & n & p & -> & ? & ? & Hafter).
      exists before, (after ++ [(var, (neg, pos))]), n, p.
      rewrite <- app_assoc. split_and!; try done.
      apply Forall_app. split; [done|]. apply Forall_singleton. simpl. lia.
    + destruct IH as [-> Hall]. split; [done|].
      apply Forall_app. split; [done|]. apply Forall_singleton. simpl. lia.
Qed.

(** X8.  What [dynamic_largest] returns for any index: the last variable,
    in the order of the dictionary, whose two counts have a positive sum,
    with [pos > neg] as the value; [(None, None)] when there is no such
    variable.  How large the sum is plays no part. *)
Theorem dynamic_largest_is_last_positive variables :
  match Solver.dynamic_largest variables with
  | (Some var, x) =>
      ∃ before after neg pos,
        variables = before ++ (var, (neg, pos)) :: after ∧
        pos + neg > 0 ∧
        x = VBool (bool_decide (pos > neg)) ∧
        Forall (λ e, e.2.2 + e.2.1 ≤ 0) after
  | (None, x) => x = VNone ∧ Forall (λ e, e.2.2 + e.2.1 ≤ 0) variables
  end.
Proof. apply dynamic_largest_last. Qed.


(** ** Cnf.from_list *)

Lemma keys_setitem_present {K V} `{EqDecision K} (k : K) (v : V) (d : dict K V) :
  is_Some (Dict.get k d) → Dict.keys (Dict.setitem k v d) = Dict.keys d.
Proof.
  induction d as [|[k' v'] d IH]; simpl; [by intros []|].
  destruct (decide (k = k')) as [->|]; simpl; [done|].
  intros ?. by rewrite IH.
Qed.

Lemma count_clause_keys_eq items variables variables' :
  Cnf.count_clause items variables = Some variables' →
  Dict.keys variables' = Dict.keys variables.
Proof.
  revert variables. induction items as [|[var par] items IH];
    intros variables; simpl; [by intros [= <-]|].
  destruct (Dict.get var variables) as [c|] eqn:Hget; [|done].
  intros ->%IH. apply keys_setitem_present. by rewrite Hget.
Qed.

Lemma count_clauses_keys_eq cls variables variables' :
  Cnf.count_clauses cls variables = Some variables' →
  Dict.keys variables' = Dict.keys variables.
Proof.
  revert variables. induction cls as [|c cls IH]; intros variables; simpl;
    [by intros [= <-]|].
  destruct (Cnf.count_clause _ _) as [variables1|] eqn:Hc; [|done].
  intros ->%IH. by eapply count_clause_keys_eq.
Qed.

Lemma keys_filter_ext {K V} (P : K * V → Prop) (Q : K → Prop)
    `{∀ e, Decision (P e)} `{∀ k, Decision (Q k)} (d : dict K V) :
  (∀ e, e ∈ d → (P e ↔ Q e.1)) →
  Dict.keys (filter P d) = filter Q (Dict.keys d).
Proof.
  induction d as [|e d IH]; intros HPQ; [done|].
  rewrite filter_cons. simpl. rewrite filter_cons.
  assert (P e ↔ Q e.1) as He by (apply HPQ; by left).
  rewrite <- IH by (intros; apply HPQ; by right).
  destruct (decide (P e)), (decide (Q e.1)); simpl; tauto || done.
Qed.

Lemma from_list_keys set_iter clause_list N formula :
  Cnf.from_list set_iter clause_list N = Return formula →
  Dict.keys (Cnf.variables formula)
  = filter (λ w, w ∈ Dict.keys (lits (Cnf.clauses formula))) (seqZ 1 N).
Proof.
  unfold Cnf.from_list.
  destruct (Cnf.count_clauses _ _) as [variables|] eqn:Hcount; [|done].
  intros [= <-]. simpl.
  pose proof (count_clauses_keys_eq _ _ _ Hcount) as Hkeys.
  apply count_clauses_get in Hcount as (Hget & Hin & Hnd).
  assert (Dict.keys (map (λ j : Z, (j, (0, 0))) (seqZ 1 N)) = seqZ 1 N) as Hinit.
  { unfold Dict.keys. rewrite map_map. simpl. apply map_id. }
  rewrite Hinit in Hkeys. rewrite <- Hkeys.
  apply keys_filter_ext. intros [w [n p]] He. simpl.
  assert (Dict.get w variables = Some (n, p)) as Hw.
  { apply elem_of_get; [|done]. apply Hnd. rewrite Hinit. apply NoDup_seqZ. }
  rewrite Hget, initial_index_get in Hw.
  case_decide; simpl in Hw; [|done]. injection Hw as <- <-.
  pose proof (cnt_pos w false (lits (set_iter clause_list))) as Hf.
  pose proof (cnt_pos w true (lits (set_iter clause_list))) as Ht.
  pose proof (cnt_nonneg w false (lits (set_iter clause_list))).
  pose proof (cnt_nonneg w true (lits (set_iter clause_list))).
  split.
  - intros [Hn|Hp].
    + apply list_elem_of_fmap. exists (w, false). split; [done|]. apply Hf. lia.
    + apply list_elem_of_fmap. exists (w, true). split; [done|]. apply Ht. lia.
  - intros ([w' [|]] & Heq & Hlit)%list_elem_of_fmap; simpl in Heq; subst w'.
    + right. apply Ht in Hlit. lia.
    + left. apply Hf in Hlit. lia.
Qed.

Lemma from_list_exact set_iter clause_list N formula :
  (∀ c, c ∈ set_iter clause_list → NoDup (Dict.keys (Clause.variables c))) →
  Cnf.from_list set_iter clause_list N = Return formula →
  Cnf.clauses formula = set_iter clause_list ∧
  Dict.keys (Cnf.variables formula)
  = filter (λ w, w ∈ Dict.keys (lits (Cnf.clauses formula))) (seqZ 1 N) ∧
  ∀ w, Dict.get w (Cnf.variables formula) =
       if decide (w ∈ Dict.keys (lits (Cnf.clauses formula))) then
         Some (occurrences w false (Cnf.clauses formula),
               occurrences w true (Cnf.clauses formula))
       else None.
Proof.
  intros Hnd Hfrom.
  pose proof (from_list_keys _ _ _ _ Hfrom) as Hkeys.
  destruct (from_list_counted _ _ _ _ Hfrom Hnd) as (Hcls & Hwf & Hcnt).
  split_and!; [done..|].
  intros w. pose proof (Hcnt w) as Hw0. case_decide as Hw.
  - destruct (Dict.get w (Cnf.variables formula)) as [c|] eqn:Hget.
    + rewrite Hw0 by done. by rewrite !cnt_lits by apply Hwf.
    + destruct Hw0 as [H0 H1]; [done|].
      apply list_elem_of_fmap in Hw as ([w' pol] & -> & Hlit).
      apply cnt_pos in Hlit. destruct pol; simpl in *; lia.
  - apply get_None. rewrite Hkeys. intros [? _]%list_elem_of_filter. done.
Qed.

(** X9.  The formula that [Cnf.from_list] returns holds the clauses in the
    order in which the set is iterated; its index holds the variables of
    [1..N] that occur in some clause, in increasing order, each with the
    numbers of clauses that hold it negated and plain. *)
Theorem from_list_index set_iter clause_list N formula :
  (∀ c, c ∈ set_iter clause_list → NoDup (Dict.keys (Clause.variables c))) →
  Cnf.from_list set_iter clause_list N = Return formula →
  Cnf.clauses formula = set_iter clause_list ∧
  Dict.keys (Cnf.variables formula)
  = filter (λ w, w ∈ Dict.keys (lits (Cnf.clauses formula))) (seqZ 1 N) ∧
  ∀ w, Dict.get w (Cnf.variables formula) =
       if decide (w ∈ Dict.keys (lits (Cnf.clauses formula))) then
         Some (occurrences w false (Cnf.clauses formula),
               occurrences w true (Cnf.clauses formula))
       else None.
Proof. apply from_list_exact. Qed.

Lemma from_list_index_witness :
  Cnf.clauses
    (Cnf.mk [(1, (1, 1)); (3, (0, 1))]
       [Clause.mk [(3, true); (1, true)]; Clause.mk [(1, false)]])
  = [Clause.mk [(3, true); (1, true)]; Clause.mk [(1, false)]] ∧
  Dict.keys
    (Cnf.variables
       (Cnf.mk [(1, (1, 1)); (3, (0, 1))]
          [Clause.mk [(3, true); (1, true)]; Clause.mk [(1, false)]]))
  = filter (λ w, w ∈ Dict.keys
                   (lits (Cnf.clauses
                            (Cnf.mk [(1, (1, 1)); (3, (0, 1))]
                               [Clause.mk [(3, true); (1, true)];
                                Clause.mk [(1, false)]]))))
      (seqZ 1 4) ∧
  ∀ w, Dict.get w
         (Cnf.variables
            (Cnf.mk [(1, (1, 1)); (3, (0, 1))]
               [Clause.mk [(3, true); (1, true)]; Clause.mk [(1, false)]])) =
       if decide (w ∈ Dict.keys
                        (lits (Cnf.clauses
                                 (Cnf.mk [(1, (1, 1)); (3, (0, 1))]
                                    [Clause.mk [(3, true); (1, true)];
                                     Clause.mk [(1, false)]])))) then
         Some (occurrences w false
                 (Cnf.clauses
                    (Cnf.mk [(1, (1, 1)); (3, (0, 1))]
                       [Clause.mk [(3, true); (1, true)];
                        Clause.mk [(1, false)]])),
               occurrences w true
                 (Cnf.clauses
                    (Cnf.mk [(1, (1, 1)); (3, (0, 1))]
                       [Clause.mk [(3, true); (1, true)];
                        Clause.mk [(1, false)]])))
       else None.
Proof.
  apply (from_list_index (λ l, l)
           [Clause.mk [(3, true); (1, true)]; Clause.mk [(1, false)]] 4).
  - check_clauses.
  - reflexivity.
Defined.


Lemma StronglySorted_seqZ m n : StronglySorted Z.lt (seqZ m n).
Proof.
  destruct (decide (0 ≤ n)) as [Hn|Hn]; [|rewrite seqZ_nil by lia; constructor].
  rewrite <- (Z2Nat.id n) by done. generalize (Z.to_nat n). clear n Hn.
  intros i. induction i as [|i IH]; [constructor|].
  rewrite seqZ_S. apply StronglySorted_app_2; [|done|repeat constructor].
  intros x y Hx%elem_of_seqZ ->%list_elem_of_singleton. lia.
Qed.

Lemma StronglySorted_filter {A} (R : relation A) (P : A → Prop)
    `{∀ x, Decision (P x)} (l : list A) :
  StronglySorted R l → StronglySorted R (filter P l).
Proof.
  induction 1 as [|x l Hl IH Hx]; [constructor|].
  rewrite filter_cons. case_decide; [|done].
  constructor; [done|]. apply Forall_forall.
  intros y [_ Hy]%list_elem_of_filter.
  rewrite Forall_forall in Hx. by apply Hx.
Qed.

Lemma occurs_positive w cls :
  (∀ c, c ∈ cls → NoDup (Dict.keys (Clause.variables c))) →
  w ∈ Dict.keys (lits cls) →
  0 < occurrences w true cls + occurrences w false cls.
Proof.
  intros Hnd ([w' pol] & -> & Hlit)%list_elem_of_fmap.
  apply cnt_pos in Hlit. rewrite cnt_lits in Hlit by done. simpl.
  assert (0 ≤ occurrences w' true cls) by (unfold occurrences; lia).
  assert (0 ≤ occurrences w' false cls) by (unfold occurrences; lia).
  destruct pol; lia.
Qed.

(** X10.  On the formula that [Cnf.from_list] returns, [dynamic_largest]
    picks the variable with the largest number among those that occur in
    a clause, whatever the counts, and proposes [True] for it exactly when
    more clauses hold it plain than negated; it returns [(None, None)]
    when the clauses hold no literal at all. *)
Theorem from_list_heuristic set_iter clause_list N formula :
  (∀ c, c ∈ set_iter clause_list → NoDup (Dict.keys (Clause.variables c))) →
  Cnf.from_list set_iter clause_list N = Return formula →
  match Solver.dynamic_largest (Cnf.variables formula) with
  | (Some var, x) =>
      var ∈ Dict.keys (lits (Cnf.clauses formula)) ∧
      (∀ w, w ∈ Dict.keys (lits (Cnf.clauses formula)) → w ≤ var) ∧
      x = VBool (bool_decide (occurrences var true (Cnf.clauses formula)
                              > occurrences var false (Cnf.clauses formula)))
  | (None, x) => x = VNone ∧ lits (Cnf.clauses formula) = []
  end.
Proof.
  intros Hnd Hfrom.
  destruct (from_list_exact _ _ _ _ Hnd Hfrom) as (Hcls & Hkeys & Hget).
  destruct (from_list_counted _ _ _ _ Hfrom Hnd) as (_ & Hwf & _).
  assert (StronglySorted Z.lt (Dict.keys (Cnf.variables formula))) as Hsorted.
  { rewrite Hkeys. apply StronglySorted_filter, StronglySorted_seqZ. }
  assert (∀ w n p, (w, (n, p)) ∈ Cnf.variables formula →
            w ∈ Dict.keys (lits (Cnf.clauses formula)) ∧
            n = occurrences w false (Cnf.clauses formula) ∧
            p = occurrences w true (Cnf.clauses formula) ∧
            0 < p + n) as Hentry.
  { intros w n p Hin. apply elem_of_get in Hin; [|apply Hwf].
    rewrite Hget in Hin. case_decide as Hw; [|done]. injection Hin as <- <-.
    split_and!; try done. apply occurs_positive; [apply Hwf|done]. }
  pose proof (dynamic_largest_last (Cnf.variables formula)) as Hlast.
  destruct (Solver.dynamic_largest (Cnf.variables formula)) as [[var|] x].
  - destruct Hlast as (before & after & neg & pos & Hidx & Hpos & -> & Hafter).
    destruct after as [|[w [n p]] after].
    2:{ apply Forall_cons in Hafter as [Hle _]. simpl in Hle.
        destruct (Hentry w n p) as (_ & _ & _ & ?); [|lia].
        rewrite Hidx. apply elem_of_app. right. right. by left. }
    destruct (Hentry var neg pos) as (Hvar & -> & -> & _).
    { rewrite Hidx. apply elem_of_app. right. by left. }
    split_and!; [done| |done].
    intros w Hw.
    assert (w ∈ Dict.keys (Cnf.variables formula)) as Hin.
    { apply get_is_Some_keys. rewrite Hget. by rewrite decide_True. }
    rewrite Hidx in Hin, Hsorted. unfold Dict.keys in Hin, Hsorted.
    rewrite map_app in Hin, Hsorted. simpl in Hin, Hsorted.
    apply elem_of_app in Hin as [Hin|Hin%list_elem_of_singleton]; [|lia].
    assert (w < var); [|lia].
    eapply (StronglySorted_app_1_elem_of Z.lt); [done..|by left].
  - destruct Hlast as [-> Hall]. split; [done|].
    assert (lits (Cnf.clauses formula) = [] ∨
            ∃ w, w ∈ Dict.keys (lits (Cnf.clauses formula))) as [?|[w Hw]];
      [|done|].
    { destruct (lits (Cnf.clauses formula)) as [|[w pol] L]; [by left|].
      right. exists w. by left. }
    exfalso.
    pose proof (Hget w) as Hgw. rewrite decide_True in Hgw by done.
    apply get_Some_elem_of in Hgw. pose proof Hgw as Hgw'.
    apply Hentry in Hgw' as (_ & _ & _ & ?).
    rewrite Forall_forall in Hall. apply Hall in Hgw. simpl in Hgw. lia.
Qed.

Lemma from_list_heuristic_witness :
  match Solver.dynamic_largest
          (Cnf.variables
             (Cnf.mk [(1, (1, 2)); (2, (1, 1)); (3, (1, 1))]
                [Clause.mk [(1, true); (2, true)];
                 Clause.mk [(1, true); (3, true)];
                 Clause.mk [(1, false); (2, false); (3, false)]])) with
  | (Some var, x) =>
      var ∈ Dict.keys
              (lits [Clause.mk [(1, true); (2, true)];
                     Clause.mk [(1, true); (3, true)];
                     Clause.mk [(1, false); (2, false); (3, false)]]) ∧
      (∀ w, w ∈ Dict.keys
                  (lits [Clause.mk [(1, true); (2, true)];
                         Clause.mk [(1, true); (3, true)];
                         Clause.mk [(1, false); (2, false); (3, false)]]) →
            w ≤ var) ∧
      x = VBool (bool_decide
                   (occurrences var true
                      [Clause.mk [(1, true); (2, true)];
                       Clause.mk [(1, true); (3, true)];
                       Clause.mk [(1, false); (2, false); (3, false)]]
                    > occurrences var false
                        [Clause.mk [(1, true); (2, true)];
                         Clause.mk [(1, true); (3, true)];
                         Clause.mk [(1, false); (2, false); (3, false)]]))
  | (None, x) =>
      x = VNone ∧
      lits [Clause.mk [(1, true); (2, true)];
            Clause.mk [(1, true); (3, true)];
            Clause.mk [(1, false); (2, false); (3, false)]] = []
  end.
Proof.
  apply (from_list_heuristic (λ l, l)
           [Clause.mk [(1, true); (2, true)];
            Clause.mk [(1, true); (3, true)];
            Clause.mk [(1, false); (2, false); (3, false)]] 3).
  - check_clauses.
  - reflexivity.
Defined.


(** ** Clause.from_list *)

Lemma clause_from_list_fold (l : list Z) (d : dict Z bool) :
  let r := fold_left (λ d j, Dict.setitem (Z.abs j) (bool_decide (j > 0)) d) l d in
  (NoDup (Dict.keys d) → NoDup (Dict.keys r)) ∧
  (∀ e, e ∈ r → e ∈ d ∨ ∃ j, j ∈ l ∧ e = (Z.abs j, bool_decide (j > 0))) ∧
  (∀ k, k ∈ Dict.keys d → k ∈ Dict.keys r) ∧
  (∀ j, j ∈ l → Z.abs j ∈ Dict.keys r).
Proof.
  revert d. induction l as [|j l IH]; intros d; simpl.
  { split_and!; try done; [by left|]. by intros j []%elem_of_nil. }
  destruct (IH (Dict.setitem (Z.abs j) (bool_decide (j > 0)) d))
    as (Hnd & Hin & Hkeys & Hall).
  split_and!.
  - intros ?. by apply Hnd, NoDup_keys_setitem.
  - intros e [[->|He]%elem_of_setitem|(j' & Hj' & ->)]%Hin.
    + right. exists j. split; [by left|done].
    + by left.
    + right. exists j'. split; [by right|done].
  - intros k Hk. apply Hkeys, keys_setitem. by right.
  - intros j' [->|Hj']%elem_of_cons; [|by apply Hall].
    apply Hkeys, keys_setitem. by left.
Qed.

(** X11.  The clause that [Clause.from_list] builds holds each variable
    once.  Each of its entries is a literal of the list, and every literal
    of the list has its variable in the clause; but a variable listed with
    both signs keeps one polarity only (the one that the iteration over the
    set meets last), so the clause is not the disjunction that was listed.
    A literal whose opposite is not listed is kept as it is; [0] becomes
    the variable [0] with polarity [False]. *)
Theorem clause_from_list_literals set_iter lst :
  (∀ j, j ∈ set_iter lst ↔ j ∈ lst) →
  NoDup (Dict.keys (Clause.variables (Clause.from_list set_iter lst))) ∧
  (∀ w b, (w, b) ∈ Clause.variables (Clause.from_list set_iter lst) →
          ∃ j, j ∈ lst ∧ Z.abs j = w ∧ b = bool_decide (j > 0)) ∧
  (∀ j, j ∈ lst →
        Z.abs j ∈ Dict.keys (Clause.variables (Clause.from_list set_iter lst))) ∧
  (∀ j, j ∈ lst → - j ∉ lst ∨ j = 0 →
        (Z.abs j, bool_decide (j > 0))
          ∈ Clause.variables (Clause.from_list set_iter lst)).
Proof.
  intros Hset. unfold Clause.from_list. simpl.
  destruct (clause_from_list_fold (set_iter lst) []) as (Hnd & Hin & _ & Hall).
  assert (∀ w b,
            (w, b) ∈ fold_left
                       (λ d j, Dict.setitem (Z.abs j) (bool_decide (j > 0)) d)
                       (set_iter lst) [] →
            ∃ j, j ∈ lst ∧ Z.abs j = w ∧ b = bool_decide (j > 0)) as Hentry.
  { intros w b [[]%elem_of_nil|(j & Hj & [= -> ->])]%Hin.
    exists j. split_and!; try done. by apply Hset. }
  split_and!.
  - apply Hnd. constructor.
  - done.
  - intros j Hj. by apply Hall, Hset.
  - intros j Hj Hopp.
    assert (Z.abs j ∈ Dict.keys
              (fold_left (λ d j, Dict.setitem (Z.abs j) (bool_decide (j > 0)) d)
                 (set_iter lst) [])) as Hk by (by apply Hall, Hset).
    apply list_elem_of_fmap in Hk as ([w b] & Hw & He). simpl in Hw. subst w.
    destruct (Hentry _ _ He) as (j' & Hj' & Habs & ->).
    assert (j' = j) as ->; [|done].
    destruct Hopp as [Hopp| ->]; [|lia].
    destruct (decide (j' = j)) as [|Hne]; [done|].
    exfalso. apply Hopp. by replace (- j) with j' by lia.
Qed.

Lemma clause_from_list_literals_witness :
  NoDup (Dict.keys (Clause.variables (Clause.from_list (λ l, l) [3; -1; 0; 1]))) ∧
  (∀ w b, (w, b) ∈ Clause.variables (Clause.from_list (λ l, l) [3; -1; 0; 1]) →
          ∃ j, j ∈ [3; -1; 0; 1] ∧ Z.abs j = w ∧ b = bool_decide (j > 0)) ∧
  (∀ j, j ∈ [3; -1; 0; 1] →
        Z.abs j ∈ Dict.keys
                    (Clause.variables (Clause.from_list (λ l, l) [3; -1; 0; 1]))) ∧
  (∀ j, j ∈ [3; -1; 0; 1] → - j ∉ [3; -1; 0; 1] ∨ j = 0 →
        (Z.abs j, bool_decide (j > 0))
          ∈ Clause.variables (Clause.from_list (λ l, l) [3; -1; 0; 1])).
Proof. apply (clause_from_list_literals (λ l, l) [3; -1; 0; 1]). done. Defined.

(** The list [[3; -1; 0; 1]] of the lemma above gives a clause of three
    entries: [-1] and [1] share the key [1], and the later one wins. *)
Example clause_from_list_merges_signs :
  Clause.from_list (λ l, l) [3; -1; 0; 1]
  = Clause.mk [(3, true); (1, true); (0, false)].
Proof. reflexivity. Qed.


(** ** The keys of the answer *)

Lemma solve_spec_keys formula :
  well_formed formula →
  counted None (Cnf.variables formula) (lits (Cnf.clauses formula)) →
  ∃ m, Solver.solve formula = Return m ∧
       ((m = Solver.unsat ∧ ¬ satisfiable (Cnf.clauses formula)) ∨
        (NoDup (Dict.keys m) ∧
         (∀ w, Some w ∈ Dict.keys m →
               is_Some (Dict.get w (Cnf.variables formula))) ∧
         ∀ c, c ∈ Cnf.clauses formula → satisfied_by (λ k, Dict.get k m) c)).
Proof.
  intros Hwf Hc. unfold Solver.solve.
  destruct (propagate_spec (satisfiable (Cnf.clauses formula)) formula
              (Solver.pure_variables (Cnf.variables formula)))
    as [Hends Hpost]; try done.
  { apply typed_pure_variables. }
  { apply NoDup_pure_variables. }
  { intros k (w & -> & Hw)%pure_variables_keys. exists w. split; [done|].
    by apply get_is_Some_keys. }
  { intros [σ Hσ]. split.
    - intros q' kv w b Hq Hget. apply pure_variables_justified; [apply Hwf|].
      by rewrite Hq, get_app, Hget.
    - eapply pure_variables_model; [apply Hwf | done..]. }
  destruct (Cnf.propagate formula _) as [formula1 [variables|e|]];
    simpl in Hends, Hpost; [| |done].
  - unfold propagate_post in Hpost.
    destruct Hpost as (Htyped & Hnd & Hkeys & Htrack & Hwf1 & Hc1 & Hidx & Hsat).
    pose proof (dpll_spec formula1 Hwf1
                  ltac:(destruct Hc1 as [?|[? _]]; auto)) as Hdpll.
    destruct (Solver.dpll formula1) as [d|e|]; simpl in Hdpll; [| |done].
    + destruct Hdpll as (Hnd_d & Hint_d & Hkeys_d & Hsat_d).
      eexists. split; [done|]. right. split_and!.
      { by apply NoDup_keys_merge. }
      { intros w [Hw|Hw]%keys_merge.
        - destruct (Hidx w (Hkeys_d w Hw)) as (w' & [= <-] & ?). done.
        - destruct (Hkeys _ Hw) as (w' & [= <-] & ?). done. }
      intros c0 Hc0. destruct (Htrack c0 Hc0) as [?|(c1 & Hin1 & Hsub)].
      { by apply satisfied_merge_r. }
      destruct Hc1 as [Hnil|[_ Hassigned]].
      { rewrite Hnil in Hin1. by apply elem_of_nil in Hin1. }
      apply (satisfied_subclause _ _ c1); [done|].
      apply satisfied_merge_l; [|by apply Hsat_d].
      intros w Hw Hw'. apply Hkeys_d in Hw. apply Hassigned in Hw'.
      rewrite Hw' in Hw. by apply is_Some_None in Hw.
    + destruct Hdpll as [-> Hunsat]. eexists. split; [done|]. left.
      split; [done|]. intros HS. by apply Hunsat, Hsat.
  - unfold propagate_post in Hpost.
    destruct Hpost as [-> Hunsat]. eexists. split; [done|]. by left.
Qed.

(** * Files *)

Section FileFacts.
Context (split : pystr → list pystr) (int : pystr → option Z)
        (str : Z → pystr)
        (set_iter : list Z → list Z)
        (set_clauses : list Clause.t → list Clause.t).

Let clause_of : pystr → Clause.t := line_clause split int set_iter.
Let header_of : pystr → Z := line_header split int.

Lemma last_cons {A} (x : A) l d : List.last (x :: l) d = List.last l x.
Proof.
  revert x d. induction l as [|y l IH]; intros x d; [done|].
  change (List.last (x :: y :: l) d) with (List.last (y :: l) d).
  by rewrite !IH.
Qed.

Lemma filter_bool_cons {A} (f : A → bool) x l :
  filter (λ y, f y) (x :: l)
  = if f x then x :: filter (λ y, f y) l else filter (λ y, f y) l.
Proof.
  rewrite filter_cons. by destruct (f x).
Qed.

Lemma read_cons line lines clauses varnum :
  Files.read split int set_iter (line :: lines) clauses varnum =
    if is_comment line then Files.read split int set_iter lines clauses varnum
    else if startswith (codes "p") line then
      match split line !! 2%nat with
      | None => inl IndexError
      | Some token =>
          match int token with
          | None => inl ValueError
          | Some varnum => Files.read split int set_iter lines clauses varnum
          end
      end
    else
      match Files.ints int (split line) with
      | None => inl ValueError
      | Some variables =>
          Files.read split int set_iter lines
            (clauses ++ [Clause.from_list set_iter (removelast variables)])
            varnum
      end.
Proof. reflexivity. Qed.

Lemma read_spec lines clauses varnum clauses' varnum' :
  Files.read split int set_iter lines clauses varnum = inr (clauses', varnum') →
  clauses' = clauses ++ map clause_of (filter (λ l, is_clause l) lines) ∧
  varnum' = List.last (map header_of (filter (λ l, is_problem l) lines)) varnum.
Proof.
  revert clauses varnum. induction lines as [|line lines IH];
    intros clauses varnum.
  { intros [= <- <-]. by rewrite app_nil_r. }
  rewrite read_cons, (filter_bool_cons is_clause), (filter_bool_cons is_problem).
  unfold is_clause at 1, is_problem at 1.
  destruct (is_comment line); cbn [negb andb]; [apply IH|].
  destruct (startswith (codes "p") line); cbn [negb andb].
  - destruct (split line !! 2%nat) as [token|] eqn:Htok; [|done].
    destruct (int token) as [n|] eqn:Hn; [|done].
    intros [-> ->]%IH. split; [done|].
    cbn [map]. rewrite last_cons.
    assert (header_of line = n) as ->; [|done].
    unfold header_of, line_header. rewrite Htok. simpl. by rewrite Hn.
  - destruct (Files.ints int (split line)) as [variables|] eqn:Hints; [|done].
    intros [-> ->]%IH. split; [|done].
    rewrite <- app_assoc. cbn [map app].
    assert (clause_of line
            = Clause.from_list set_iter (removelast variables)) as ->; [|done].
    unfold clause_of, line_clause. by rewrite Hints.
Qed.

Lemma from_file_spec lines r :
  Files.from_file split int set_iter set_clauses lines = inr r →
  r = Cnf.from_list set_clauses
        (map clause_of (filter (λ l, is_clause l) lines))
        (declared split int lines).
Proof.
  unfold Files.from_file.
  destruct (Files.read _ _ _ _ _ _) as [e|[clauses varnum]] eqn:Hread; [done|].
  apply read_spec in Hread as [-> ->]. by intros [= <-].
Qed.
Lemma clause_of_NoDup line :
  NoDup (Dict.keys (Clause.variables (clause_of line))).
Proof.
  unfold clause_of, line_clause, Clause.from_list. simpl.
  by apply (clause_from_list_fold _ []); constructor.
Qed.

(** Every formula that [from_file] returns is one that [solve] decides. *)
Lemma from_file_solve lines formula :
  (∀ l c, c ∈ set_clauses l → c ∈ l) →
  Files.from_file split int set_iter set_clauses lines = inr (Return formula) →
  ∃ m, Solver.solve formula = Return m ∧
       ((m = Solver.unsat ∧ ¬ satisfiable (Cnf.clauses formula)) ∨
        (NoDup (Dict.keys m) ∧
         (∀ w, Some w ∈ Dict.keys m →
               1 ≤ w ≤ declared split int lines) ∧
         ∀ c, c ∈ Cnf.clauses formula → satisfied_by (λ k, Dict.get k m) c)).
Proof.
  intros Hset Hfile. apply from_file_spec in Hfile. symmetry in Hfile.
  destruct (from_list_counted _ _ _ _ Hfile) as (Hcls & Hwf & Hcnt).
  { intros c (line & -> & _)%Hset%list_elem_of_fmap. apply clause_of_NoDup. }
  destruct (solve_spec_keys formula Hwf Hcnt) as (m & Hm & Hcases).
  exists m. split; [done|]. destruct Hcases as [?|(? & Hkeys & ?)]; [by left|].
  right. split_and!; try done.
  intros w Hw. apply Hkeys, get_is_Some_keys in Hw.
  rewrite (from_list_keys _ _ _ _ Hfile) in Hw.
  apply list_elem_of_filter in Hw as [_ Hw%elem_of_seqZ]. lia.
Qed.
End FileFacts.


(** X12.  What [from_file] reads.  Lines that start with [c] are skipped.
    Every other line that does not start with [p] gives one clause, made
    of all its integers but the last one, whatever the last one is (it is
    not checked to be [0]).  The variable count is the third token of the
    last line that starts with [p], and [0] when there is none; nothing
    else of these lines is used. *)
Theorem from_file_reads split int set_iter set_clauses lines r :
  Files.from_file split int set_iter set_clauses lines = inr r →
  r = Cnf.from_list set_clauses
        (map (line_clause split int set_iter)
             (filter (λ l, is_clause l) lines))
        (declared split int lines).
Proof. apply from_file_spec. Qed.

Lemma from_file_reads_witness :
  Return (Cnf.mk [(1, (0, 1)); (2, (1, 1))]
            [Clause.mk [(1, true); (2, false)]; Clause.mk [(2, true)]])
  = Cnf.from_list (λ l, l)
      (map (line_clause Files.plain_split Files.plain_int (λ l, l))
           (filter (λ l, is_clause l)
              [codes "c x"; codes "p cnf 3 2"; codes "1 -2 0"; codes "2 3"]))
      (declared Files.plain_split Files.plain_int
         [codes "c x"; codes "p cnf 3 2"; codes "1 -2 0"; codes "2 3"]).
Proof.
  apply (from_file_reads Files.plain_split Files.plain_int (λ l, l) (λ l, l)
           [codes "c x"; codes "p cnf 3 2"; codes "1 -2 0"; codes "2 3"]).
  reflexivity.
Defined.

(** X13.  A line with at most one token that is neither a comment nor a
    problem line (an empty line, for one) gives the empty clause, so a file
    with such a line is answered with the marker of an unsatisfiable
    formula, whatever its other lines say. *)
Theorem short_line_unsat split int set_iter set_clauses lines line formula :
  (∀ l c, c ∈ set_clauses l ↔ c ∈ l) →
  (∀ l j, j ∈ set_iter l → j ∈ l) →
  Files.from_file split int set_iter set_clauses lines = inr (Return formula) →
  line ∈ lines → is_clause line → (length (split line) ≤ 1)%nat →
  Solver.solve formula = Return Solver.unsat.
Proof.
  intros Hset Hiter Hfile Hline Hcl Hlen.
  destruct (from_file_solve split int set_iter set_clauses lines formula)
    as (m & Hm & Hcases); [intros l c Hc; by apply Hset|done|].
  apply from_file_spec in Hfile. symmetry in Hfile.
  assert (Clause.mk [] ∈ Cnf.clauses formula) as Hempty.
  { unfold Cnf.from_list in Hfile.
    destruct (Cnf.count_clauses _ _); [|done]. injection Hfile as <-. simpl.
    apply Hset, list_elem_of_fmap. exists line. split.
    - unfold line_clause, Clause.from_list.
      assert (removelast (default [] (Files.ints int (split line))) = []) as ->.
      { assert (length (default [] (Files.ints int (split line))) ≤ 1)%nat
          as Hl.
        { clear -Hlen. revert Hlen. generalize (split line). intros tokens.
          assert (∀ zs, Files.ints int tokens = Some zs →
                        length zs = length tokens) as Hints.
          { induction tokens as [|t tokens IH]; simpl; [by intros ? [= <-]|].
            destruct (int t); [|done].
            destruct (Files.ints int tokens); [|done].
            intros ? [= <-]. simpl. by rewrite (IH l). }
          destruct (Files.ints int tokens) as [zs|]; simpl; [|lia].
          rewrite (Hints zs eq_refl). done. }
        destruct (default [] (Files.ints int (split line))) as [|? [|??]];
          simpl in *; [done|done|lia]. }
      destruct (set_iter []) as [|j ?] eqn:Hnil; [done|].
      exfalso. apply (elem_of_nil j), Hiter. rewrite Hnil. by left.
    - apply list_elem_of_filter. done. }
  destruct Hcases as [[-> _]|(_ & _ & Hsat)]; [done|].
  destruct (Hsat _ Hempty) as (w & pol & []%elem_of_nil & _).
Qed.

Lemma short_line_unsat_witness :
  Solver.solve
    (Cnf.mk [(1, (0, 1)); (2, (1, 1))]
       [Clause.mk [(1, true); (2, false)]; Clause.mk [];
        Clause.mk [(2, true)]])
  = Return Solver.unsat.
Proof.
  apply (short_line_unsat Files.plain_split Files.plain_int (λ l, l) (λ l, l)
           [codes "p cnf 2 3"; codes "1 -2 0"; codes ""; codes "2 0"]
           (codes "")).
  - done.
  - done.
  - reflexivity.
  - apply (bool_decide_unpack _). vm_compute. exact I.
  - exact I.
  - simpl. lia.
Defined.


(** X14.  [from_file] returns a formula only if every variable of every
    clause lies between 1 and the variable count that the file declares.
    So a file without a problem line is accepted only if all its clauses
    are empty, and a [0] that is not the last integer of its line makes
    the call fail. *)
Theorem from_file_declared split int set_iter set_clauses lines formula :
  (∀ l c, c ∈ set_clauses l ↔ c ∈ l) →
  Files.from_file split int set_iter set_clauses lines = inr (Return formula) →
  (∀ c w, c ∈ Cnf.clauses formula → w ∈ Dict.keys (Clause.variables c) →
          1 ≤ w ≤ declared split int lines) ∧
  (filter (λ l, is_problem l) lines = [] →
   ∀ c, c ∈ Cnf.clauses formula → Clause.variables c = []).
Proof.
  intros Hset Hfile. apply from_file_spec in Hfile. symmetry in Hfile.
  assert (∀ c w, c ∈ Cnf.clauses formula →
            w ∈ Dict.keys (Clause.variables c) →
            1 ≤ w ≤ declared split int lines) as Hrange.
  { intros c w Hc Hw. unfold Cnf.from_list in Hfile.
    destruct (Cnf.count_clauses _ _) as [variables|] eqn:Hcount; [|done].
    injection Hfile as <-. simpl in Hc.
    apply count_clauses_get in Hcount as (_ & Hin & _).
    apply list_elem_of_fmap in Hw as ([w' pol] & -> & Hlit).
    destruct (Hin w' pol) as [x Hx].
    { apply elem_of_lits. eauto. }
    rewrite initial_index_get in Hx. by case_decide. }
  split; [done|]. intros Hnone c Hc.
  destruct (Clause.variables c) as [|[w pol] items] eqn:Hitems; [done|].
  specialize (Hrange c w Hc). rewrite Hitems in Hrange.
  unfold declared in Hrange. rewrite Hnone in Hrange. simpl in Hrange.
  assert (1 ≤ w ≤ 0); [|lia]. apply Hrange. by left.
Qed.

Lemma from_file_declared_witness :
  (∀ c w, c ∈ [Clause.mk [(1, true); (2, false)]; Clause.mk [(2, true)]] →
          w ∈ Dict.keys (Clause.variables c) →
          1 ≤ w ≤ declared Files.plain_split Files.plain_int
                    [codes "c x"; codes "p cnf 3 2"; codes "1 -2 0";
                     codes "2 3"]) ∧
  (filter (λ l, is_problem l)
     [codes "c x"; codes "p cnf 3 2"; codes "1 -2 0"; codes "2 3"] = [] →
   ∀ c, c ∈ [Clause.mk [(1, true); (2, false)]; Clause.mk [(2, true)]] →
        Clause.variables c = []).
Proof.
  apply (from_file_declared Files.plain_split Files.plain_int (λ l, l) (λ l, l)
           [codes "c x"; codes "p cnf 3 2"; codes "1 -2 0"; codes "2 3"]
           (Cnf.mk [(1, (0, 1)); (2, (1, 1))]
              [Clause.mk [(1, true); (2, false)]; Clause.mk [(2, true)]])).
  - done.
  - reflexivity.
Defined.

(** Both failures, on plain text. *)
Example from_file_without_problem_line :
  Files.from_file Files.plain_split Files.plain_int (λ l, l) (λ l, l)
    [codes "1 -2 0"] = inr (Raise KeyError).
Proof. reflexivity. Qed.

Example from_file_two_clauses_on_a_line :
  Files.from_file Files.plain_split Files.plain_int (λ l, l) (λ l, l)
    [codes "p cnf 2 2"; codes "1 -2 0 2 0"] = inr (Raise KeyError).
Proof. reflexivity. Qed.

(** ** The script *)

Lemma join_singleton sep x : join sep [x] = x.
Proof. reflexivity. Qed.

Lemma to_file_literals str (solution : dict pykey pyval) :
  Files.to_file str solution
  = join (codes " ")
      (map str (omap (λ '(var, val), (λ v, signed v (truthy val)) <$> var)
                     solution)).
Proof.
  unfold Files.to_file. f_equal.
  induction solution as [|[[v|] val] solution IH]; simpl;
    [done| |exact IH].
  f_equal; [|exact IH]. unfold signed. by destruct (truthy val).
Qed.

Lemma elem_of_literals z (m : dict pykey pyval) :
  z ∈ omap (λ '(var, val), (λ v, signed v (truthy val)) <$> var) m ↔
  ∃ w val, (Some w, val) ∈ m ∧ z = signed w (truthy val).
Proof.
  rewrite list_elem_of_omap. split.
  - intros ([[w|] val] & Hin & Hz); simpl in Hz; [|done].
    injection Hz as <-. eauto.
  - intros (w & val & Hin & ->). exists (Some w, val). done.
Qed.

Lemma signed_abs w b : 0 < w → Z.abs (signed w b) = w.
Proof. unfold signed. destruct b; lia. Qed.

Lemma NoDup_literals (m : dict pykey pyval) :
  NoDup (Dict.keys m) →
  (∀ w, Some w ∈ Dict.keys m → 0 < w) →
  NoDup (omap (λ '(var, val), (λ v, signed v (truthy val)) <$> var) m).
Proof.
  induction m as [|[[w|] val] m IH]; simpl; [constructor| |].
  - intros [Hw Hnd]%NoDup_cons Hpos. constructor.
    + intros (w' & val' & Hin & Heq)%elem_of_literals.
      assert (w' = w) as ->.
      { rewrite <- (signed_abs w (truthy val)), Heq, signed_abs; [done|..].
        - apply Hpos. right. apply list_elem_of_fmap. by exists (Some w', val').
        - apply Hpos. by left. }
      apply Hw. apply list_elem_of_fmap. by exists (Some w, val').
    + apply IH; [done|]. intros w' Hw'. apply Hpos. by right.
  - intros [_ Hnd]%NoDup_cons Hpos. apply IH; [done|].
    intros w' Hw'. apply Hpos. by right.
Qed.

(** X15.  The script as a whole, for a file that is read without an I/O
    error and a search within Python's recursion limit.  It always ends.  It writes a text exactly when [from_file]
    returns a formula.  The text is [str(0)] when the clauses read have no
    model; otherwise it is a list of integers joined by blanks, none of
    them [0], none of them twice, never an integer and its opposite, and
    every clause read holds a literal that is among them. *)
Theorem main_answer split int str set_iter set_clauses lines :
  (∀ l c, c ∈ set_clauses l → c ∈ l) →
  match Files.main split int str set_iter set_clauses lines with
  | Written text =>
      ∃ formula,
        Files.from_file split int set_iter set_clauses lines
          = inr (Return formula) ∧
        ((¬ satisfiable (Cnf.clauses formula) ∧ text = str 0) ∨
         ∃ literals,
           text = join (codes " ") (map str literals) ∧
           NoDup literals ∧
           (∀ z, z ∈ literals → z ≠ 0 ∧ - z ∉ literals) ∧
           ∀ c, c ∈ Cnf.clauses formula →
                ∃ w pol, (w, pol) ∈ Clause.variables c ∧
                         signed w pol ∈ literals)
  | Refused =>
      ∀ formula,
        Files.from_file split int set_iter set_clauses lines
          ≠ inr (Return formula)
  | NoAnswer => False
  end.
Proof.
  intros Hset. unfold Files.main.
  pose proof (from_file_solve split int set_iter set_clauses lines) as Hsolve.
  destruct (Files.from_file split int set_iter set_clauses lines)
    as [e|[formula|e|]] eqn:Hfile; try done.
  2:{ apply from_file_spec in Hfile. unfold Cnf.from_list in Hfile.
      by destruct (Cnf.count_clauses _ _). }
  destruct (Hsolve formula Hset eq_refl) as (m & -> & Hcases).
  exists formula. split; [done|].
  destruct Hcases as [[-> Hunsat]|(Hnd & Hkeys & Hsat)]; [by left|].
  right. exists (omap (λ '(var, val), (λ v, signed v (truthy val)) <$> var) m).
  assert (∀ w, Some w ∈ Dict.keys m → 0 < w) as Hpos.
  { intros w Hw. apply Hkeys in Hw. lia. }
  split_and!.
  - apply to_file_literals.
  - by apply NoDup_literals.
  - intros z (w & val & Hin & ->)%elem_of_literals.
    assert (0 < w) as Hw.
    { apply Hpos, list_elem_of_fmap. by exists (Some w, val). }
    split; [unfold signed; destruct (truthy val); lia|].
    intros (w' & val' & Hin' & Heq)%elem_of_literals.
    assert (0 < w') as Hw'.
    { apply Hpos, list_elem_of_fmap. by exists (Some w', val'). }
    assert (w' = w) as ->.
    { rewrite <- (signed_abs w' (truthy val')), <- Heq by done.
      rewrite Z.abs_opp. by apply signed_abs. }
    apply elem_of_get in Hin; [|done]. apply elem_of_get in Hin'; [|done].
    rewrite Hin in Hin'. injection Hin' as <-.
    unfold signed in Heq. destruct (truthy val); lia.
  - intros c Hc. destruct (Hsat c Hc) as (w & pol & Hlit & Hget).
    exists w, pol. split; [done|]. apply elem_of_literals.
    exists w, (VBool pol). split; [|done]. by apply get_Some_elem_of.
Qed.


Lemma main_answer_witness :
  match Files.main Files.plain_split Files.plain_int Files.plain_str
          (λ l, l) (λ l, l)
          [codes "c two clauses"; codes "p cnf 2 2"; codes "1 -2 0";
           codes "2 0"] with
  | Written text =>
      ∃ formula,
        Files.from_file Files.plain_split Files.plain_int (λ l, l) (λ l, l)
          [codes "c two clauses"; codes "p cnf 2 2"; codes "1 -2 0";
           codes "2 0"]
          = inr (Return formula) ∧
        ((¬ satisfiable (Cnf.clauses formula) ∧ text = Files.plain_str 0) ∨
         ∃ literals,
           text = join (codes " ") (map Files.plain_str literals) ∧
           NoDup literals ∧
           (∀ z, z ∈ literals → z ≠ 0 ∧ - z ∉ literals) ∧
           ∀ c, c ∈ Cnf.clauses formula →
                ∃ w pol, (w, pol) ∈ Clause.variables c ∧
                         signed w pol ∈ literals)
  | Refused =>
      ∀ formula,
        Files.from_file Files.plain_split Files.plain_int (λ l, l) (λ l, l)
          [codes "c two clauses"; codes "p cnf 2 2"; codes "1 -2 0";
           codes "2 0"]
          ≠ inr (Return formula)
  | NoAnswer => False
  end.
Proof.
  apply (main_answer Files.plain_split Files.plain_int Files.plain_str
           (λ l, l) (λ l, l)
           [codes "c two clauses"; codes "p cnf 2 2"; codes "1 -2 0";
            codes "2 0"]).
  done.
Defined.

(** The three outcomes of the script on plain text. *)
Example main_writes_a_model :
  Files.plain_main
    [codes "c two clauses"; codes "p cnf 2 2"; codes "1 -2 0"; codes "2 0"]
  = Written (codes "1 2").
Proof. reflexivity. Qed.

Example main_writes_the_marker :
  Files.plain_main [codes "p cnf 1 2"; codes "1 0"; codes "-1 0"]
  = Written (codes "0").
Proof. reflexivity. Qed.

Example main_refuses :
  Files.plain_main [codes "p cnf"; codes "1 0"] = Refused.
Proof. reflexivity. Qed.


(** * The order of the index *)

Lemma keys_remove_sublist {K V} `{EqDecision K} (k : K) (d : dict K V) :
  Dict.keys (Dict.remove k d) `sublist_of` Dict.keys d.
Proof.
  induction d as [|[k' v] d IH]; simpl; [done|].
  case_decide; [by apply sublist_cons | by apply sublist_skip].
Qed.

Lemma thinned_refl idx : thinned idx idx.
Proof. by split. Qed.

Lemma thinned_trans idx1 idx2 idx3 :
  thinned idx1 idx2 → thinned idx2 idx3 → thinned idx1 idx3.
Proof. intros [? ?] [? ?]. split; [by etrans|auto]. Qed.

Lemma thinned_remove idx var : thinned idx (Dict.remove var idx).
Proof.
  split; [apply keys_remove_sublist|].
  intros Ht w c [Hin _]%elem_of_remove. by eapply Ht.
Qed.

Lemma thinned_setitem idx var c c' :
  Dict.get var idx = Some c → c' ≠ (0, 0) →
  thinned idx (Dict.setitem var c' idx).
Proof.
  intros Hget Hc'. split.
  - rewrite keys_setitem_present by (by rewrite Hget). done.
  - intros Ht w x [[= -> ->]|Hin]%elem_of_setitem; [done|]. by eapply Ht.
Qed.

Lemma lower_nonzero par c :
  mine par (lower par c) ≠ 0 ∨ other par (lower par c) ≠ 0 →
  lower par c ≠ (0, 0).
Proof.
  destruct c as [n p], par; unfold mine, other, lower; simpl;
    intros [?|?] [= ? ?]; lia.
Qed.

Lemma drop_literals_thinned assume_var items idx0 idx q :
  thinned idx0 idx →
  thinned idx0 (Cnf.drop_literals assume_var items idx q).1.1.
Proof.
  intros Hidx.
  assert (∀ items idx q,
            thinned idx0 idx →
            thinned idx0 (Cnf.drop_literals assume_var items idx q).1.1)
    as Hgen; [|by apply Hgen].
  clear. intros items. induction items as [|[var par] items IH];
    intros idx q Hidx; [done|].
  rewrite drop_literals_cons. cbv zeta.
  case_decide; [by apply IH|].
  destruct (Dict.get var idx) as [c|] eqn:Hget; [|done].
  assert (mine par (lower par c) ≠ 0 ∨ other par (lower par c) ≠ 0 →
          thinned idx0 (Dict.setitem var (lower par c) idx)) as Hset.
  { intros Hnz. eapply thinned_trans; [done|].
    eapply thinned_setitem; [done|]. by apply lower_nonzero. }
  case_decide; [|apply IH; auto].
  case_decide.
  { apply IH. eapply thinned_trans; [done|]. apply thinned_remove. }
  destruct (Dict.get (Some var) q) as [[| |]|]; try (apply IH; auto);
    destruct (py_eq _ _); try done; apply IH; auto.
Qed.


Lemma scan_thinned assume_var assume_val cls idx0 idx q :
  thinned idx0 idx →
  thinned idx0 (Cnf.index (Cnf.scan assume_var assume_val cls idx q)).
Proof.
  revert idx q. induction cls as [|c cls IH]; intros idx q Hidx; [done|].
  simpl. destruct (Cnf.clause_get assume_var c) as [pol|]; [|by apply IH].
  destruct (py_eq _ _).
  - pose proof (drop_literals_thinned assume_var (Clause.variables c)
                  idx0 idx q Hidx) as Hdrop.
    destruct (Cnf.drop_literals _ _ _ _) as [[idx' q'] [e|]]; simpl in *;
      [done|by apply IH].
  - destruct (Cnf.clause_del _ _) as [|[var par] [|e2 rest]]; simpl;
      [done| |by apply IH].
    destruct (Dict.get (Some var) q) as [[| |]|]; try (by apply IH);
      destruct (negb _); simpl; try done; by apply IH.
Qed.

Lemma propagate_loop_thinned fuel formula idx0 q A :
  thinned idx0 (Cnf.variables formula) →
  thinned idx0 (Cnf.variables (Cnf.propagate_loop fuel formula q A).1).
Proof.
  revert formula q A. induction fuel as [|fuel IH]; intros formula q A Hidx;
    [done|].
  rewrite propagate_loop_S.
  destruct (Dict.popitem q) as [[[k val] rest]|]; [|done]. cbv zeta.
  destruct (Cnf.del_assumed k (Cnf.variables formula)) as [idx|] eqn:Hdel;
    [|by apply IH].
  apply del_assumed_Some in Hdel as (v & -> & _ & ->).
  pose proof (scan_thinned (Some v) val (Cnf.clauses formula) idx0
                (Dict.remove v (Cnf.variables formula)) rest) as Hscan.
  destruct (Cnf.raised _).
  { simpl. apply Hscan. eapply thinned_trans; [done|]. apply thinned_remove. }
  case_decide; simpl.
  - apply Hscan. eapply thinned_trans; [done|]. apply thinned_remove.
  - apply IH. simpl. apply Hscan.
    eapply thinned_trans; [done|]. apply thinned_remove.
Qed.

Lemma propagate_thinned formula q :
  thinned (Cnf.variables formula) (Cnf.variables (Cnf.propagate formula q).1).
Proof. apply propagate_loop_thinned, thinned_refl. Qed.

Lemma unit_propagate_loop_thinned fuel formula idx0 assigned :
  thinned idx0 (Cnf.variables formula) →
  thinned idx0
    (Cnf.variables (Cnf.unit_propagate_loop fuel formula assigned).1).
Proof.
  revert formula assigned. induction fuel as [|fuel IH];
    intros formula assigned Hidx; [done|]. simpl.
  case_decide; [done|].
  destruct (Cnf.first_unit _) as [|var par|]; try done.
  pose proof (propagate_thinned formula [(Some var, VBool par)]) as Hprop.
  destruct (Cnf.propagate formula _) as [formula' [prop|e|]]; simpl in *.
  - apply IH. by eapply thinned_trans.
  - by eapply thinned_trans.
  - by eapply thinned_trans.
Qed.

Lemma unit_propagate_thinned formula :
  thinned (Cnf.variables formula)
    (Cnf.variables (Cnf.unit_propagate formula).1).
Proof. apply unit_propagate_loop_thinned, thinned_refl. Qed.

(** X16.  [propagate] and [unit_propagate] only delete entries of the
    index and replace values of entries that are there: whatever the
    formula and the queue, and whether the call returns or raises, the
    variables of the index afterwards are variables it held before, in the
    same order, and no entry with both counts zero appears if there was
    none. *)
Theorem index_only_thinned formula var_queue :
  Dict.keys (Cnf.variables (Cnf.propagate formula var_queue).1)
    `sublist_of` Dict.keys (Cnf.variables formula) ∧
  Dict.keys (Cnf.variables (Cnf.unit_propagate formula).1)
    `sublist_of` Dict.keys (Cnf.variables formula) ∧
  (tidy (Cnf.variables formula) →
   tidy (Cnf.variables (Cnf.propagate formula var_queue).1) ∧
   tidy (Cnf.variables (Cnf.unit_propagate formula).1)).
Proof.
  destruct (propagate_thinned formula var_queue) as [? ?].
  destruct (unit_propagate_thinned formula) as [? ?].
  split_and!; auto.
Qed.

Lemma index_only_thinned_witness :
  Dict.keys
    (Cnf.variables
       (Cnf.propagate
          (Cnf.mk [(1, (1, 1)); (2, (2, 2)); (3, (2, 1))]
             [Clause.mk [(1, true); (2, true)];
              Clause.mk [(1, false); (2, true); (3, false)];
              Clause.mk [(2, false); (3, true)];
              Clause.mk [(2, false); (3, false)]])
          [(Some 2, VBool true)]).1)
    `sublist_of` [1; 2; 3] ∧
  Dict.keys
    (Cnf.variables
       (Cnf.unit_propagate
          (Cnf.mk [(1, (1, 1)); (2, (2, 2)); (3, (2, 1))]
             [Clause.mk [(1, true); (2, true)];
              Clause.mk [(1, false); (2, true); (3, false)];
              Clause.mk [(2, false); (3, true)];
              Clause.mk [(2, false); (3, false)]])).1)
    `sublist_of` [1; 2; 3] ∧
  (tidy [(1, (1, 1)); (2, (2, 2)); (3, (2, 1))] →
   tidy (Cnf.variables
           (Cnf.propagate
              (Cnf.mk [(1, (1, 1)); (2, (2, 2)); (3, (2, 1))]
                 [Clause.mk [(1, true); (2, true)];
                  Clause.mk [(1, false); (2, true); (3, false)];
                  Clause.mk [(2, false); (3, true)];
                  Clause.mk [(2, false); (3, false)]])
              [(Some 2, VBool true)]).1) ∧
   tidy (Cnf.variables
           (Cnf.unit_propagate
              (Cnf.mk [(1, (1, 1)); (2, (2, 2)); (3, (2, 1))]
                 [Clause.mk [(1, true); (2, true)];
                  Clause.mk [(1, false); (2, true); (3, false)];
                  Clause.mk [(2, false); (3, true)];
                  Clause.mk [(2, false); (3, false)]])).1)).
Proof.
  apply (index_only_thinned
           (Cnf.mk [(1, (1, 1)); (2, (2, 2)); (3, (2, 1))]
              [Clause.mk [(1, true); (2, true)];
               Clause.mk [(1, false); (2, true); (3, false)];
               Clause.mk [(2, false); (3, true)];
               Clause.mk [(2, false); (3, false)]])
           [(Some 2, VBool true)]).
Defined.


Lemma StronglySorted_sublist {A} (R : relation A) (l1 l2 : list A) :
  l1 `sublist_of` l2 → StronglySorted R l2 → StronglySorted R l1.
Proof.
  induction 1 as [|x l1 l2 Hsub IH|x l1 l2 Hsub IH]; [done|..].
  - intros [Hl Hx]%StronglySorted_inv. constructor; [by apply IH|].
    rewrite Forall_forall in Hx |- *. intros y Hy. apply Hx.
    by eapply elem_of_sublist.
  - intros [Hl _]%StronglySorted_inv. by apply IH.
Qed.

Lemma in_order_thinned formula formula' :
  in_order formula →
  thinned (Cnf.variables formula) (Cnf.variables formula') →
  well_formed formula' →
  Cnf.clauses formula' = [] ∨
    counted None (Cnf.variables formula') (lits (Cnf.clauses formula')) →
  in_order formula'.
Proof.
  intros (_ & _ & Hsorted & Htidy) [Hsub Ht] Hwf Hc. split_and!; auto.
  by eapply StronglySorted_sublist.
Qed.

Lemma in_order_propagate formula q formula' M :
  in_order formula →
  Cnf.propagate formula q = (formula', Return M) →
  in_order formula'.
Proof.
  intros Hord Hprop. pose proof Hord as (Hwf & Hc & _).
  destruct (propagate_counted _ _ _ _ Hwf Hc Hprop) as [Hwf' Hc'].
  apply (in_order_thinned formula); try done.
  pose proof (propagate_thinned formula q) as Hthin. by rewrite Hprop in Hthin.
Qed.

Lemma in_order_unit_propagate formula formula' vars :
  in_order formula →
  Cnf.unit_propagate formula = (formula', Return vars) →
  in_order formula'.
Proof.
  intros Hord Hunit. pose proof Hord as (Hwf & Hc & _).
  destruct (unit_propagate_spec False formula Hwf Hc) as (_ & Hpost & _);
    [done|].
  rewrite Hunit in Hpost. simpl in Hpost. unfold propagate_post in Hpost.
  destruct Hpost as (_ & _ & _ & _ & Hwf' & Hc' & _).
  apply (in_order_thinned formula); try done.
  - pose proof (unit_propagate_thinned formula) as Hthin.
    by rewrite Hunit in Hthin.
  - destruct Hc' as [?|[? _]]; auto.
Qed.

Lemma in_order_from_list set_iter clause_list N formula :
  (∀ c, c ∈ set_iter clause_list → NoDup (Dict.keys (Clause.variables c))) →
  Cnf.from_list set_iter clause_list N = Return formula →
  in_order formula.
Proof.
  intros Hnd Hfrom.
  destruct (from_list_exact _ _ _ _ Hnd Hfrom) as (Hcls & Hkeys & Hget).
  destruct (from_list_counted _ _ _ _ Hfrom Hnd) as (_ & Hwf & Hcnt).
  split_and!; [done|by right| |].
  - rewrite Hkeys. apply StronglySorted_filter, StronglySorted_seqZ.
  - intros w [n p] Hin. apply elem_of_get in Hin; [|apply Hwf].
    rewrite Hget in Hin. case_decide as Hw; [|done]. injection Hin as <- <-.
    pose proof (occurs_positive w (Cnf.clauses formula)
                  ltac:(apply Hwf) Hw).
    intros [= ? ?]. lia.
Qed.

Lemma in_order_calls formula inner :
  dpll_calls formula inner → in_order formula → in_order inner.
Proof.
  induction 1 as
    [ formula
    | formula reduced vars var assume new propagated inner
        Hunit Hdl Hprop Hnew Hcalls IH
    | formula reduced vars var assume new propagated inner
        Hunit Hdl Hfirst Hprop Hnew Hcalls IH ];
    intros Hord; [done|..].
  - rewrite cnf_copy_eq in Hprop. apply IH.
    eapply in_order_propagate; [|done]. by eapply in_order_unit_propagate.
  - rewrite cnf_copy_eq in Hprop. apply IH.
    eapply in_order_propagate; [|done]. by eapply in_order_unit_propagate.
Qed.

Lemma in_order_entry formula w n p :
  in_order formula → Cnf.clauses formula ≠ [] →
  (w, (n, p)) ∈ Cnf.variables formula →
  w ∈ Dict.keys (lits (Cnf.clauses formula)) ∧
  n = occurrences w false (Cnf.clauses formula) ∧
  p = occurrences w true (Cnf.clauses formula) ∧
  0 < p + n.
Proof.
  intros (Hwf & [?|Hcnt] & Hsorted & Htidy) Hcls Hin; [done|].
  pose proof (Htidy _ _ Hin) as Hnz.
  apply elem_of_get in Hin; [|apply Hwf].
  pose proof (Hcnt w ltac:(done)) as Hw. rewrite Hin in Hw.
  injection Hw as -> ->.
  pose proof (cnt_nonneg w false (lits (Cnf.clauses formula))).
  pose proof (cnt_nonneg w true (lits (Cnf.clauses formula))).
  assert (0 < cnt w true (lits (Cnf.clauses formula))
              + cnt w false (lits (Cnf.clauses formula))) as Hpos.
  { destruct (decide (cnt w true (lits (Cnf.clauses formula)) = 0))
      as [Ezt|]; [|lia].
    destruct (decide (cnt w false (lits (Cnf.clauses formula)) = 0))
      as [Ezf|]; [|lia].
    exfalso. apply Hnz. by rewrite Ezf, Ezt. }
  rewrite <- !cnt_lits by apply Hwf. split_and!; try done.
  destruct (decide (0 < cnt w true (lits (Cnf.clauses formula))))
    as [Ht|Ht].
  - apply cnt_pos in Ht. apply list_elem_of_fmap. by exists (w, true).
  - assert (0 < cnt w false (lits (Cnf.clauses formula))) as Hf by lia.
    apply cnt_pos in Hf. apply list_elem_of_fmap. by exists (w, false).
Qed.

Lemma in_order_indexed formula :
  in_order formula → Cnf.clauses formula ≠ [] →
  ∀ w, w ∈ Dict.keys (Cnf.variables formula) ↔
       w ∈ Dict.keys (lits (Cnf.clauses formula)).
Proof.
  intros Hord Hcls w. split.
  - intros ([w' [n p]] & -> & Hin)%list_elem_of_fmap.
    by destruct (in_order_entry formula w' n p Hord Hcls Hin).
  - destruct Hord as (Hwf & [?|Hcnt] & _); [done|].
    intros ([w' pol] & -> & Hlit)%list_elem_of_fmap.
    apply elem_of_lits in Hlit as (c & Hc & Hlit).
    destruct (counted_occurs formula c w' pol) as (n & p & Hget & _);
      try done.
    apply get_is_Some_keys. simpl. by rewrite Hget.
Qed.

Lemma in_order_largest formula :
  in_order formula → Cnf.clauses formula ≠ [] →
  match Solver.dynamic_largest (Cnf.variables formula) with
  | (Some var, x) =>
      var ∈ Dict.keys (lits (Cnf.clauses formula)) ∧
      (∀ w, w ∈ Dict.keys (lits (Cnf.clauses formula)) → w ≤ var) ∧
      x = VBool (bool_decide (occurrences var true (Cnf.clauses formula)
                              > occurrences var false (Cnf.clauses formula)))
  | (None, x) => x = VNone ∧ lits (Cnf.clauses formula) = []
  end.
Proof.
  intros Hord Hcls.
  pose proof (λ w n p, in_order_entry formula w n p Hord Hcls) as Hentry.
  pose proof (in_order_indexed formula Hord Hcls) as Hindexed.
  destruct Hord as (Hwf & _ & Hsorted & Htidy).
  pose proof (dynamic_largest_last (Cnf.variables formula)) as Hlast.
  destruct (Solver.dynamic_largest (Cnf.variables formula)) as [[var|] x].
  - destruct Hlast as (before & after & neg & pos & Hidx & Hpos & -> & Hafter).
    destruct after as [|[w [n p]] after].
    2:{ apply Forall_cons in Hafter as [Hle _]. simpl in Hle.
        destruct (Hentry w n p) as (_ & _ & _ & ?); [|lia].
        rewrite Hidx. apply elem_of_app. right. right. by left. }
    destruct (Hentry var neg pos) as (Hvar & -> & -> & _).
    { rewrite Hidx. apply elem_of_app. right. by left. }
    split_and!; [done| |done].
    intros w Hw%Hindexed.
    rewrite Hidx in Hw, Hsorted. unfold Dict.keys in Hw, Hsorted.
    rewrite map_app in Hw, Hsorted. simpl in Hw, Hsorted.
    apply elem_of_app in Hw as [Hw|Hw%list_elem_of_singleton]; [|lia].
    assert (w < var); [|lia].
    eapply (StronglySorted_app_1_elem_of Z.lt); [done..|by left].
  - destruct Hlast as [-> Hall]. split; [done|].
    assert (lits (Cnf.clauses formula) = [] ∨
            ∃ w, w ∈ Dict.keys (lits (Cnf.clauses formula))) as [?|[w Hw]];
      [|done|].
    { destruct (lits (Cnf.clauses formula)) as [|[w pol] L]; [by left|].
      right. exists w. by left. }
    exfalso. apply Hindexed in Hw.
    apply list_elem_of_fmap in Hw as ([w' [n p]] & _ & Hin).
    destruct (Hentry _ _ _ Hin) as (_ & _ & _ & ?).
    rewrite Forall_forall in Hall. apply Hall in Hin. simpl in Hin. lia.
Qed.

(** X17.  Along the whole search the index stays in increasing order of
    the variables and holds exactly the variables of the clauses that are
    left.  So every call of [dpll] that [solve] makes, once its
    [unit_propagate] has returned with clauses left, branches on the
    variable with the largest number among those that still occur, and
    tries [True] first exactly when more clauses hold it plain than
    negated. *)
Theorem dpll_branches_on_largest set_iter clause_list N formula0 formula
    vars0 inner reduced vars :
  (∀ c, c ∈ set_iter clause_list → NoDup (Dict.keys (Clause.variables c))) →
  Cnf.from_list set_iter clause_list N = Return formula0 →
  Cnf.propagate formula0 (Solver.pure_variables (Cnf.variables formula0))
    = (formula, Return vars0) →
  dpll_calls formula inner →
  Cnf.unit_propagate inner = (reduced, Return vars) →
  Cnf.clauses reduced ≠ [] →
  StronglySorted Z.lt (Dict.keys (Cnf.variables reduced)) ∧
  (∀ w, w ∈ Dict.keys (Cnf.variables reduced) ↔
        w ∈ Dict.keys (lits (Cnf.clauses reduced))) ∧
  ∃ var,
    Solver.dynamic_largest (Cnf.variables reduced)
    = (Some var,
       VBool (bool_decide (occurrences var true (Cnf.clauses reduced)
                           > occurrences var false (Cnf.clauses reduced)))) ∧
    var ∈ Dict.keys (lits (Cnf.clauses reduced)) ∧
    ∀ w, w ∈ Dict.keys (lits (Cnf.clauses reduced)) → w ≤ var.
Proof.
  intros Hnd Hfrom Hpure Hcalls Hunit Hcls.
  assert (in_order formula0) as Hord0 by (by eapply in_order_from_list).
  assert (in_order inner) as Hinner.
  { eapply in_order_calls; [done|]. by eapply in_order_propagate. }
  assert (in_order reduced) as Hord
    by (by eapply in_order_unit_propagate).
  pose proof (in_order_largest reduced Hord Hcls) as Hlargest.
  pose proof (in_order_indexed reduced Hord Hcls) as Hindexed.
  split_and!; [apply Hord|done|].
  destruct (Solver.dynamic_largest (Cnf.variables reduced)) as [[var|] x].
  - destruct Hlargest as (Hvar & Hmax & ->). by exists var.
  - destruct Hlargest as [_ Hnil]. exfalso.
    destruct (unit_propagate_spec False inner) as (_ & _ & Hnounit);
      [apply Hinner..|done|].
    rewrite Hunit in Hnounit. simpl in Hnounit.
    destruct (Hnounit vars eq_refl) as [?|Hnone]; [done|].
    destruct (Cnf.clauses reduced) as [|c cls] eqn:Hc; [done|].
    pose proof (first_unit_none _ c Hnone ltac:(by left)) as Hlen.
    simpl in Hnil. destruct (Clause.variables c); [simpl in Hlen; lia|done].
Qed.


Lemma dpll_branches_on_largest_witness :
  StronglySorted Z.lt (Dict.keys [(1, (2, 2)); (2, (2, 3)); (3, (2, 1))]) ∧
  (∀ w, w ∈ Dict.keys [(1, (2, 2)); (2, (2, 3)); (3, (2, 1))] ↔
        w ∈ Dict.keys (lits [Clause.mk [(1, true); (2, true); (3, true)];
      Clause.mk [(1, false); (2, false); (3, false)];
      Clause.mk [(1, true); (2, false)];
      Clause.mk [(2, true); (3, false)];
      Clause.mk [(1, false); (2, true)]])) ∧
  ∃ var,
    Solver.dynamic_largest [(1, (2, 2)); (2, (2, 3)); (3, (2, 1))]
    = (Some var,
       VBool (bool_decide
                (occurrences var true [Clause.mk [(1, true); (2, true); (3, true)];
      Clause.mk [(1, false); (2, false); (3, false)];
      Clause.mk [(1, true); (2, false)];
      Clause.mk [(2, true); (3, false)];
      Clause.mk [(1, false); (2, true)]]
                 > occurrences var false [Clause.mk [(1, true); (2, true); (3, true)];
      Clause.mk [(1, false); (2, false); (3, false)];
      Clause.mk [(1, true); (2, false)];
      Clause.mk [(2, true); (3, false)];
      Clause.mk [(1, false); (2, true)]]))) ∧
    var ∈ Dict.keys (lits [Clause.mk [(1, true); (2, true); (3, true)];
      Clause.mk [(1, false); (2, false); (3, false)];
      Clause.mk [(1, true); (2, false)];
      Clause.mk [(2, true); (3, false)];
      Clause.mk [(1, false); (2, true)]]) ∧
    ∀ w, w ∈ Dict.keys (lits [Clause.mk [(1, true); (2, true); (3, true)];
      Clause.mk [(1, false); (2, false); (3, false)];
      Clause.mk [(1, true); (2, false)];
      Clause.mk [(2, true); (3, false)];
      Clause.mk [(1, false); (2, true)]]) →
         w ≤ var.
Proof.
  apply (dpll_branches_on_largest (λ l, l)
           [Clause.mk [(1, true); (2, true); (3, true)];
      Clause.mk [(1, false); (2, false); (3, false)];
      Clause.mk [(1, true); (2, false)];
      Clause.mk [(2, true); (3, false)];
      Clause.mk [(1, false); (2, true); (4, true)];
      Clause.mk [(1, true); (2, false); (4, false)]]
           4
           (Cnf.mk [(1, (2, 3)); (2, (3, 3)); (3, (2, 1)); (4, (1, 1))]
     [Clause.mk [(1, true); (2, true); (3, true)];
      Clause.mk [(1, false); (2, false); (3, false)];
      Clause.mk [(1, true); (2, false)];
      Clause.mk [(2, true); (3, false)];
      Clause.mk [(1, false); (2, true); (4, true)];
      Clause.mk [(1, true); (2, false); (4, false)]])
           (Cnf.mk [(1, (2, 3)); (2, (3, 3)); (3, (2, 1)); (4, (1, 1))]
     [Clause.mk [(1, true); (2, true); (3, true)];
      Clause.mk [(1, false); (2, false); (3, false)];
      Clause.mk [(1, true); (2, false)];
      Clause.mk [(2, true); (3, false)];
      Clause.mk [(1, false); (2, true); (4, true)];
      Clause.mk [(1, true); (2, false); (4, false)]])
           []
           (Cnf.mk [(1, (2, 2)); (2, (2, 3)); (3, (2, 1))]
     [Clause.mk [(1, true); (2, true); (3, true)];
      Clause.mk [(1, false); (2, false); (3, false)];
      Clause.mk [(1, true); (2, false)];
      Clause.mk [(2, true); (3, false)];
      Clause.mk [(1, false); (2, true)]])
           (Cnf.mk [(1, (2, 2)); (2, (2, 3)); (3, (2, 1))]
     [Clause.mk [(1, true); (2, true); (3, true)];
      Clause.mk [(1, false); (2, false); (3, false)];
      Clause.mk [(1, true); (2, false)];
      Clause.mk [(2, true); (3, false)];
      Clause.mk [(1, false); (2, true)]])
           []).
  - check_clauses.
  - reflexivity.
  - reflexivity.
  - apply (calls_first
             (Cnf.mk [(1, (2, 3)); (2, (3, 3)); (3, (2, 1)); (4, (1, 1))]
     [Clause.mk [(1, true); (2, true); (3, true)];
      Clause.mk [(1, false); (2, false); (3, false)];
      Clause.mk [(1, true); (2, false)];
      Clause.mk [(2, true); (3, false)];
      Clause.mk [(1, false); (2, true); (4, true)];
      Clause.mk [(1, true); (2, false); (4, false)]])
             (Cnf.mk [(1, (2, 3)); (2, (3, 3)); (3, (2, 1)); (4, (1, 1))]
     [Clause.mk [(1, true); (2, true); (3, true)];
      Clause.mk [(1, false); (2, false); (3, false)];
      Clause.mk [(1, true); (2, false)];
      Clause.mk [(2, true); (3, false)];
      Clause.mk [(1, false); (2, true); (4, true)];
      Clause.mk [(1, true); (2, false); (4, false)]])
             [] (Some 4) (VBool false)
             (Cnf.mk [(1, (2, 2)); (2, (2, 3)); (3, (2, 1))]
     [Clause.mk [(1, true); (2, true); (3, true)];
      Clause.mk [(1, false); (2, false); (3, false)];
      Clause.mk [(1, true); (2, false)];
      Clause.mk [(2, true); (3, false)];
      Clause.mk [(1, false); (2, true)]])
             [(Some 4, VBool false)]);
      [reflexivity..|done|apply calls_here].
  - reflexivity.
  - done.
Defined.

(** In the run of the lemma above the first call branches on [4], the
    largest variable, though [2] has the most occurrences. *)
Example first_branch_is_on_4 :
  Solver.dynamic_largest [(1, (2, 3)); (2, (3, 3)); (3, (2, 1)); (4, (1, 1))]
  = (Some 4, VBool false).
Proof. reflexivity. Qed.


(** * Objects and values *)

(** X18.  [propagate] and [unit_propagate] work in place on the index
    dictionary and the clause dictionaries of a [Cnf] object.  When no two
    clauses of the formula share a dictionary, the outcome of the call and
    the contents of the formula afterwards are those that the call gives on
    the contents alone, and no two clauses share a dictionary afterwards. *)
Theorem propagate_by_value h self var_queue :
  Store.separated h self →
  Cnf.propagate (Store.load h self) var_queue
  = (Store.load (Store.propagate h self var_queue).1 self,
     (Store.propagate h self var_queue).2) ∧
  Store.separated (Store.propagate h self var_queue).1 self ∧
  Cnf.unit_propagate (Store.load h self)
  = (Store.load (Store.unit_propagate h self).1 self,
     (Store.unit_propagate h self).2) ∧
  Store.separated (Store.unit_propagate h self).1 self.
Proof.
  intros Hsep.
  destruct (store_propagate_refines h self var_queue Hsep) as [? ?].
  destruct (store_unit_propagate_refines h self Hsep) as [? ?].
  done.
Qed.

Lemma propagate_by_value_witness :
  Cnf.propagate
    (Store.load
       (Store.mk [[(1, true); (2, true)]; [(1, false); (2, true)]]
          [[(1, (1, 1)); (2, (0, 2))]] [0; 1]%nat [(0, [0; 1])]%nat) 0%nat)
    [(Some 1, VBool false)]
  = (Store.load
       (Store.propagate
          (Store.mk [[(1, true); (2, true)]; [(1, false); (2, true)]]
             [[(1, (1, 1)); (2, (0, 2))]] [0; 1]%nat [(0, [0; 1])]%nat)
          0%nat [(Some 1, VBool false)]).1 0%nat,
     (Store.propagate
        (Store.mk [[(1, true); (2, true)]; [(1, false); (2, true)]]
           [[(1, (1, 1)); (2, (0, 2))]] [0; 1]%nat [(0, [0; 1])]%nat)
        0%nat [(Some 1, VBool false)]).2) ∧
  Store.separated
    (Store.propagate
       (Store.mk [[(1, true); (2, true)]; [(1, false); (2, true)]]
          [[(1, (1, 1)); (2, (0, 2))]] [0; 1]%nat [(0, [0; 1])]%nat)
       0%nat [(Some 1, VBool false)]).1 0%nat ∧
  Cnf.unit_propagate
    (Store.load
       (Store.mk [[(1, true); (2, true)]; [(1, false); (2, true)]]
          [[(1, (1, 1)); (2, (0, 2))]] [0; 1]%nat [(0, [0; 1])]%nat) 0%nat)
  = (Store.load
       (Store.unit_propagate
          (Store.mk [[(1, true); (2, true)]; [(1, false); (2, true)]]
             [[(1, (1, 1)); (2, (0, 2))]] [0; 1]%nat [(0, [0; 1])]%nat)
          0%nat).1 0%nat,
     (Store.unit_propagate
        (Store.mk [[(1, true); (2, true)]; [(1, false); (2, true)]]
           [[(1, (1, 1)); (2, (0, 2))]] [0; 1]%nat [(0, [0; 1])]%nat)
        0%nat).2) ∧
  Store.separated
    (Store.unit_propagate
       (Store.mk [[(1, true); (2, true)]; [(1, false); (2, true)]]
          [[(1, (1, 1)); (2, (0, 2))]] [0; 1]%nat [(0, [0; 1])]%nat)
       0%nat).1 0%nat.
Proof.
  apply (propagate_by_value
           (Store.mk [[(1, true); (2, true)]; [(1, false); (2, true)]]
              [[(1, (1, 1)); (2, (0, 2))]] [0; 1]%nat [(0, [0; 1])]%nat)
           0%nat [(Some 1, VBool false)]).
  exists 0%nat, [0; 1]%nat. split_and!.
  - reflexivity.
  - simpl. lia.
  - intros c Hc. apply list_elem_of_In in Hc.
    destruct Hc as [<-|[<-|[]]]; vm_compute; split; lia.
  - apply (bool_decide_unpack _). vm_compute. exact I.
Defined.

(** The hypothesis is needed.  Two [Clause] objects that share the
    dictionary [{1: True, 2: True}]: deleting [1] for the first one changes
    the second one too, which is then kept as a clause without [1]. *)
Example shared_dictionary :
  let h := Store.mk [[(1, true); (2, true)]] [[(1, (0, 2)); (2, (0, 2))]]
             [0; 0]%nat [(0, [0; 1])]%nat in
  Store.load (Store.propagate h 0%nat [(Some 1, VBool false)]).1 0%nat
  = Cnf.mk [] [] ∧
  (Cnf.propagate (Store.load h 0%nat) [(Some 1, VBool false)]).1
  = Cnf.mk [(2, (0, 2))] [].
Proof. split; reflexivity. Qed.

(** * The depth of the search *)

(** X19.  Every nested call of [dpll] works on an index that lost the
    branching variable, so the calls nest at most as deep as the index has
    variables, plus one: running [dpll] with any larger bound on the depth
    gives the same answer.  (Python's own recursion limit is not part of
    the model.) *)
Theorem dpll_depth n formula :
  well_formed formula → index_invariant formula →
  (length (Cnf.variables formula) < n)%nat →
  Solver.dpll_rec n formula = Solver.dpll formula ∧
  Solver.dpll formula ≠ Diverge.
Proof.
  intros Hwf Hidx Hn.
  assert (counted None (Cnf.variables formula) (lits (Cnf.clauses formula)))
    as Hc by (by apply index_invariant_counted).
  split; [apply dpll_rec_dpll; auto|].
  pose proof (dpll_spec formula Hwf (or_intror Hc)) as Hspec.
  intros Hd. by rewrite Hd in Hspec.
Qed.

Lemma dpll_depth_witness :
  Solver.dpll_rec 5
    (Cnf.mk [(1, (1, 1)); (2, (1, 1))]
       [Clause.mk [(1, true); (2, true)]; Clause.mk [(1, false); (2, false)]])
  = Solver.dpll
      (Cnf.mk [(1, (1, 1)); (2, (1, 1))]
         [Clause.mk [(1, true); (2, true)];
          Clause.mk [(1, false); (2, false)]]) ∧
  Solver.dpll
    (Cnf.mk [(1, (1, 1)); (2, (1, 1))]
       [Clause.mk [(1, true); (2, true)]; Clause.mk [(1, false); (2, false)]])
  ≠ Diverge.
Proof.
  apply (dpll_depth 5
           (Cnf.mk [(1, (1, 1)); (2, (1, 1))]
              [Clause.mk [(1, true); (2, true)];
               Clause.mk [(1, false); (2, false)]])).
  - check_well_formed.
  - check_index_invariant.
  - simpl. lia.
Defined.


(** * A file without clauses *)

Lemma filter_initial_index (l : list Z) :
  filter (λ e : Z * (Z * Z), e.2.1 ≠ 0 ∨ e.2.2 ≠ 0)
         (map (λ j : Z, (j, (0, 0))) l) = [].
Proof.
  induction l as [|j l IH]; [done|]. simpl. rewrite filter_cons.
  rewrite decide_False by (simpl; intros [?|?]; done). done.
Qed.

(** X20.  A file that is read and has no line that gives a clause (only
    comments and problem lines) is the empty formula: the script answers
    with an empty text, neither the marker [0] nor any literal, whatever
    the variable count. *)
Theorem main_no_clauses split int str set_iter set_clauses lines formula :
  (∀ l c, c ∈ set_clauses l → c ∈ l) →
  Files.from_file split int set_iter set_clauses lines = inr (Return formula) →
  filter (λ l, is_clause l) lines = [] →
  formula = Cnf.mk [] [] ∧
  Solver.solve formula = Return [(None, VNone)] ∧
  Files.main split int str set_iter set_clauses lines = Written [].
Proof.
  intros Hset Hfile Hnone. unfold Files.main. rewrite Hfile.
  apply from_file_spec in Hfile. rewrite Hnone in Hfile. simpl in Hfile.
  assert (set_clauses [] = []) as Hnil.
  { destruct (set_clauses []) as [|c ?] eqn:Hs; [done|].
    exfalso. apply (elem_of_nil c), Hset. rewrite Hs. by left. }
  unfold Cnf.from_list in Hfile. rewrite Hnil in Hfile. simpl in Hfile.
  rewrite filter_initial_index in Hfile. injection Hfile as ->.
  done.
Qed.

Lemma main_no_clauses_witness :
  Cnf.mk [] [] = Cnf.mk [] [] ∧
  Solver.solve (Cnf.mk [] []) = Return [(None, VNone)] ∧
  Files.main Files.plain_split Files.plain_int Files.plain_str
    (λ l, l) (λ l, l) [codes "c nothing"; codes "p cnf 3 0"]
  = Written [].
Proof.
  apply (main_no_clauses Files.plain_split Files.plain_int Files.plain_str
           (λ l, l) (λ l, l) [codes "c nothing"; codes "p cnf 3 0"]).
  - done.
  - reflexivity.
  - reflexivity.
Defined.
